(** * post-mapper: address mapping, validation and CP1252 export

    A shallow embedding of the row-mapping pipeline of [lib/mapper.ts]
    (column aliasing, country resolution, street/number splitting,
    whitespace cleaning, length validation), of the batch handlers of
    [App.tsx] (warning map, re-mapping, row deletion) and of the
    Windows-1252 encoder of [MappedTable.tsx].

    Modelling conventions:
    - a JavaScript string is the list of its UTF-16 code units ([list N]),
      so [length] is the [.length] of the source;
    - an object used as a dictionary is a finite map over its own
      properties ([gmap]); reading a key it does not own finds the
      members inherited from [Object.prototype] ([readPlain]), and
      assigning to [__proto__] creates no own property ([writePlain]);
      where the source enumerates an object ([Object.entries]) it is
      the association list of its entries in enumeration order;
    - a raw cell is a [cell]: undefined, null, a boolean, a string, or
      an integral number in the safe range (below 2^53 in magnitude),
      which [String] prints as its decimal numeral; a [value] is a cell
      or a member inherited from [Object.prototype];
    - [String.prototype.toLowerCase] and the country table
      [countries.json] are parameters of the development. *)

From Stdlib Require Import String Ascii NArith ZArith List Lia Bool.
From Stdlib Require DecimalNat.
From stdpp Require Import gmap list.

Local Open Scope nat_scope.

(** ** JavaScript strings *)

Abbreviation str := (list N).

(** Code units of a literal written in this file (UTF-8 source text,
    characters of the Basic Multilingual Plane). *)
Fixpoint js (s : string) : str :=
  match s with
  | EmptyString => []
  | String a rest =>
      let b := N_of_ascii a in
      if (b <? 0x80)%N then b :: js rest
      else if (b <? 0xE0)%N then
        match rest with
        | String a2 r2 =>
            (N.land b 0x1F * 64 + N.land (N_of_ascii a2) 0x3F)%N :: js r2
        | EmptyString => []
        end
      else
        match rest with
        | String a2 (String a3 r3) =>
            (N.land b 0x0F * 4096 + N.land (N_of_ascii a2) 0x3F * 64
             + N.land (N_of_ascii a3) 0x3F)%N :: js r3
        | _ => []
        end
  end.

Definition isLineTerminator (c : N) : bool :=
  ((c =? 0x0A) || (c =? 0x0D) || (c =? 0x2028) || (c =? 0x2029))%N.

(** The class [\s] of regular expressions, which is also the set of
    characters removed by [String.prototype.trim]. *)
Definition isWhiteSpace (c : N) : bool :=
  ((c =? 0x09) || (c =? 0x0A) || (c =? 0x0B) || (c =? 0x0C) || (c =? 0x0D)
   || (c =? 0x20) || (c =? 0xA0) || (c =? 0x1680)
   || ((0x2000 <=? c) && (c <=? 0x200A))
   || (c =? 0x2028) || (c =? 0x2029) || (c =? 0x202F) || (c =? 0x205F)
   || (c =? 0x3000) || (c =? 0xFEFF))%N.

(** [\d] *)
Definition isDigit (c : N) : bool := ((0x30 <=? c) && (c <=? 0x39))%N.

(** [[A-Za-z\-\/]] *)
Definition isNumberSuffix (c : N) : bool :=
  (((0x41 <=? c) && (c <=? 0x5A)) || ((0x61 <=? c) && (c <=? 0x7A))
   || (c =? 0x2D) || (c =? 0x2F))%N.

Definition SPACE : N := 0x20%N.

Fixpoint trimStart (s : str) : str :=
  match s with
  | [] => []
  | c :: r => if isWhiteSpace c then trimStart r else s
  end.

Fixpoint trimEnd (s : str) : str :=
  match s with
  | [] => []
  | c :: r =>
      match trimEnd r with
      | [] => if isWhiteSpace c then [] else [c]
      | t => c :: t
      end
  end.

Definition trim (s : str) : str := trimEnd (trimStart s).

(** [s.replace(/\s+/g, " ")]; [inrun] tells that the previous code unit
    belonged to the whitespace run being replaced. *)
Fixpoint collapseFrom (inrun : bool) (s : str) : str :=
  match s with
  | [] => []
  | c :: r =>
      if isWhiteSpace c
      then (if inrun then collapseFrom true r else SPACE :: collapseFrom true r)
      else c :: collapseFrom false r
  end.

Definition replaceWhitespaceRuns (s : str) : str := collapseFrom false s.

(** [s.split(/\s+/)]: the pieces between maximal whitespace runs; the
    head of the result is the piece being read. *)
Fixpoint splitFrom (inrun : bool) (s : str) : list str :=
  match s with
  | [] => [[]]
  | c :: r =>
      if isWhiteSpace c
      then (if inrun then splitFrom true r else [] :: splitFrom true r)
      else match splitFrom false r with
           | t :: ts => (c :: t) :: ts
           | [] => [[c]]
           end
  end.

Definition splitWhitespace (s : str) : list str := splitFrom false s.

(** [parts.join(sep)] *)
Fixpoint join (sep : str) (parts : list str) : str :=
  match parts with
  | [] => []
  | [p] => p
  | p :: ps => p ++ sep ++ join sep ps
  end.

Fixpoint startsWith (s sub : str) : bool :=
  match sub, s with
  | [], _ => true
  | _ :: _, [] => false
  | a :: sub', b :: s' => (a =? b)%N && startsWith s' sub'
  end.

(** [s.includes(sub)] *)
Fixpoint includes (s sub : str) : bool :=
  startsWith s sub ||
  match s with
  | [] => false
  | _ :: r => includes r sub
  end.

(** [/\d/.test(s)] *)
Definition hasDigit (s : str) : bool := existsb isDigit s.

(** Decimal numerals, as printed by [String(n)] and by template
    literals for integral numbers. *)
Fixpoint digitsOfUint (d : Decimal.uint) : str :=
  match d with
  | Decimal.Nil => []
  | Decimal.D0 r => 0x30%N :: digitsOfUint r
  | Decimal.D1 r => 0x31%N :: digitsOfUint r
  | Decimal.D2 r => 0x32%N :: digitsOfUint r
  | Decimal.D3 r => 0x33%N :: digitsOfUint r
  | Decimal.D4 r => 0x34%N :: digitsOfUint r
  | Decimal.D5 r => 0x35%N :: digitsOfUint r
  | Decimal.D6 r => 0x36%N :: digitsOfUint r
  | Decimal.D7 r => 0x37%N :: digitsOfUint r
  | Decimal.D8 r => 0x38%N :: digitsOfUint r
  | Decimal.D9 r => 0x39%N :: digitsOfUint r
  end.

Definition stringOfNat (n : nat) : str := digitsOfUint (Nat.to_uint n).

Definition stringOfZ (z : Z) : str :=
  match Z.to_int z with
  | Decimal.Pos d => digitsOfUint d
  | Decimal.Neg d => 0x2D%N :: digitsOfUint d
  end.

(** ** Values *)

(** The names of the members that a plain object inherits from
    [Object.prototype]. *)
Definition OBJECT_PROTOTYPE_KEYS : list str :=
  [ js "constructor"; js "__defineGetter__"; js "__defineSetter__";
    js "hasOwnProperty"; js "__lookupGetter__"; js "__lookupSetter__";
    js "isPrototypeOf"; js "propertyIsEnumerable"; js "toString";
    js "valueOf"; js "__proto__"; js "toLocaleString" ].

(** The values handled by the code: the primitives, and
    [VMember name], the member [Object.prototype[name]] that a lookup
    on a plain object returns for a key the object does not own (a
    built-in function, or [Object.prototype] itself for [__proto__]). *)
Inductive value : Type :=
  | VUndefined
  | VNull
  | VBool (b : bool)
  | VNumber (n : Z)
  | VString (s : str)
  | VMember (name : str).

(** What [String] prints for an inherited member: [Object.prototype]
    prints as a plain object, a built-in function as V8 and
    JavaScriptCore print its source, under its own name ([Object] for
    the constructor). *)
Definition memberText (name : str) : str :=
  if bool_decide (name = js "__proto__") then js "[object Object]"
  else
    js "function "
    ++ (if bool_decide (name = js "constructor") then js "Object" else name)
    ++ js "() { [native code] }".

(** [String(v)]; numbers are integral and in the safe range (below
    2^53 in magnitude), where the result is the decimal numeral. *)
Definition String_ (v : value) : str :=
  match v with
  | VUndefined => js "undefined"
  | VNull => js "null"
  | VBool true => js "true"
  | VBool false => js "false"
  | VNumber n => stringOfZ n
  | VString s => s
  | VMember name => memberText name
  end.

Definition nonEmpty (s : str) : bool :=
  match s with [] => false | _ => true end.

(** Truthiness, as tested by [if (v)], [!v] and [v || w]. *)
Definition truthy (v : value) : bool :=
  match v with
  | VUndefined | VNull => false
  | VBool b => b
  | VNumber n => negb (n =? 0)%Z
  | VString s => nonEmpty s
  | VMember _ => true
  end.

(** The value of a raw cell, as parsed from a sheet: a primitive. *)
Inductive cell : Type :=
  | CUndefined
  | CNull
  | CBool (b : bool)
  | CNumber (n : Z)
  | CString (s : str).

Definition cellValue (c : cell) : value :=
  match c with
  | CUndefined => VUndefined
  | CNull => VNull
  | CBool b => VBool b
  | CNumber n => VNumber n
  | CString s => VString s
  end.

(** [v || w] *)
Definition orElse (v w : value) : value := if truthy v then v else w.

Fixpoint takeWhile (f : N -> bool) (s : str) : str :=
  match s with
  | [] => []
  | c :: r => if f c then c :: takeWhile f r else []
  end.

Fixpoint dropWhile (f : N -> bool) (s : str) : str :=
  match s with
  | [] => []
  | c :: r => if f c then dropWhile f r else s
  end.

Definition notWhiteSpace (c : N) : bool := negb (isWhiteSpace c).

(** ** The mapper ([lib/mapper.ts]) *)

Record MappedAddress : Type := {
  NAME : str;
  ZUSATZ : str;
  STRASSE : str;
  NUMMER : str;
  PLZ : str;
  STADT : str;
  LAND : value;
  ADRESS_TYP : str;
  REFERENZ : Z;
  LAND_UNMAPPED_ORIGINAL : option str
}.

(** A raw row: [Object.entries(row)], in enumeration order. *)
Abbreviation RawRow := (list (str * cell)).

Record Country : Type := {
  englishShortName : str;
  alpha2Code : str;
  alpha3Code : str;
  numeric : Z;
  germanShortName : str
}.

Definition DEFAULT_COLUMN_MAPPING : list (str * str) :=
  [ (js "Anrede", js "salutation");
    (js "Vorname", js "first_name");
    (js "Name", js "last_name");
    (js "Adresse1", js "street");
    (js "Adresse2", js "address_addition");
    (js "PLZ", js "postal_code");
    (js "Ort", js "city");
    (js "Land", js "country") ].

Record CountryResult : Type := {
  code : value;
  unmappedOriginal : option str
}.

Inductive AddressType : Type := POBOX | HOUSE | MAJORRECIPIENT.

Definition addressTypeName (t : AddressType) : str :=
  match t with
  | POBOX => js "POBOX"
  | HOUSE => js "HOUSE"
  | MAJORRECIPIENT => js "MAJORRECIPIENT"
  end.

Definition createFullName (firstName lastName : value) : str :=
  let first := if truthy firstName then trim (String_ firstName) else [] in
  let last := if truthy lastName then trim (String_ lastName) else [] in
  trim (first ++ [SPACE] ++ last).

Definition mapAddressType (addressAddition : value) : AddressType :=
  if truthy addressAddition then
    let additionStr := String_ addressAddition in
    if includes additionStr (js "Postfach") then POBOX
    else if includes additionStr (js "Großempfänger")
            || includes additionStr (js "Grossempfänger")
    then MAJORRECIPIENT
    else HOUSE
  else HOUSE.

(** [/^\d+[A-Za-z\-\/]?$/] on a piece without whitespace. *)
Definition numberToken (t : str) : bool :=
  nonEmpty (takeWhile isDigit t) &&
  match dropWhile isDigit t with
  | [] => true
  | [c] => isNumberSuffix c
  | _ => false
  end.

(** [s.match(/^(.*\S)\s+(\d+[A-Za-z\-\/]?)$/)]: the two captured groups.
    The second group holds no whitespace and the first ends in [\S], so
    the match, read from the end of [s], is the last piece, the
    whitespace run before it and what precedes the run; [.] excludes
    line terminators. *)
Definition trailingMatch (s : str) : option (str * str) :=
  let r := rev s in
  let token := rev (takeWhile notWhiteSpace r) in
  let r1 := dropWhile notWhiteSpace r in
  let r2 := dropWhile isWhiteSpace r1 in
  let prefix := rev r2 in
  if nonEmpty r1 && nonEmpty r2
     && forallb (fun c => negb (isLineTerminator c)) prefix
     && numberToken token
  then Some (prefix, token)
  else None.

Definition splitStreetNumber (street : value) : str * str :=
  if negb (truthy street) then ([], [])
  else
    let s := trim (String_ street) in
    if negb (nonEmpty s) then ([], [])
    else
      match trailingMatch s with
      | Some (g1, g2) => (g1, g2)
      | None =>
          let parts := splitWhitespace s in
          if (2 <=? length parts) && hasDigit (List.last parts [])
          then (join [SPACE] (removelast parts), List.last parts [])
          else
            let firstParts := splitWhitespace s in
            if (2 <=? length firstParts) && hasDigit (hd [] firstParts)
            then (join [SPACE] (tl firstParts), hd [] firstParts)
            else (s, [])
      end.

Definition cleanValue (v : value) : str :=
  if negb (truthy v) then []
  else replaceWhitespaceRuns (trim (String_ v)).

(** [o[k]] on a plain object holding strings: the own property, else
    the member inherited from [Object.prototype], else [undefined]. *)
Definition readPlain (o : gmap str str) (k : str) : value :=
  match o !! k with
  | Some s => VString s
  | None =>
      if bool_decide (k ∈ OBJECT_PROTOTYPE_KEYS) then VMember k else VUndefined
  end.

(** [o[k] = s] on a plain object, [s] a string: the key [__proto__]
    reaches the inherited setter, which ignores a string; any other key
    becomes an own property. *)
Definition writePlain (o : gmap str str) (k : str) (s : str) : gmap str str :=
  if bool_decide (k = js "__proto__") then o else <[k := s]> o.

(** [mapped[k] = v] on the object that collects the cells of a row,
    kept with the flag telling that its prototype is [null]. While the
    prototype is [Object.prototype] the key [__proto__] reaches the
    inherited setter: [null] removes the prototype, any other primitive
    is ignored, and no own property is created. *)
Definition assignCell (target : gmap str cell * bool) (k : str) (v : cell)
  : gmap str cell * bool :=
  let '(mapped, nullPrototype) := target in
  if bool_decide (k = js "__proto__") && negb nullPrototype
  then (mapped, match v with CNull => true | _ => false end)
  else (<[k := v]> mapped, nullPrototype).

Section Mapper.

(** [String.prototype.toLowerCase] *)
Variable toLowerCase : str -> str.

(** [assets/countries.json] *)
Variable countriesData : list Country.

Definition buildCountryMapping : gmap str str :=
  foldl
    (fun (mapping : gmap str str) country =>
       let mapping :=
         writePlain mapping (toLowerCase (englishShortName country))
           (alpha3Code country) in
       let mapping :=
         if nonEmpty (germanShortName country)
         then writePlain mapping (toLowerCase (germanShortName country))
                (alpha3Code country)
         else mapping in
       let mapping :=
         writePlain mapping (toLowerCase (alpha2Code country))
           (alpha3Code country) in
       writePlain mapping (toLowerCase (alpha3Code country)) (alpha3Code country))
    ∅ countriesData.

Definition countryMapping : gmap str str := buildCountryMapping.

Definition normalizeMapping (mapping : list (str * str)) : gmap str str :=
  foldl
    (fun (normalizedMapping : gmap str str) '(source, target) =>
       writePlain normalizedMapping (toLowerCase source) target)
    ∅ mapping.

(** The loop of [mapColumns] over the entries of the row. *)
Definition collectColumns (normalizedMapping : gmap str str) (row : RawRow)
  : gmap str cell * bool :=
  foldl
    (fun (mapped : gmap str cell * bool) '(key, value) =>
       let lowerKey := toLowerCase key in
       if truthy (readPlain normalizedMapping lowerKey)
       then assignCell mapped (String_ (readPlain normalizedMapping lowerKey)) value
       else assignCell mapped lowerKey value)
    (∅, false) row.

(** The own properties of the object returned by [mapColumns]. *)
Definition mapColumns (row : RawRow) (customMapping : option (list (str * str)))
  : gmap str cell :=
  let mapping := default DEFAULT_COLUMN_MAPPING customMapping in
  let normalizedMapping := normalizeMapping mapping in
  (collectColumns normalizedMapping row).1.

Definition mapCountry (country : value) : CountryResult :=
  if negb (truthy country)
  then {| code := VString (js "DEU"); unmappedOriginal := None |}
  else
    let countryStr := trim (String_ country) in
    if negb (nonEmpty countryStr)
    then {| code := VString (js "DEU"); unmappedOriginal := None |}
    else
      let mapped := readPlain countryMapping (toLowerCase countryStr) in
      if truthy mapped
      then {| code := mapped; unmappedOriginal := None |}
      else {| code := VString (js "DEU"); unmappedOriginal := Some countryStr |}.

(** [mapped[key]] for the keys read by [mapRow], none of which names a
    member inherited from [Object.prototype]. *)
Definition getProp (mapped : gmap str cell) (key : str) : value :=
  match mapped !! key with
  | Some c => cellValue c
  | None => VUndefined
  end.

Definition mapRow (row : RawRow) (index : nat)
    (mapping : option (list (str * str))) : MappedAddress :=
  let mapped := mapColumns row mapping in
  let firstName := orElse (getProp mapped (js "first_name")) (VString []) in
  let lastName := orElse (getProp mapped (js "last_name")) (VString []) in
  let fullName := createFullName firstName lastName in
  let street := getProp mapped (js "street") in
  let '(strasse, nummer) := splitStreetNumber street in
  let addressAddition :=
    orElse (getProp mapped (js "address_addition")) (VString []) in
  let addressType := mapAddressType addressAddition in
  let countryResult := mapCountry (getProp mapped (js "country")) in
  let postalCode := getProp mapped (js "postal_code") in
  {| NAME := cleanValue (VString fullName);
     ZUSATZ := cleanValue addressAddition;
     STRASSE := cleanValue (VString strasse);
     NUMMER := cleanValue (VString nummer);
     PLZ := cleanValue postalCode;
     STADT := cleanValue (orElse (getProp mapped (js "city")) (VString []));
     LAND := code countryResult;
     ADRESS_TYP := addressTypeName addressType;
     REFERENZ := Z.of_nat index + 1;
     LAND_UNMAPPED_ORIGINAL :=
       match unmappedOriginal countryResult with
       | Some original => if nonEmpty original then Some original else None
       | None => None
       end |}.

Definition mapData (rows : list RawRow) (mapping : option (list (str * str)))
  : list MappedAddress :=
  imap (fun index row => mapRow row index mapping) rows.

End Mapper.

(** ** Validation ([validateMaxLengths]) *)

(** Entries of an object or of a [Map], in insertion order. *)
Fixpoint entryGet {K V} `{EqDecision K} (entries : list (K * V)) (k : K)
  : option V :=
  match entries with
  | [] => None
  | (k', v) :: rest => if decide (k' = k) then Some v else entryGet rest k
  end.

(** Assignment to a key: an existing entry keeps its place, a new one is
    appended. *)
Fixpoint entrySet {K V} `{EqDecision K} (entries : list (K * V)) (k : K) (v : V)
  : list (K * V) :=
  match entries with
  | [] => [(k, v)]
  | (k', v') :: rest =>
      if decide (k' = k) then (k, v) :: rest else (k', v') :: entrySet rest k v
  end.

Definition limits : list (str * nat) :=
  [ (js "NAME", 50); (js "ZUSATZ", 50); (js "STRASSE", 40); (js "NUMMER", 7);
    (js "PLZ", 9); (js "STADT", 40); (js "LAND", 3); (js "ADRESS_TYP", 99);
    (js "REFERENZ", 20) ].

(** [row[col]] *)
Definition getField (row : MappedAddress) (col : str) : value :=
  if decide (col = js "NAME") then VString (NAME row)
  else if decide (col = js "ZUSATZ") then VString (ZUSATZ row)
  else if decide (col = js "STRASSE") then VString (STRASSE row)
  else if decide (col = js "NUMMER") then VString (NUMMER row)
  else if decide (col = js "PLZ") then VString (PLZ row)
  else if decide (col = js "STADT") then VString (STADT row)
  else if decide (col = js "LAND") then LAND row
  else if decide (col = js "ADRESS_TYP") then VString (ADRESS_TYP row)
  else if decide (col = js "REFERENZ") then VNumber (REFERENZ row)
  else if decide (col = js "LAND_UNMAPPED_ORIGINAL") then
    match LAND_UNMAPPED_ORIGINAL row with
    | Some original => VString original
    | None => VUndefined
    end
  else VUndefined.

Definition QUOTE : N := 0x22%N.

Definition unmappedWarning (original land : str) : str :=
  js "LAND could not be mapped from " ++ [QUOTE] ++ original ++ [QUOTE]
  ++ js ", defaulted to " ++ land.

Definition lengthWarning (col : str) (value maxLen : nat) : str :=
  col ++ js " exceeds max length (" ++ stringOfNat value ++ js " > "
  ++ stringOfNat maxLen ++ js ")".

Definition fullAddressWarning (fullLength : nat) : str :=
  js "Full address exceeds max length (" ++ stringOfNat fullLength
  ++ js " > 72)".

Definition fullAddressFields : list str :=
  [ js "NAME"; js "ZUSATZ"; js "STRASSE"; js "NUMMER"; js "PLZ"; js "STADT" ].

Definition fullAddress (row : MappedAddress) : str :=
  join [SPACE]
    (List.filter nonEmpty
       (map (fun key => trim (String_ (getField row key))) fullAddressFields)).

Definition checkLength (row : MappedAddress) (warnings : list str) (col : str)
  : list str :=
  if decide (col = js "LAND_UNMAPPED_ORIGINAL") then warnings
  else
    let maxLen := default 0 (entryGet limits col) in
    let value := length (String_ (getField row col)) in
    if negb (maxLen =? 0) && (maxLen <? value)
    then warnings ++ [lengthWarning col value maxLen]
    else warnings.

Definition validateMaxLengths (row : MappedAddress) : list str :=
  let warnings := [] in
  let warnings :=
    match LAND_UNMAPPED_ORIGINAL row with
    | Some original =>
        if nonEmpty original
        then warnings ++ [unmappedWarning original (String_ (LAND row))]
        else warnings
    | None => warnings
    end in
  let warnings := foldl (checkLength row) warnings (map fst limits) in
  let fullLength := length (fullAddress row) in
  if 72 <? fullLength
  then warnings ++ [fullAddressWarning fullLength]
  else warnings.

(** ** The application state and its handlers ([App.tsx]) *)

Record TargetField : Type := {
  key : str;
  label : str;
  required : bool
}.

Definition TARGET_FIELDS : list TargetField :=
  [ {| key := js "salutation"; label := js "Anrede"; required := false |};
    {| key := js "first_name"; label := js "Vorname"; required := true |};
    {| key := js "last_name"; label := js "Nachname"; required := true |};
    {| key := js "street"; label := js "Straße"; required := true |};
    {| key := js "address_addition"; label := js "Adresszusatz"; required := false |};
    {| key := js "postal_code"; label := js "PLZ"; required := true |};
    {| key := js "city"; label := js "Ort"; required := true |};
    {| key := js "country"; label := js "Land"; required := true |} ].

(** [Partial<Record<TargetField["key"], string | undefined>>]: the
    entries of the selection object; a field may be absent or bound to
    [undefined]. *)
Abbreviation Selections := (list (str * option str)).

(** [selections[key]], as a truthiness test. *)
Definition selected (selections : Selections) (k : str) : bool :=
  match entryGet selections k with
  | Some (Some source) => nonEmpty source
  | _ => false
  end.

Definition UNIQUE_WARNING : str := js "REFERENZ must be unique".

Record AppState : Type := {
  mappedData : list MappedAddress;
  warnings : gmap nat (list str);
  error : str
}.

Definition indexed {A} (l : list A) : list (nat * A) := imap pair l.

(** First loop of [buildWarnings]: the per-row warnings and the indices
    grouped by [REFERENZ]. *)
Definition collectRow (acc : gmap nat (list str) * list (Z * list nat))
    (entry : nat * MappedAddress) : gmap nat (list str) * list (Z * list nat) :=
  let '(warningsMap, refIndexMap) := acc in
  let '(index, row) := entry in
  let rowWarnings := validateMaxLengths row in
  let warningsMap :=
    if 0 <? length rowWarnings
    then <[index := rowWarnings]> warningsMap
    else warningsMap in
  let indices := default [] (entryGet refIndexMap (REFERENZ row)) in
  let indices := indices ++ [index] in
  (warningsMap, entrySet refIndexMap (REFERENZ row) indices).

(** Second loop: every index of a group of two or more gets the
    uniqueness warning appended. *)
Definition flagGroup (warningsMap : gmap nat (list str))
    (group : Z * list nat) : gmap nat (list str) :=
  let indices := group.2 in
  if 1 <? length indices
  then foldl
         (fun (warningsMap : gmap nat (list str)) idx =>
            <[idx := default [] (warningsMap !! idx) ++ [UNIQUE_WARNING]]> warningsMap)
         warningsMap indices
  else warningsMap.

Definition buildWarnings (rows : list MappedAddress) : gmap nat (list str) :=
  let '(warningsMap, refIndexMap) := foldl collectRow (∅, []) (indexed rows) in
  foldl flagGroup warningsMap refIndexMap.

Definition setREFERENZ (row : MappedAddress) (r : Z) : MappedAddress :=
  {| NAME := NAME row; ZUSATZ := ZUSATZ row; STRASSE := STRASSE row;
     NUMMER := NUMMER row; PLZ := PLZ row; STADT := STADT row;
     LAND := LAND row; ADRESS_TYP := ADRESS_TYP row; REFERENZ := r;
     LAND_UNMAPPED_ORIGINAL := LAND_UNMAPPED_ORIGINAL row |}.

Definition handleDeleteRow (rowIndex : nat) (st : AppState) : AppState :=
  let prev := mappedData st in
  match prev !! rowIndex with
  | None => st
  | Some _ =>
      let filtered :=
        (List.filter (fun '(idx, _) => negb (idx =? rowIndex)) (indexed prev)).*2 in
      let reindexed :=
        imap (fun idx row => setREFERENZ row (Z.of_nat idx + 1)) filtered in
      {| mappedData := reindexed;
         warnings := buildWarnings reindexed;
         error := error st |}
  end.

(** The array index written by a property key, if any: a decimal
    numeral without a leading zero, below 2^32 - 1. *)
Definition arrayIndex (k : str) : option N :=
  match k with
  | [] => None
  | c :: r =>
      if forallb isDigit k && (negb (c =? 0x30)%N || negb (nonEmpty r)) then
        let n := foldl (fun acc d => (acc * 10 + (d - 0x30))%N) 0%N k in
        if (n <? 4294967295)%N then Some n else None
      else None
  end.

Fixpoint insertByIndex {A} (n : N) (a : A) (l : list (N * A)) : list (N * A) :=
  match l with
  | [] => [(n, a)]
  | (m, b) :: r =>
      if (n <? m)%N then (n, a) :: l else (m, b) :: insertByIndex n a r
  end.

(** The entries whose key is an array index, in ascending order. *)
Definition indexEntries {V} (entries : list (str * V)) : list (N * (str * V)) :=
  foldr
    (fun e sorted =>
       match arrayIndex e.1 with
       | Some n => insertByIndex n e sorted
       | None => sorted
       end)
    [] entries.

Definition isArrayIndex (k : str) : bool :=
  match arrayIndex k with Some _ => true | None => false end.

(** The entries whose key is not an array index. *)
Definition namedEntries {V} (entries : list (str * V)) : list (str * V) :=
  List.filter (fun e => negb (isArrayIndex e.1)) entries.

(** [Object.entries(o)] for a plain object whose properties were
    created in the order of [entries]: the array-index keys first, in
    ascending order, then the other keys in creation order. *)
Definition objectEntries {V} (entries : list (str * V)) : list (str * V) :=
  (indexEntries entries).*2 ++ namedEntries entries.

(** The properties created by the loop of [buildMapping], in creation
    order; the assignment to a source named [__proto__] reaches the
    inherited setter and creates none. *)
Definition assignSources (selections : Selections) : list (str * str) :=
  foldl
    (fun mapping '(target, source) =>
       match source with
       | Some source =>
           if nonEmpty source
           then if bool_decide (source = js "__proto__") then mapping
                else entrySet mapping source target
           else mapping
       | None => mapping
       end)
    [] selections.

(** The object returned by [buildMapping], as [Object.entries] lists it. *)
Definition buildMapping (selections : Selections) : list (str * str) :=
  objectEntries (assignSources selections).

Section App.

Variable toLowerCase : str -> str.
Variable countriesData : list Country.

Definition recalcMapping (data : list RawRow) (selections : Selections)
    (st : AppState) : AppState :=
  if length data =? 0 then
    {| mappedData := []; warnings := ∅; error := error st |}
  else
    let missingRequired :=
      List.filter (fun f => required f && negb (selected selections (key f)))
        TARGET_FIELDS in
    if 0 <? length missingRequired then
      {| mappedData := [];
         warnings := ∅;
         error := js "Please map required fields: "
                  ++ join (js ", ") (map label missingRequired) |}
    else
      let mapping := buildMapping selections in
      let mapped := mapData toLowerCase countriesData data (Some mapping) in
      {| mappedData := mapped;
         warnings := buildWarnings mapped;
         error := [] |}.

End App.

(** ** Windows-1252 export ([MappedTable.tsx]) *)

Definition CP1252_CODEPOINT_TO_BYTE : list (N * N) :=
  [ (0x20ac, 0x80); (0x201a, 0x82); (0x0192, 0x83); (0x201e, 0x84);
    (0x2026, 0x85); (0x2020, 0x86); (0x2021, 0x87); (0x02c6, 0x88);
    (0x2030, 0x89); (0x0160, 0x8a); (0x2039, 0x8b); (0x0152, 0x8c);
    (0x017d, 0x8e); (0x2018, 0x91); (0x2019, 0x92); (0x201c, 0x93);
    (0x201d, 0x94); (0x2022, 0x95); (0x2013, 0x96); (0x2014, 0x97);
    (0x02dc, 0x98); (0x2122, 0x99); (0x0161, 0x9a); (0x203a, 0x9b);
    (0x0153, 0x9c); (0x017e, 0x9e); (0x0178, 0x9f) ]%N.

Definition isHighSurrogate (c : N) : bool := ((0xD800 <=? c) && (c <=? 0xDBFF))%N.
Definition isLowSurrogate (c : N) : bool := ((0xDC00 <=? c) && (c <=? 0xDFFF))%N.

(** The string iterator ([for (const char of input)]) followed by
    [char.codePointAt(0)]: a surrogate pair is one code point, any other
    code unit stands for itself. *)
Fixpoint codePoints (s : str) : list N :=
  match s with
  | [] => []
  | c :: r =>
      if isHighSurrogate c then
        match r with
        | d :: r' =>
            if isLowSurrogate d
            then ((c - 0xD800) * 0x400 + (d - 0xDC00) + 0x10000)%N :: codePoints r'
            else c :: codePoints r
        | [] => [c]
        end
      else c :: codePoints r
  end.

Definition encodeCodePoint (code : N) : N :=
  if (code <=? 0x7f)%N then code
  else if ((0xa0 <=? code) && (code <=? 0xff))%N then code
  else
    match entryGet CP1252_CODEPOINT_TO_BYTE code with
    | Some mapped => mapped
    | None => 0x3f%N
    end.

Definition toCP1252Bytes (input : str) : list N :=
  map encodeCodePoint (codePoints input).

(** The Windows-1252 codepage, read from byte to character: the rows
    0x80-0x9F of the published table; 0x81, 0x8D, 0x8F, 0x90 and 0x9D
    are unassigned. The decoder is the consumer's, not the repository's. *)
Definition CP1252_HIGH_ROWS : list (option N) :=
  [ Some 0x20AC; None;        Some 0x201A; Some 0x0192;
    Some 0x201E; Some 0x2026; Some 0x2020; Some 0x2021;
    Some 0x02C6; Some 0x2030; Some 0x0160; Some 0x2039;
    Some 0x0152; None;        Some 0x017D; None;
    None;        Some 0x2018; Some 0x2019; Some 0x201C;
    Some 0x201D; Some 0x2022; Some 0x2013; Some 0x2014;
    Some 0x02DC; Some 0x2122; Some 0x0161; Some 0x203A;
    Some 0x0153; None;        Some 0x017E; Some 0x0178 ]%N.

Definition decodeByte (b : N) : option N :=
  if (b <? 0x80)%N then Some b
  else if (b <? 0xA0)%N then
    default None (CP1252_HIGH_ROWS !! N.to_nat (b - 0x80))
  else if (b <=? 0xFF)%N then Some b
  else None.

(** Decoding fails on an unassigned byte. *)
Fixpoint decodeCP1252 (bytes : list N) : option str :=
  match bytes with
  | [] => Some []
  | b :: rest =>
      match decodeByte b, decodeCP1252 rest with
      | Some c, Some s => Some (c :: s)
      | _, _ => None
      end
  end.

(** A character of the codepage: some byte decodes to it. *)
Definition representable (c : N) : Prop := exists b, decodeByte b = Some c.

(** ** Instances used to run the definitions *)

(** Lower-casing of the letters A-Z, other code units unchanged: what
    [toLowerCase] does on strings of the Basic Latin block. *)
Definition asciiLower (s : str) : str :=
  map (fun c => if ((0x41 <=? c) && (c <=? 0x5A))%N then (c + 32)%N else c) s.

Definition isBasicLatin (s : str) : Prop := Forall (fun c => (c < 0x80)%N) s.

Definition germany : Country :=
  {| englishShortName := js "Germany"; alpha2Code := js "DE";
     alpha3Code := js "DEU"; numeric := 276;
     germanShortName := js "Deutschland" |}.

Definition switzerland : Country :=
  {| englishShortName := js "Switzerland"; alpha2Code := js "CH";
     alpha3Code := js "CHE"; numeric := 756;
     germanShortName := js "Schweiz" |}.

Definition france : Country :=
  {| englishShortName := js "France"; alpha2Code := js "FR";
     alpha3Code := js "FRA"; numeric := 250;
     germanShortName := js "Frankreich" |}.

Definition sampleCountries : list Country := [germany; switzerland; france].

(** ** Notions used to state the properties *)

Definition exampleRow : RawRow :=
  [ (js "Vorname", CString (js "Max"));
    (js "Name", CString (js "Mustermann"));
    (js "Adresse1", CString (js "Blumenstraße 5"));
    (js "PLZ", CString (js "10115"));
    (js "Ort", CString (js "Berlin"));
    (js "Land", CString (js "Deutschland")) ].

Definition exampleRecord : MappedAddress :=
  {| NAME := js "Max Mustermann"; ZUSATZ := []; STRASSE := js "Blumenstraße";
     NUMMER := js "5"; PLZ := js "10115"; STADT := js "Berlin";
     LAND := VString (js "DEU"); ADRESS_TYP := js "HOUSE"; REFERENZ := 1;
     LAND_UNMAPPED_ORIGINAL := None |}.

Definition stopsAt (f : N -> bool) (s : str) : Prop :=
  match s with
  | [] => True
  | c :: _ => f c = false
  end.

(** The language of [\d+[A-Za-z\-\/]?]. *)
Definition NumberToken (t : str) : Prop :=
  exists digits suffix,
    t = digits ++ suffix /\ digits <> []
    /\ Forall (fun c => isDigit c = true) digits
    /\ (suffix = [] \/ exists c, suffix = [c] /\ isNumberSuffix c = true).

(** [s] matches [^(.*\S)\s+(\d+[A-Za-z\-\/]?)$] with groups [p] and [t]. *)
Definition TrailingNumber (s p t : str) : Prop :=
  exists w,
    s = p ++ w ++ t
    /\ (exists p' c, p = p' ++ [c] /\ isWhiteSpace c = false)
    /\ Forall (fun c => isLineTerminator c = false) p
    /\ w <> [] /\ Forall (fun c => isWhiteSpace c = true) w
    /\ NumberToken t.

(** Rule (b) as the specification words it: whenever rule (a) does not
    apply and the last whitespace-separated token contains a digit, the
    number returned is that token. *)
Definition lastTokenRule_as_stated : Prop :=
  forall street : str,
    let s := trim street in
    s <> [] ->
    (forall p t, ~ TrailingNumber s p t) ->
    hasDigit (List.last (splitWhitespace s) []) = true ->
    snd (splitStreetNumber (VString street)) = List.last (splitWhitespace s) [].

(** What one field contributes to the warning list. *)
Definition fieldWarnings (row : MappedAddress) (col : str) : list str :=
  let maxLen := default 0 (entryGet limits col) in
  let value := length (String_ (getField row col)) in
  if negb (maxLen =? 0) && (maxLen <? value)
  then [lengthWarning col value maxLen]
  else [].

Definition unmappedWarnings (row : MappedAddress) : list str :=
  match LAND_UNMAPPED_ORIGINAL row with
  | Some original =>
      if nonEmpty original
      then [unmappedWarning original (String_ (LAND row))]
      else []
  | None => []
  end.

Definition fullAddressWarnings (row : MappedAddress) : list str :=
  if 72 <? length (fullAddress row)
  then [fullAddressWarning (length (fullAddress row))]
  else [].

(** The first ten code units tell the warnings apart. *)
Definition tag (w : str) : str := take 10 w.

(** The keys registered for a country entry by [buildCountryMapping],
    before lower-casing. *)
Definition registeredKeys (c : Country) : list str :=
  [englishShortName c]
  ++ (if nonEmpty (germanShortName c) then [germanShortName c] else [])
  ++ [alpha2Code c; alpha3Code c].

Definition insertEntry {V} (m : gmap str V) (e : str * V) : gmap str V :=
  <[e.1 := e.2]> m.

(** The assignments of a sequence that create or update an own
    property: all but those to the key [__proto__]. *)
Definition ownEntries {V} (l : list (str * V)) : list (str * V) :=
  List.filter (fun e => negb (bool_decide (e.1 = js "__proto__"))) l.

(** The values that [if (v)] rejects. *)
Definition falsyValues : list value :=
  [ VUndefined; VNull; VBool false; VNumber 0; VString [] ].

(** C4 as the specification words it: an input that is present, not
    blank and equal to no registered key is recorded as the unmapped
    original. *)
Definition unregistered_recorded_as_stated : Prop :=
  forall (toLowerCase : str -> str) (countriesData : list Country)
         (country : value),
    let input := trim (String_ country) in
    country <> VUndefined -> country <> VNull -> input <> [] ->
    (forall c key,
       c ∈ countriesData -> key ∈ registeredKeys c ->
       toLowerCase input <> toLowerCase key) ->
    mapCountry toLowerCase countriesData country
    = {| code := VString (js "DEU"); unmappedOriginal := Some input |}.

(** All the bindings written by [buildCountryMapping], in order. *)
Definition registrations (toLowerCase : str -> str)
    (countriesData : list Country) : list (str * str) :=
  flat_map
    (fun c => map (fun k => (toLowerCase k, alpha3Code c)) (registeredKeys c))
    countriesData.

(** The value bound last to [k] in a sequence of assignments. *)
Fixpoint lastBound {V} (l : list (str * V)) (k : str) : option V :=
  match l with
  | [] => None
  | (k', v) :: r =>
      match lastBound r k with
      | Some x => Some x
      | None => if decide (k' = k) then Some v else None
      end
  end.

(** The alias table with its source keys lower-cased. *)
Definition loweredAliases (toLowerCase : str -> str) (table : list (str * str))
  : list (str * str) :=
  map (fun e => (toLowerCase e.1, e.2)) table.

(** The key under which the value of row key [key] is stored: the
    target of the last alias equal to [key] up to case when that target
    is not empty, the lower-cased row key otherwise. *)
Definition outputKey (toLowerCase : str -> str) (table : list (str * str))
    (key : str) : str :=
  match lastBound (loweredAliases toLowerCase table) (toLowerCase key) with
  | Some target => if nonEmpty target then target else toLowerCase key
  | None => toLowerCase key
  end.

(** The row, each entry under its output key. *)
Definition remappedEntries (toLowerCase : str -> str) (table : list (str * str))
    (row : RawRow) : list (str * cell) :=
  map (fun e => (outputKey toLowerCase table e.1, e.2)) row.

(** C5 as the specification words it: every value of the row is found
    in the result under its output key. *)
Definition no_value_dropped_as_stated : Prop :=
  forall (toLowerCase : str -> str) (row : RawRow) custom,
    NoDup row.*1 ->
    forall key v,
      (key, v) ∈ row ->
      mapColumns toLowerCase row custom
        !! outputKey toLowerCase (default DEFAULT_COLUMN_MAPPING custom) key
      = Some v.




(** A record whose country code is one character too long. *)
Definition longLandRecord : MappedAddress :=
  {| NAME := js "Max Mustermann"; ZUSATZ := []; STRASSE := js "Blumenstraße";
     NUMMER := js "5"; PLZ := js "10115"; STADT := js "Berlin";
     LAND := VString (js "GERM"); ADRESS_TYP := js "HOUSE"; REFERENZ := 1;
     LAND_UNMAPPED_ORIGINAL := None |}.

(** The state of the first loop of [buildWarnings] after all rows. *)
Definition collected (rows : list MappedAddress)
  : gmap nat (list str) * list (Z * list nat) :=
  foldl collectRow (∅, []) (indexed rows).

(** What the first loop stores for a row. *)
Definition rowEntry (row : MappedAddress) : option (list str) :=
  if 0 <? length (validateMaxLengths row)
  then Some (validateMaxLengths row)
  else None.

(** One step of the inner loop of the second pass. *)
Definition flagIndex (warningsMap : gmap nat (list str)) (idx : nat)
  : gmap nat (list str) :=
  <[idx := default [] (warningsMap !! idx) ++ [UNIQUE_WARNING]]> warningsMap.

(** All the values of a map are non-empty lists. *)
Definition allNonEmpty (m : gmap nat (list str)) : Prop :=
  forall k ws, m !! k = Some ws -> ws <> [].

(** No other row carries the REFERENZ of row [i]. *)
Definition uniqueReference (rows : list MappedAddress) (i : nat) : Prop :=
  forall j r r',
    rows !! i = Some r -> rows !! j = Some r' -> REFERENZ r' = REFERENZ r -> j = i.

(** The REFERENZ values are 1, 2, ..., in order. *)
Definition contiguous (rows : list MappedAddress) : Prop :=
  forall j r, rows !! j = Some r -> REFERENZ r = (Z.of_nat j + 1)%Z.

(** The required target fields without a selected source column. *)
Definition missingRequired (selections : Selections) : list TargetField :=
  List.filter (fun f => required f && negb (selected selections (key f)))
    TARGET_FIELDS.

(** The 256 byte values. *)
Definition allBytes : list N := map N.of_nat (seq 0 256).

(** The characters named by the round-trip property: the letters with
    umlaut, the sharp s, the euro sign and the double quote. *)
Definition umlautChars : list N := js "äöüß€" ++ [QUOTE].

(** One string over these characters. *)
Definition umlautSample : str := js "€ü" ++ [QUOTE] ++ js "ßäö" ++ [QUOTE].

(** Every whitespace code unit is a space that is not followed by
    another whitespace code unit. *)
Fixpoint singleSpaced (s : str) : bool :=
  match s with
  | [] => true
  | c :: r =>
      (if isWhiteSpace c
       then (c =? SPACE)%N
            && match r with [] => true | d :: _ => negb (isWhiteSpace d) end
       else true)
      && singleSpaced r
  end.

(** Whitespace-normalized: trimmed at both ends, inner whitespace runs
    reduced to one space. *)
Definition Normalized (s : str) : Prop :=
  trim s = s /\ singleSpaced s = true.

(** The string fields of a record that [mapRow] always sets, LAND as
    [String] prints it. *)
Definition stringFields (r : MappedAddress) : list str :=
  [ NAME r; ZUSATZ r; STRASSE r; NUMMER r; PLZ r; STADT r; String_ (LAND r);
    ADRESS_TYP r ].

(** C9 as the specification words it: every string field of a mapped
    record, the unmapped original included, is whitespace-normalized. *)
Definition all_fields_normalized_as_stated : Prop :=
  forall (toLowerCase : str -> str) (countriesData : list Country)
         (row : RawRow) (index : nat) (mapping : option (list (str * str))),
    (forall c, c ∈ countriesData -> Normalized (alpha3Code c)) ->
    let r := mapRow toLowerCase countriesData row index mapping in
    Forall Normalized (stringFields r)
    /\ forall original, LAND_UNMAPPED_ORIGINAL r = Some original ->
                        Normalized original.

(** ** Further handlers and helpers *)

(** Row [i] shares its REFERENZ with another row. *)
Definition sharedReference (rows : list MappedAddress) (i : nat) : Prop :=
  exists j r r',
    j <> i /\ rows !! i = Some r /\ rows !! j = Some r'
    /\ REFERENZ r' = REFERENZ r.

Definition handleEditRow (rowIndex : nat) (updatedRow : MappedAddress)
    (st : AppState) : AppState :=
  let prev := mappedData st in
  match prev !! rowIndex with
  | None => st
  | Some _ =>
      let nextData := <[rowIndex := updatedRow]> prev in
      {| mappedData := nextData;
         warnings := buildWarnings nextData;
         error := error st |}
  end.

(** The list of row [i] in the map holds the uniqueness warning. *)
Definition flaggedDuplicate (m : gmap nat (list str)) (i : nat) : Prop :=
  exists ws, m !! i = Some ws /\ UNIQUE_WARNING ∈ ws.

(** [s] contains [sub] as a substring. *)
Definition Contains (s sub : str) : Prop := exists a b, s = a ++ sub ++ b.

(** The row has no unmapped-country mark that counts as one. *)
Definition noUnmappedMark (row : MappedAddress) : Prop :=
  LAND_UNMAPPED_ORIGINAL row = None \/ LAND_UNMAPPED_ORIGINAL row = Some [].

(** A cell that [truthy] rejects or whose text is blank. *)
Definition blankCell (v : value) : Prop :=
  truthy v = false \/ trim (String_ v) = [].

(** ** CSV export ([MappedTable.tsx]) *)

Definition HEADERS : list str :=
  [ js "NAME"; js "ZUSATZ"; js "STRASSE"; js "NUMMER"; js "PLZ"; js "STADT";
    js "LAND"; js "ADRESS_TYP"; js "REFERENZ" ].

Definition SEMICOLON : N := 0x3B%N.
Definition NEWLINE : N := 0x0A%N.

(** The global [replace] of [escapeCSVValue]: every double quote is
    written twice. *)
Definition doubleQuotes (value : str) : str :=
  flat_map (fun c => if (c =? QUOTE)%N then [QUOTE; QUOTE] else [c]) value.

Definition escapeCSVValue (value : str) : str :=
  let escaped := doubleQuotes value in
  if includes escaped [SEMICOLON] || includes escaped [NEWLINE]
     || includes escaped [QUOTE]
  then [QUOTE] ++ escaped ++ [QUOTE]
  else escaped.

Definition csvLine (row : MappedAddress) : str :=
  join [SEMICOLON]
    (map (fun header => escapeCSVValue (String_ (getField row header))) HEADERS).

Definition buildCSVContent (rows : list MappedAddress)
    (senderRow : option MappedAddress) : str :=
  let rowsWithSender :=
    match senderRow with
    | Some sender => sender :: rows
    | None => rows
    end in
  join [NEWLINE] (join [SEMICOLON] HEADERS :: map csvLine rowsWithSender).

(** The bytes handed to the [Blob] by [createCSVBlob]. *)
Definition createCSVBlob (content : str) : list N := toCP1252Bytes content.

Inductive Scope : Type := ScopeAll | ScopeLocal | ScopeInternational.

Section CsvExport.

(** [String.prototype.toUpperCase] *)
Variable toUpperCase : str -> str.

Definition isGermanLand (land : str) : bool :=
  let value := toUpperCase (trim land) in
  bool_decide (value = js "DE") || bool_decide (value = js "DEU")
  || bool_decide (value = js "GERMANY").

(** The rows exported by [downloadCSV] for a scope. *)
Definition targetRows (scope : Scope) (data : list MappedAddress)
  : list MappedAddress :=
  match scope with
  | ScopeAll => data
  | ScopeLocal =>
      List.filter (fun row => isGermanLand (String_ (LAND row))) data
  | ScopeInternational =>
      List.filter (fun row => negb (isGermanLand (String_ (LAND row))))
        data
  end.

End CsvExport.

(** The code unit occurs nowhere in the string. *)
Definition without (c : N) (s : str) : Prop := c ∉ s.

(** The strings of a record are all in the Basic Latin block. *)
Definition basicLatinRecord (r : MappedAddress) : Prop :=
  Forall isBasicLatin (stringFields r).

(** Upper-casing of the letters a-z, other code units unchanged: what
    [toUpperCase] does on the letters and digits of Basic Latin. *)
Definition asciiUpper (s : str) : str :=
  map (fun c => if ((0x61 <=? c) && (c <=? 0x7A))%N then (c - 32)%N else c) s.

(** A record written in Basic Latin only. *)
Definition plainRecord : MappedAddress :=
  {| NAME := js "Erika Muster"; ZUSATZ := js "c/o Verlag; 2. OG";
     STRASSE := js "Hauptweg"; NUMMER := js "12a"; PLZ := js "10115";
     STADT := js "Berlin"; LAND := VString (js "DEU"); ADRESS_TYP := js "HOUSE";
     REFERENZ := 1; LAND_UNMAPPED_ORIGINAL := None |}.

(** ** Initial column selection ([initSelections]) *)

(** [l.indexOf(x)], [None] standing for -1. *)
Fixpoint indexOf (l : list str) (x : str) : option nat :=
  match l with
  | [] => None
  | y :: r => if decide (y = x) then Some 0 else S <$> indexOf r x
  end.

Section Selection.

Variable toLowerCase : str -> str.

(** The body of the loop over [TARGET_FIELDS]. *)
Definition selectField (incomingHeaders lowerHeaders : list str)
    (selections : Selections) (field : TargetField) : Selections :=
  let matchingSource :=
    List.find (fun '(_, targetKey) => bool_decide (targetKey = key field))
      DEFAULT_COLUMN_MAPPING in
  let viaDefault :=
    match matchingSource with
    | Some (sourceKey, _) => indexOf lowerHeaders (toLowerCase sourceKey)
    | None => None
    end in
  match viaDefault with
  | Some idx => entrySet selections (key field) (incomingHeaders !! idx)
  | None =>
      match indexOf lowerHeaders (toLowerCase (key field)) with
      | Some idxTarget =>
          entrySet selections (key field) (incomingHeaders !! idxTarget)
      | None => selections
      end
  end.

Definition initSelections (incomingHeaders : list str) : Selections :=
  let lowerHeaders := map toLowerCase incomingHeaders in
  foldl (selectField incomingHeaders lowerHeaders) [] TARGET_FIELDS.

End Selection.

(** The source columns that [buildMapping] takes from the selections. *)
Definition selectedSources (selections : Selections) : list str :=
  flat_map
    (fun e : str * option str =>
       match e.2 with
       | Some source => if nonEmpty source then [source] else []
       | None => []
       end)
    selections.

(** The default names of the columns of the required fields. *)
Definition requiredDefaultColumns : list str :=
  [ js "Vorname"; js "Name"; js "Adresse1"; js "PLZ"; js "Ort"; js "Land" ].

(** What [selectField] assigns to a field, if anything. *)
Definition fieldChoice (toLowerCase : str -> str) (incomingHeaders : list str)
    (field : TargetField) : option (option str) :=
  let lowerHeaders := map toLowerCase incomingHeaders in
  let viaDefault :=
    match List.find (fun '(_, targetKey) => bool_decide (targetKey = key field))
            DEFAULT_COLUMN_MAPPING with
    | Some (sourceKey, _) => indexOf lowerHeaders (toLowerCase sourceKey)
    | None => None
    end in
  match viaDefault with
  | Some idx => Some (incomingHeaders !! idx)
  | None =>
      match indexOf lowerHeaders (toLowerCase (key field)) with
      | Some idxTarget => Some (incomingHeaders !! idxTarget)
      | None => None
      end
  end.

(** * Properties *)

(** ** Running the string primitives *)

Example js_ascii : js "12a" = [0x31; 0x32; 0x61]%N.
Proof. reflexivity. Qed.

Example js_latin1 : js "Straße" = [0x53; 0x74; 0x72; 0x61; 0xDF; 0x65]%N.
Proof. reflexivity. Qed.

Example js_euro : js "€" = [0x20AC]%N.
Proof. reflexivity. Qed.

Example split_leading : splitWhitespace (js " a  b") = [[]; js "a"; js "b"].
Proof. reflexivity. Qed.

Example stringOfZ_neg : stringOfZ (-120) = js "-120".
Proof. reflexivity. Qed.

(** [trimEnd] removes the trailing whitespace: it is [trimStart] read
    from the other end. *)
Lemma trimStart_snoc a c :
  trimStart (a ++ [c])
  = match trimStart a with
    | [] => if isWhiteSpace c then [] else [c]
    | t => t ++ [c]
    end.
Proof.
  induction a as [|x a IH]; simpl.
  - destruct (isWhiteSpace c); reflexivity.
  - destruct (isWhiteSpace x); [exact IH | reflexivity].
Qed.

Lemma trimEnd_rev s : trimEnd s = rev (trimStart (rev s)).
Proof.
  induction s as [|c r IH]; simpl; [reflexivity|].
  rewrite trimStart_snoc, IH.
  destruct (trimStart (rev r)) as [|x t]; simpl.
  - destruct (isWhiteSpace c); reflexivity.
  - rewrite rev_app_distr. simpl.
    destruct (rev t ++ [x]) eqn:E; [|reflexivity].
    now apply app_eq_nil in E as [_ E].
Qed.

(** ** Generic facts on folds and entries *)

Lemma foldl_ext_in {A B} (f g : A -> B -> A) (l : list B) (a : A) :
  (forall a x, x ∈ l -> f a x = g a x) -> foldl f a l = foldl g a l.
Proof.
  revert a. induction l as [|x l IH]; intros a H; simpl; [reflexivity|].
  rewrite H by (left). apply IH. intros a' y Hy. apply H. now right.
Qed.

Lemma normalizeMapping_ext (f g : str -> str) (mapping : list (str * str)) :
  (forall source target, (source, target) ∈ mapping -> f source = g source) ->
  normalizeMapping f mapping = normalizeMapping g mapping.
Proof.
  intros H. unfold normalizeMapping. apply foldl_ext_in.
  intros a [source target] Hin. now rewrite (H _ _ Hin).
Qed.

Lemma mapColumns_ext (f g : str -> str) (row : RawRow) custom :
  (forall source target,
     (source, target) ∈ default DEFAULT_COLUMN_MAPPING custom -> f source = g source) ->
  (forall k v, (k, v) ∈ row -> f k = g k) ->
  mapColumns f row custom = mapColumns g row custom.
Proof.
  intros Hm Hr. unfold mapColumns, collectColumns.
  rewrite (normalizeMapping_ext f g) by exact Hm. f_equal.
  apply foldl_ext_in. intros a [k v] Hin. now rewrite (Hr _ _ Hin).
Qed.

(** ** C1: the end-to-end example *)

Lemma isBasicLatin_dec (s : str) :
  forallb (fun c => (c <? 0x80)%N) s = true -> isBasicLatin s.
Proof.
  intros H. apply Forall_forall. intros c Hc.
  rewrite forallb_forall in H. apply N.ltb_lt, H.
  now apply list_elem_of_In.
Qed.

Section EndToEnd.

Variable toLowerCase : str -> str.
Variable countriesData : list Country.

Hypothesis toLowerCase_basic_latin :
  forall s, isBasicLatin s -> toLowerCase s = asciiLower s.

Hypothesis deutschland_registered :
  countryMapping toLowerCase countriesData !! js "deutschland" = Some (js "DEU").

Lemma example_columns :
  mapColumns toLowerCase exampleRow None = mapColumns asciiLower exampleRow None.
Proof.
  apply mapColumns_ext; intros a b Hin; apply toLowerCase_basic_latin;
    apply isBasicLatin_dec;
    simpl in Hin; unfold exampleRow in Hin;
    repeat (apply elem_of_cons in Hin as [Hin|Hin];
            [inversion Hin; subst; reflexivity|]);
    inversion Hin.
Qed.

Lemma example_country :
  mapCountry toLowerCase countriesData (VString (js "Deutschland"))
  = {| code := VString (js "DEU"); unmappedOriginal := None |}.
Proof.
  unfold mapCountry, readPlain.
  change (trim (String_ (VString (js "Deutschland")))) with (js "Deutschland").
  rewrite toLowerCase_basic_latin by (apply isBasicLatin_dec; reflexivity).
  change (asciiLower (js "Deutschland")) with (js "deutschland").
  rewrite deutschland_registered. reflexivity.
Qed.

(** C1. The row of the end-to-end example, mapped with the default
    alias table at index 0, is exactly the expected record (with no
    unmapped-country field), and validating it gives no warning. *)
Theorem end_to_end_example :
  mapRow toLowerCase countriesData exampleRow 0 None = exampleRecord
  /\ validateMaxLengths exampleRecord = []
  /\ buildWarnings [exampleRecord] = ∅.
Proof.
  split; [|split; vm_compute; reflexivity].
  unfold mapRow. rewrite example_columns.
  change (getProp (mapColumns asciiLower exampleRow None) (js "country"))
    with (VString (js "Deutschland")).
  rewrite example_country.
  vm_compute. reflexivity.
Qed.

End EndToEnd.

Lemma end_to_end_example_witness :
  mapRow asciiLower sampleCountries exampleRow 0 None = exampleRecord
  /\ validateMaxLengths exampleRecord = []
  /\ buildWarnings [exampleRecord] = ∅.
Proof.
  apply (end_to_end_example asciiLower sampleCountries).
  - intros s _. reflexivity.
  - vm_compute. reflexivity.
Defined.

(** ** Character classes *)

Ltac class_bounds :=
  repeat match goal with
    | H : (_ && _)%bool = true |- _ => apply andb_true_iff in H as [? ?]
    | H : (_ || _)%bool = true |- _ => apply orb_true_iff in H as [?|?]
    | H : (_ <=? _)%N = true |- _ => apply N.leb_le in H
    | H : (_ =? _)%N = true |- _ => apply N.eqb_eq in H
    end.

Ltac class_false :=
  repeat apply orb_false_intro;
  try (apply N.eqb_neq; lia);
  try (apply andb_false_iff; first [ left; apply N.leb_gt; lia
                                   | right; apply N.leb_gt; lia ]).

Lemma isDigit_not_whitespace c : isDigit c = true -> isWhiteSpace c = false.
Proof. unfold isDigit, isWhiteSpace. intros H. class_bounds. class_false. Qed.

Lemma isNumberSuffix_not_whitespace c :
  isNumberSuffix c = true -> isWhiteSpace c = false.
Proof.
  unfold isNumberSuffix, isWhiteSpace. intros H. class_bounds; class_false.
Qed.

Lemma isNumberSuffix_not_digit c : isNumberSuffix c = true -> isDigit c = false.
Proof.
  unfold isNumberSuffix, isDigit. intros H. class_bounds; class_false.
Qed.

Lemma isLineTerminator_whitespace c :
  isLineTerminator c = true -> isWhiteSpace c = true.
Proof.
  unfold isLineTerminator. intros H. class_bounds; subst; reflexivity.
Qed.

(** ** Prefixes and suffixes selected by a character class *)

Lemma takeWhile_dropWhile f s : takeWhile f s ++ dropWhile f s = s.
Proof.
  induction s as [|c r IH]; simpl; [reflexivity|].
  destruct (f c); simpl; [now rewrite IH | reflexivity].
Qed.

Lemma takeWhile_Forall f s : Forall (fun c => f c = true) (takeWhile f s).
Proof.
  induction s as [|c r IH]; simpl; [constructor|].
  destruct (f c) eqn:E; [constructor; assumption | constructor].
Qed.

Lemma dropWhile_head f s c r : dropWhile f s = c :: r -> f c = false.
Proof.
  induction s as [|d s IH]; simpl; [discriminate|].
  destruct (f d) eqn:E; [assumption|]. intros [= -> _]. exact E.
Qed.

Lemma takeWhile_app f a b :
  Forall (fun c => f c = true) a -> stopsAt f b -> takeWhile f (a ++ b) = a.
Proof.
  intros Ha Hb. induction Ha as [|c a Hc _ IH]; simpl.
  - destruct b as [|d b]; simpl in *; [reflexivity | now rewrite Hb].
  - now rewrite Hc, IH.
Qed.

Lemma dropWhile_app f a b :
  Forall (fun c => f c = true) a -> stopsAt f b -> dropWhile f (a ++ b) = b.
Proof.
  intros Ha Hb. induction Ha as [|c a Hc _ IH]; simpl.
  - destruct b as [|d b]; simpl in *; [reflexivity | now rewrite Hb].
  - now rewrite Hc.
Qed.

(** ** C2: street and number *)

Lemma numberToken_spec t : numberToken t = true <-> NumberToken t.
Proof.
  unfold numberToken, NumberToken. split.
  - intros H. apply andb_true_iff in H as [Hd Hs].
    exists (takeWhile isDigit t), (dropWhile isDigit t).
    split; [now rewrite takeWhile_dropWhile|].
    split; [intros E; rewrite E in Hd; discriminate|].
    split; [apply takeWhile_Forall|].
    destruct (dropWhile isDigit t) as [|c [|d r]]; [now left | | discriminate].
    right. now exists c.
  - intros (ds & sf & -> & Hne & Hds & Hsf).
    assert (Hstop : stopsAt isDigit sf).
    { destruct Hsf as [->|(c & -> & Hc)]; simpl; [exact I|].
      now apply isNumberSuffix_not_digit. }
    rewrite takeWhile_app, dropWhile_app by assumption.
    apply andb_true_iff. split.
    + destruct ds; [congruence | reflexivity].
    + destruct Hsf as [->|(c & -> & Hc)]; [reflexivity | exact Hc].
Qed.

Lemma NumberToken_not_whitespace t :
  NumberToken t -> Forall (fun c => notWhiteSpace c = true) t.
Proof.
  intros (ds & sf & -> & _ & Hds & Hsf). apply Forall_app. split.
  - eapply Forall_impl; [exact Hds|]. intros c Hc. unfold notWhiteSpace.
    now rewrite isDigit_not_whitespace.
  - destruct Hsf as [->|(c & -> & Hc)]; [constructor|].
    constructor; [|constructor]. unfold notWhiteSpace.
    now rewrite isNumberSuffix_not_whitespace.
Qed.

Lemma nonEmpty_true (s : str) : nonEmpty s = true <-> s <> [].
Proof. destruct s; simpl; split; congruence. Qed.

Lemma Forall_rev_iff {A} (P : A -> Prop) (l : list A) :
  Forall P (rev l) <-> Forall P l.
Proof.
  rewrite !Forall_forall. split; intros H x Hx; apply H.
  - rewrite list_elem_of_In in *. now apply in_rev in Hx.
  - rewrite list_elem_of_In in *. now apply in_rev.
Qed.

Lemma trailingMatch_spec s p t :
  trailingMatch s = Some (p, t) <-> TrailingNumber s p t.
Proof.
  unfold trailingMatch. split.
  - set (r := rev s).
    set (tk := takeWhile notWhiteSpace r).
    set (r1 := dropWhile notWhiteSpace r).
    set (wk := takeWhile isWhiteSpace r1).
    set (r2 := dropWhile isWhiteSpace r1).
    destruct (_ && _) eqn:E; [|discriminate].
    intros [= <- <-].
    apply andb_true_iff in E as [E Htok].
    apply andb_true_iff in E as [E Hlt].
    apply andb_true_iff in E as [Hr1 Hr2].
    exists (rev wk). repeat split.
    + rewrite <- !rev_app_distr. rewrite <- app_assoc.
      unfold wk, r2. rewrite takeWhile_dropWhile.
      unfold tk, r1. rewrite takeWhile_dropWhile.
      unfold r. now rewrite rev_involutive.
    + destruct r2 as [|c r2'] eqn:Er2; [discriminate|].
      exists (rev r2'), c. split; [reflexivity|].
      eapply dropWhile_head. exact Er2.
    + apply Forall_forall. intros c Hc.
      rewrite forallb_forall in Hlt. apply negb_true_iff, Hlt.
      now apply list_elem_of_In.
    + destruct r1 as [|c r1'] eqn:Er1; [discriminate|].
      assert (Hc : notWhiteSpace c = false) by (eapply dropWhile_head; exact Er1).
      unfold notWhiteSpace in Hc. apply negb_false_iff in Hc.
      unfold wk. simpl. rewrite Hc. intros Hnil.
      apply (f_equal (@length N)) in Hnil. rewrite length_rev in Hnil.
      simpl in Hnil. lia.
    + apply Forall_rev_iff. apply takeWhile_Forall.
    + apply numberToken_spec. exact Htok.
  - intros (w & -> & (p' & c & Hp & Hc) & Hlt & Hw & Hws & Htok).
    assert (Hnws := NumberToken_not_whitespace _ Htok).
    rewrite !rev_app_distr, <- app_assoc.
    assert (Hstop1 : stopsAt notWhiteSpace (rev w ++ rev p)).
    { destruct (rev w) as [|d rw] eqn:Erw.
      - apply (f_equal (@rev N)) in Erw. rewrite rev_involutive in Erw.
        simpl in Erw. congruence.
      - simpl. unfold notWhiteSpace. apply negb_false_iff.
        assert (Hd : d ∈ rev w) by (rewrite Erw; left).
        apply list_elem_of_In, in_rev, list_elem_of_In in Hd.
        rewrite Forall_forall in Hws. now apply Hws. }
    assert (Hstop2 : stopsAt isWhiteSpace (rev p)).
    { subst p. rewrite rev_app_distr. simpl. exact Hc. }
    rewrite takeWhile_app, dropWhile_app
      by (try apply Forall_rev_iff; assumption).
    rewrite dropWhile_app by (try apply Forall_rev_iff; assumption).
    rewrite !rev_involutive.
    replace (nonEmpty (rev w ++ rev p)) with true.
    2:{ symmetry. apply nonEmpty_true. intros E.
        apply app_eq_nil in E as [_ E]. subst p.
        rewrite rev_app_distr in E. discriminate. }
    replace (nonEmpty (rev p)) with true.
    2:{ symmetry. apply nonEmpty_true. subst p.
        rewrite rev_app_distr. discriminate. }
    replace (forallb (fun c0 => negb (isLineTerminator c0)) p) with true.
    2:{ symmetry. apply forallb_forall. intros x Hx.
        rewrite Forall_forall in Hlt. apply negb_true_iff, Hlt.
        now apply list_elem_of_In. }
    apply numberToken_spec in Htok. rewrite Htok. reflexivity.
Qed.

Lemma TrailingNumber_unique s p t p' t' :
  TrailingNumber s p t -> TrailingNumber s p' t' -> p = p' /\ t = t'.
Proof.
  intros H H'. apply trailingMatch_spec in H, H'.
  rewrite H in H'. now inversion H'.
Qed.

Lemma trailingMatch_None s :
  trailingMatch s = None <-> forall p t, ~ TrailingNumber s p t.
Proof.
  split.
  - intros H p t Hpt. apply trailingMatch_spec in Hpt. congruence.
  - intros H. destruct (trailingMatch s) as [[p t]|] eqn:E; [|reflexivity].
    apply trailingMatch_spec in E. now apply H in E.
Qed.

(** The pieces of [split(/\s+/)] hold no whitespace, and joining them
    with single spaces is replacing every whitespace run by a space. *)
Lemma splitFrom_pieces b s :
  Forall (Forall (fun c => isWhiteSpace c = false)) (splitFrom b s).
Proof.
  revert b. induction s as [|c r IH]; intros b; simpl.
  - repeat constructor.
  - destruct (isWhiteSpace c) eqn:E.
    + destruct b; [apply IH|]. constructor; [constructor | apply IH].
    + specialize (IH false). destruct (splitFrom false r) as [|t ts].
      * repeat constructor. exact E.
      * apply Forall_cons in IH as [Ht Hts]. constructor; [|exact Hts].
        constructor; assumption.
Qed.

Lemma splitFrom_not_nil b s : splitFrom b s <> [].
Proof.
  revert b. induction s as [|c r IH]; intros b; simpl; [discriminate|].
  destruct (isWhiteSpace c).
  - destruct b; [apply IH | discriminate].
  - destruct (splitFrom false r); discriminate.
Qed.

Lemma join_splitFrom b s : join [SPACE] (splitFrom b s) = collapseFrom b s.
Proof.
  revert b. induction s as [|c r IH]; intros b; simpl; [reflexivity|].
  destruct (isWhiteSpace c).
  - destruct b; [apply IH|]. rewrite <- IH.
    pose proof (splitFrom_not_nil true r).
    destruct (splitFrom true r); [congruence | reflexivity].
  - rewrite <- (IH false). pose proof (splitFrom_not_nil false r).
    destruct (splitFrom false r) as [|t [|t' ts]]; [congruence | reflexivity..].
Qed.

Lemma join_splitWhitespace s :
  join [SPACE] (splitWhitespace s) = replaceWhitespaceRuns s.
Proof. apply join_splitFrom. Qed.

(** C2, as the code has it. A falsy or blank street gives two empty
    strings. Otherwise, with [s] the trimmed string and [tokens] its
    whitespace-separated pieces, exactly one rule applies, the first
    that matches: (a) [s] is a prefix without line terminator ending in
    a non-blank, a whitespace run and a number token: (prefix, token);
    (b) at least two tokens and a digit in the last one: the other
    tokens joined by single spaces, and the last token; (c) at least
    two tokens and a digit in the first one: the other tokens joined by
    single spaces, and the first token; (d) otherwise [s] and the empty
    number. The three examples of the specification follow. *)
Theorem splitStreetNumber_rules (street : value) :
  let s := trim (String_ street) in
  let tokens := splitWhitespace s in
  let ruleB := 2 <= length tokens /\ hasDigit (List.last tokens []) = true in
  let ruleC := 2 <= length tokens /\ hasDigit (hd [] tokens) = true in
  (truthy street = false \/ s = [] -> splitStreetNumber street = ([], []))
  /\ (truthy street = true -> s <> [] ->
      (forall p t, TrailingNumber s p t -> splitStreetNumber street = (p, t))
      /\ ((forall p t, ~ TrailingNumber s p t) ->
          (ruleB ->
           splitStreetNumber street
           = (join [SPACE] (removelast tokens), List.last tokens []))
          /\ (~ ruleB -> ruleC ->
              splitStreetNumber street
              = (join [SPACE] (tl tokens), hd [] tokens))
          /\ (~ ruleB -> ~ ruleC -> splitStreetNumber street = (s, []))))
  /\ splitStreetNumber (VString (js "Musterstraße 12a"))
     = (js "Musterstraße", js "12a")
  /\ splitStreetNumber (VString (js "12 Main Street"))
     = (js "Main Street", js "12")
  /\ splitStreetNumber (VString (js "Hauptweg")) = (js "Hauptweg", []).
Proof.
  intros s tokens ruleB ruleC.
  split; [|split; [|repeat split; vm_compute; reflexivity]].
  - unfold splitStreetNumber. intros [H|H].
    + now rewrite H.
    + destruct (truthy street); [|reflexivity]. simpl.
      fold s. now rewrite H.
  - intros Ht Hs. unfold splitStreetNumber. rewrite Ht. cbn [negb]. fold s.
    apply nonEmpty_true in Hs. rewrite Hs. cbn [negb]. split.
    + intros p t Hpt. apply trailingMatch_spec in Hpt. now rewrite Hpt.
    + intros Hno. apply trailingMatch_None in Hno. rewrite Hno. fold tokens.
      assert (HB : (2 <=? length tokens) && hasDigit (List.last tokens []) = true
                   <-> ruleB).
      { unfold ruleB. rewrite andb_true_iff, Nat.leb_le. reflexivity. }
      assert (HC : (2 <=? length tokens) && hasDigit (hd [] tokens) = true
                   <-> ruleC).
      { unfold ruleC. rewrite andb_true_iff, Nat.leb_le. reflexivity. }
      repeat split.
      * intros H. apply HB in H. now rewrite H.
      * intros HnB H.
        destruct ((2 <=? length tokens) && hasDigit (List.last tokens [])) eqn:E.
        -- exfalso. apply HnB, HB. reflexivity.
        -- apply HC in H. now rewrite H.
      * intros HnB HnC.
        destruct ((2 <=? length tokens) && hasDigit (List.last tokens [])) eqn:E.
        -- exfalso. apply HnB, HB. reflexivity.
        -- destruct ((2 <=? length tokens) && hasDigit (hd [] tokens)) eqn:E'.
           ++ exfalso. apply HnC, HC. reflexivity.
           ++ reflexivity.
Qed.

Lemma splitStreetNumber_rules_witness :
  splitStreetNumber (VString (js "A1 Ring B")) = (js "Ring B", js "A1").
Proof.
  destruct (splitStreetNumber_rules (VString (js "A1 Ring B")))
    as (_ & H & _).
  destruct (H eq_refl ltac:(vm_compute; discriminate)) as [_ H'].
  destruct (H' ltac:(apply trailingMatch_None; vm_compute; reflexivity))
    as (_ & HC & _).
  apply HC.
  - vm_compute. intros [_ E]. discriminate.
  - vm_compute. split; [lia | reflexivity].
Defined.

(** C2, counterexample: a street of one token containing a digit
    ("Haus5") is returned whole, with an empty number. *)
Lemma splitStreetNumber_single_token_counterexample :
  splitStreetNumber (VString (js "Haus5")) = (js "Haus5", [])
  /\ ~ lastTokenRule_as_stated.
Proof.
  split; [vm_compute; reflexivity|].
  intros H. specialize (H (js "Haus5")).
  assert (E : snd (splitStreetNumber (VString (js "Haus5"))) = js "Haus5").
  { apply H.
    - vm_compute. discriminate.
    - apply trailingMatch_None. vm_compute. reflexivity.
    - vm_compute. reflexivity. }
  vm_compute in E. discriminate.
Qed.

(** ** C3: the per-record validator *)

Lemma checkLength_fieldWarnings row ws col :
  col <> js "LAND_UNMAPPED_ORIGINAL" ->
  checkLength row ws col = ws ++ fieldWarnings row col.
Proof.
  intros Hne. unfold checkLength, fieldWarnings.
  rewrite decide_False by exact Hne.
  destruct (_ && _); [reflexivity | now rewrite app_nil_r].
Qed.

Lemma foldl_checkLength row cols ws :
  Forall (fun col => col <> js "LAND_UNMAPPED_ORIGINAL") cols ->
  foldl (checkLength row) ws cols = ws ++ flat_map (fieldWarnings row) cols.
Proof.
  intros H. revert ws. induction H as [|col cols Hc _ IH]; intros ws; simpl.
  - now rewrite app_nil_r.
  - rewrite IH, checkLength_fieldWarnings by exact Hc. now rewrite app_assoc.
Qed.

Lemma limits_keys_checked :
  Forall (fun col => col <> js "LAND_UNMAPPED_ORIGINAL") (map fst limits).
Proof.
  unfold limits. simpl.
  repeat constructor; intros E; vm_compute in E; discriminate.
Qed.

(** The warning list, part by part and in order. *)
Lemma validateMaxLengths_parts row :
  validateMaxLengths row
  = unmappedWarnings row
    ++ flat_map (fieldWarnings row) (map fst limits)
    ++ fullAddressWarnings row.
Proof.
  unfold validateMaxLengths. rewrite foldl_checkLength by apply limits_keys_checked.
  unfold unmappedWarnings, fullAddressWarnings.
  rewrite <- app_assoc.
  destruct (LAND_UNMAPPED_ORIGINAL row) as [o|]; [destruct (nonEmpty o)|];
    destruct (72 <? _); rewrite ?app_nil_r, ?app_nil_l; reflexivity.
Qed.

Ltac limit_cases H :=
  unfold limits in H; simpl in H;
  repeat (apply elem_of_cons in H as [H|H]; [inversion H; subst; clear H|]);
  [..|apply elem_of_nil in H; contradiction].

Ltac tag_clash E :=
  apply (f_equal tag) in E; vm_compute in E; discriminate E.





Lemma limits_entry col maxLen :
  (col, maxLen) ∈ limits -> entryGet limits col = Some maxLen /\ maxLen <> 0.
Proof. intros H. limit_cases H; split; first [reflexivity | discriminate]. Qed.

Lemma limits_key col :
  col ∈ map fst limits -> exists maxLen, (col, maxLen) ∈ limits.
Proof.
  intros H. apply list_elem_of_In, in_map_iff in H as [[c m] [<- H]].
  exists m. now apply list_elem_of_In.
Qed.

Lemma fieldWarnings_limit row col maxLen :
  (col, maxLen) ∈ limits ->
  fieldWarnings row col
  = if maxLen <? length (String_ (getField row col))
    then [lengthWarning col (length (String_ (getField row col))) maxLen]
    else [].
Proof.
  intros H. apply limits_entry in H as [H Hpos]. unfold fieldWarnings.
  rewrite H. simpl. destruct maxLen; [congruence | reflexivity].
Qed.









(** ** C4: country resolution *)

Lemma foldl_insertEntry_lookup {V} (l : list (str * V)) (m : gmap str V) k v :
  foldl insertEntry m l !! k = Some v -> m !! k = Some v \/ (k, v) ∈ l.
Proof.
  revert m. induction l as [|[k' v'] l IH]; intros m H; simpl in *; [now left|].
  apply IH in H as [H|H]; [|right; now right].
  unfold insertEntry in H. simpl in H.
  destruct (decide (k' = k)) as [->|Hne].
  - rewrite lookup_insert_eq in H. injection H as ->. right. left.
  - rewrite lookup_insert_ne in H by exact Hne. now left.
Qed.

Lemma foldl_insertEntry_is_Some {V} (l : list (str * V)) (m : gmap str V) k :
  is_Some (m !! k) \/ k ∈ l.*1 -> is_Some (foldl insertEntry m l !! k).
Proof.
  revert m. induction l as [|[k' v'] l IH]; intros m H; simpl in *.
  - destruct H as [H|H]; [exact H | now apply elem_of_nil in H].
  - apply IH. unfold insertEntry. simpl.
    destruct (decide (k' = k)) as [->|Hne].
    + left. rewrite lookup_insert_eq. eauto.
    + rewrite lookup_insert_ne by exact Hne.
      destruct H as [H|H]; [now left|].
      apply elem_of_cons in H as [H|H]; [congruence | now right].
Qed.

Lemma foldl_flat_map {A B C} (f : A -> C -> A) (g : B -> list C) l a :
  foldl f a (flat_map g l) = foldl (fun a x => foldl f a (g x)) a l.
Proof.
  revert a. induction l as [|x l IH]; intros a; simpl; [reflexivity|].
  now rewrite foldl_app, IH.
Qed.

(** Assignments to a plain object: those to [__proto__] leave no trace. *)
Lemma foldl_writePlain (l : list (str * str)) (m : gmap str str) :
  foldl (fun m e => writePlain m e.1 e.2) m l = foldl insertEntry m (ownEntries l).
Proof.
  revert m. induction l as [|[k v] l IH]; intros m; [reflexivity|].
  cbn [foldl]. rewrite IH. unfold writePlain, ownEntries.
  cbn [List.filter fst snd].
  destruct (bool_decide (k = js "__proto__")); reflexivity.
Qed.

Lemma elem_of_ownEntries {V} (l : list (str * V)) e :
  e ∈ ownEntries l <-> e ∈ l /\ e.1 <> js "__proto__".
Proof.
  unfold ownEntries. rewrite !list_elem_of_In, filter_In, negb_true_iff.
  rewrite bool_decide_eq_false. reflexivity.
Qed.

Lemma ownEntries_unchanged {V} (l : list (str * V)) :
  js "__proto__" ∉ l.*1 -> ownEntries l = l.
Proof.
  induction l as [|[k v] l IH]; intros H; [reflexivity|].
  apply not_elem_of_cons in H as [Hne H]. unfold ownEntries.
  cbn [List.filter fst].
  rewrite bool_decide_eq_false_2 by (intros E; apply Hne; symmetry; exact E).
  cbn [negb]. f_equal. now apply IH.
Qed.

Lemma prototype_key_proto : js "__proto__" ∈ OBJECT_PROTOTYPE_KEYS.
Proof. unfold OBJECT_PROTOTYPE_KEYS. do 10 right. left. Qed.

Lemma readPlain_own (o : gmap str str) k s :
  o !! k = Some s -> readPlain o k = VString s.
Proof. intros H. unfold readPlain. now rewrite H. Qed.

Lemma readPlain_absent (o : gmap str str) k :
  o !! k = None -> k ∉ OBJECT_PROTOTYPE_KEYS -> readPlain o k = VUndefined.
Proof.
  intros H Hk. unfold readPlain. rewrite H.
  now rewrite bool_decide_eq_false_2.
Qed.

Lemma readPlain_inherited (o : gmap str str) k :
  o !! k = None -> k ∈ OBJECT_PROTOTYPE_KEYS -> readPlain o k = VMember k.
Proof.
  intros H Hk. unfold readPlain. rewrite H.
  now rewrite bool_decide_eq_true_2.
Qed.

Section CountryDirectory.

Variable toLowerCase : str -> str.
Variable countriesData : list Country.

Lemma buildCountryMapping_registrations :
  buildCountryMapping toLowerCase countriesData
  = foldl insertEntry ∅ (ownEntries (registrations toLowerCase countriesData)).
Proof.
  rewrite <- foldl_writePlain.
  unfold buildCountryMapping, registrations. rewrite foldl_flat_map.
  apply foldl_ext_in. intros m c _. unfold registeredKeys.
  destruct (nonEmpty (germanShortName c)); reflexivity.
Qed.

Lemma elem_of_registrations k code :
  (k, code) ∈ registrations toLowerCase countriesData <->
  exists c key, c ∈ countriesData /\ key ∈ registeredKeys c
                /\ k = toLowerCase key /\ code = alpha3Code c.
Proof.
  unfold registrations. rewrite list_elem_of_In, in_flat_map. split.
  - intros (c & Hc & H). apply in_map_iff in H as (key & [= <- <-] & Hk).
    exists c, key. rewrite !list_elem_of_In. auto.
  - intros (c & key & Hc & Hk & -> & ->). exists c.
    rewrite <- list_elem_of_In. split; [exact Hc|].
    apply in_map_iff. exists key. rewrite <- list_elem_of_In. auto.
Qed.

(** Every binding of the lookup table comes from a registered key. *)
Lemma countryMapping_sound k code :
  countryMapping toLowerCase countriesData !! k = Some code ->
  exists c key, c ∈ countriesData /\ key ∈ registeredKeys c
                /\ k = toLowerCase key /\ code = alpha3Code c.
Proof.
  unfold countryMapping. rewrite buildCountryMapping_registrations.
  intros H. apply foldl_insertEntry_lookup in H as [H|H].
  - rewrite lookup_empty in H. discriminate.
  - apply elem_of_ownEntries in H as [H _]. now apply elem_of_registrations.
Qed.

(** Every registered key is bound, [__proto__] apart. *)
Lemma countryMapping_complete c key :
  c ∈ countriesData -> key ∈ registeredKeys c ->
  toLowerCase key <> js "__proto__" ->
  is_Some (countryMapping toLowerCase countriesData !! toLowerCase key).
Proof.
  intros Hc Hk Hp. unfold countryMapping. rewrite buildCountryMapping_registrations.
  apply foldl_insertEntry_is_Some. right.
  apply list_elem_of_fmap. exists (toLowerCase key, alpha3Code c).
  split; [reflexivity|]. apply elem_of_ownEntries. split; [|exact Hp].
  apply elem_of_registrations. eauto 10.
Qed.

(** The code is DEU, a non-empty code of the table, or the member of
    [Object.prototype] named by the lower-cased input; an unmapped
    original is the non-blank trimmed input and comes with DEU. *)
Lemma mapCountry_result v :
  let result := mapCountry toLowerCase countriesData v in
  (code result = VString (js "DEU")
   \/ (exists c, c ∈ countriesData /\ alpha3Code c <> []
                 /\ code result = VString (alpha3Code c))
   \/ (toLowerCase (trim (String_ v)) ∈ OBJECT_PROTOTYPE_KEYS
       /\ code result = VMember (toLowerCase (trim (String_ v)))))
  /\ forall original,
       unmappedOriginal result = Some original ->
       original = trim (String_ v) /\ original <> []
       /\ code result = VString (js "DEU").
Proof.
  unfold mapCountry. destruct (truthy v); cbn [negb];
    [|split; [now left | discriminate]].
  destruct (nonEmpty (trim (String_ v))) eqn:En; cbn [negb];
    [|split; [now left | discriminate]].
  apply nonEmpty_true in En. unfold readPlain.
  destruct (countryMapping _ _ !! _) as [mapped|] eqn:E.
  - cbn [truthy]. destruct (nonEmpty mapped) eqn:Em; cbn [code unmappedOriginal].
    + split; [|discriminate]. right. left.
      apply countryMapping_sound in E as (c & key & Hc & _ & _ & ->).
      apply nonEmpty_true in Em. eauto.
    + split; [now left|]. intros o [= <-]. auto.
  - destruct (bool_decide _) eqn:Ep; cbn [truthy code unmappedOriginal].
    + split; [|discriminate]. right. right.
      apply bool_decide_eq_true in Ep. auto.
    + split; [now left|]. intros o [= <-]. auto.
Qed.

(** An unmapped country reaches the record and the validator. *)
Lemma unmapped_country_warns (row : RawRow) index mapping original :
  let cell := getProp (mapColumns toLowerCase row mapping) (js "country") in
  let r := mapRow toLowerCase countriesData row index mapping in
  unmappedOriginal (mapCountry toLowerCase countriesData cell) = Some original ->
  LAND_UNMAPPED_ORIGINAL r = Some original
  /\ LAND r = VString (js "DEU")
  /\ unmappedWarning original (js "DEU") ∈ validateMaxLengths r.
Proof.
  intros cell r H.
  destruct (mapCountry_result cell) as [_ Hres].
  destruct (Hres _ H) as (_ & Hne & Hcode). apply nonEmpty_true in Hne.
  assert (Hu : LAND_UNMAPPED_ORIGINAL r = Some original).
  { unfold r, mapRow. destruct (splitStreetNumber _) as [strasse nummer].
    cbn [LAND_UNMAPPED_ORIGINAL]. fold cell. rewrite H. now rewrite Hne. }
  assert (Hl : LAND r = VString (js "DEU")).
  { unfold r, mapRow. destruct (splitStreetNumber _) as [strasse nummer].
    cbn [LAND]. exact Hcode. }
  split; [exact Hu|]. split; [exact Hl|].
  rewrite validateMaxLengths_parts, elem_of_app. left.
  unfold unmappedWarnings. rewrite Hu, Hne, Hl. left.
Qed.

Lemma truthy_false_iff v : truthy v = false <-> v ∈ falsyValues.
Proof.
  unfold falsyValues. split.
  - destruct v as [| |[|]|n|s|name]; cbn [truthy]; intros H; try discriminate.
    + left.
    + right; left.
    + do 2 right; left.
    + apply negb_false_iff, Z.eqb_eq in H. subst n. do 3 right; left.
    + destruct s; [|discriminate]. do 4 right; left.
  - intros H.
    repeat (apply elem_of_cons in H as [->|H]; [reflexivity|]).
    now apply elem_of_nil in H.
Qed.

(** The table is well formed: codes are not empty, and entries that
    register the same key (up to case) carry the same code. *)
Hypothesis codes_nonempty :
  forall c, c ∈ countriesData -> alpha3Code c <> [].

Hypothesis keys_unambiguous :
  forall c c' key key',
    c ∈ countriesData -> c' ∈ countriesData ->
    key ∈ registeredKeys c -> key' ∈ registeredKeys c' ->
    toLowerCase key = toLowerCase key' -> alpha3Code c = alpha3Code c'.

Lemma countryMapping_registered c key :
  c ∈ countriesData -> key ∈ registeredKeys c ->
  toLowerCase key <> js "__proto__" ->
  countryMapping toLowerCase countriesData !! toLowerCase key
  = Some (alpha3Code c).
Proof.
  intros Hc Hk Hp. destruct (countryMapping_complete c key Hc Hk Hp) as [code H].
  rewrite H. f_equal.
  apply countryMapping_sound in H as (c' & key' & Hc' & Hk' & E & ->).
  symmetry. eapply keys_unambiguous; eauto.
Qed.

(** C4, as the code has it. A falsy country (undefined, null, false,
    0 or the empty string) or a blank one resolves to DEU without an
    unmapped original. For any other input whose trimmed text,
    lower-cased, does not name a member inherited from
    [Object.prototype]: when it equals, up to case, a registered key of
    an entry it resolves to that entry's alpha-3 code without an
    unmapped original; otherwise it resolves to DEU and records the
    trimmed input, which reaches the record and the validator's
    warning. *)
Theorem mapCountry_policy (country : value) :
  let input := trim (String_ country) in
  let registered c key := c ∈ countriesData /\ key ∈ registeredKeys c in
  let DEU := {| code := VString (js "DEU"); unmappedOriginal := None |} in
  (truthy country = false <-> country ∈ falsyValues)
  /\ (truthy country = false \/ input = [] ->
      mapCountry toLowerCase countriesData country = DEU)
  /\ (truthy country = true -> input <> [] ->
      toLowerCase input ∉ OBJECT_PROTOTYPE_KEYS ->
      (forall c key,
         registered c key -> toLowerCase input = toLowerCase key ->
         mapCountry toLowerCase countriesData country
         = {| code := VString (alpha3Code c); unmappedOriginal := None |})
      /\ ((forall c key,
             registered c key -> toLowerCase input <> toLowerCase key) ->
          mapCountry toLowerCase countriesData country
          = {| code := VString (js "DEU"); unmappedOriginal := Some input |}))
  /\ mapCountry toLowerCase countriesData (VString []) = DEU
  /\ mapCountry toLowerCase countriesData VUndefined = DEU
  /\ (toLowerCase (js "Atlantis") ∉ OBJECT_PROTOTYPE_KEYS ->
      (forall c key,
         registered c key -> toLowerCase (js "Atlantis") <> toLowerCase key) ->
      mapCountry toLowerCase countriesData (VString (js "Atlantis"))
      = {| code := VString (js "DEU");
           unmappedOriginal := Some (js "Atlantis") |})
  /\ (forall (row : RawRow) index mapping original,
        let cell := getProp (mapColumns toLowerCase row mapping) (js "country") in
        let r := mapRow toLowerCase countriesData row index mapping in
        unmappedOriginal (mapCountry toLowerCase countriesData cell)
        = Some original ->
        LAND_UNMAPPED_ORIGINAL r = Some original
        /\ LAND r = VString (js "DEU")
        /\ unmappedWarning original (js "DEU") ∈ validateMaxLengths r).
Proof.
  intros input registered DEU.
  assert (Hmiss : forall v,
    truthy v = true -> trim (String_ v) <> [] ->
    toLowerCase (trim (String_ v)) ∉ OBJECT_PROTOTYPE_KEYS ->
    (forall c key, registered c key ->
                   toLowerCase (trim (String_ v)) <> toLowerCase key) ->
    mapCountry toLowerCase countriesData v
    = {| code := VString (js "DEU");
         unmappedOriginal := Some (trim (String_ v)) |}).
  { intros v Ht Hin Hp Hno. unfold mapCountry. rewrite Ht. cbn [negb].
    apply nonEmpty_true in Hin. rewrite Hin. cbn [negb].
    destruct (countryMapping toLowerCase countriesData
                !! toLowerCase (trim (String_ v))) as [code|] eqn:E.
    - apply countryMapping_sound in E as (c & key & Hc & Hk & E & _).
      exfalso. eapply Hno; [split|]; eauto.
    - now rewrite (readPlain_absent _ _ E Hp). }
  split; [apply truthy_false_iff|].
  split; [|split; [|split; [|split; [|split]]]].
  6: exact unmapped_country_warns.
  - unfold mapCountry. intros [H|H].
    + now rewrite H.
    + destruct (truthy country); [|reflexivity]. cbn [negb].
      fold input. now rewrite H.
  - intros Ht Hin Hp. split.
    + intros c key [Hc Hk] E. unfold mapCountry. rewrite Ht. cbn [negb].
      fold input. apply nonEmpty_true in Hin. rewrite Hin. cbn [negb].
      assert (Hq : toLowerCase key <> js "__proto__").
      { intros Eq. apply Hp. rewrite E, Eq. apply prototype_key_proto. }
      rewrite E, (readPlain_own _ _ _ (countryMapping_registered c key Hc Hk Hq)).
      cbn [truthy].
      specialize (codes_nonempty c Hc). apply nonEmpty_true in codes_nonempty.
      now rewrite codes_nonempty.
    + apply Hmiss; assumption.
  - reflexivity.
  - reflexivity.
  - intros Hp Hno. apply (Hmiss (VString (js "Atlantis"))).
    + reflexivity.
    + vm_compute. discriminate.
    + exact Hp.
    + exact Hno.
Qed.

End CountryDirectory.

Lemma sampleCountries_unregistered (input : str) :
  Forall (fun k => asciiLower input <> k)
    (map asciiLower (flat_map registeredKeys sampleCountries)) ->
  forall c key,
    c ∈ sampleCountries /\ key ∈ registeredKeys c ->
    asciiLower input <> asciiLower key.
Proof.
  intros H c key [Hc Hk] E. rewrite Forall_forall in H.
  apply (H (asciiLower key)); [|exact E].
  apply list_elem_of_fmap. exists key. split; [reflexivity|].
  apply list_elem_of_In, in_flat_map. exists c.
  rewrite <- !list_elem_of_In. auto.
Qed.

Lemma mapCountry_policy_witness :
  mapCountry asciiLower sampleCountries (VString (js " germany "))
  = {| code := VString (js "DEU"); unmappedOriginal := None |}
  /\ mapCountry asciiLower sampleCountries (VString (js "Atlantis"))
     = {| code := VString (js "DEU"); unmappedOriginal := Some (js "Atlantis") |}.
Proof.
  assert (Hne : forall c, c ∈ sampleCountries -> alpha3Code c <> []).
  { intros c H. unfold sampleCountries in H.
    repeat (apply elem_of_cons in H as [->|H]; [discriminate|]).
    now apply elem_of_nil in H. }
  assert (Hun : forall c c' key key',
    c ∈ sampleCountries -> c' ∈ sampleCountries ->
    key ∈ registeredKeys c -> key' ∈ registeredKeys c' ->
    asciiLower key = asciiLower key' -> alpha3Code c = alpha3Code c').
  { intros c c' key key' H H' Hk Hk' E. unfold sampleCountries in H, H'.
    repeat (apply elem_of_cons in H as [->|H]);
      try (now apply elem_of_nil in H);
      repeat (apply elem_of_cons in H' as [->|H']);
      try (now apply elem_of_nil in H');
      try reflexivity;
      exfalso; vm_compute in Hk, Hk';
      repeat (apply elem_of_cons in Hk as [->|Hk]);
      try (now apply elem_of_nil in Hk);
      repeat (apply elem_of_cons in Hk' as [->|Hk']);
      try (now apply elem_of_nil in Hk');
      vm_compute in E; discriminate E. }
  assert (Hproto : forall s,
    forallb (fun k => negb (bool_decide (asciiLower s = k))) OBJECT_PROTOTYPE_KEYS
    = true -> asciiLower s ∉ OBJECT_PROTOTYPE_KEYS).
  { intros s H Hin. rewrite forallb_forall in H.
    apply list_elem_of_In, H, negb_true_iff, bool_decide_eq_false in Hin.
    now apply Hin. }
  pose proof (mapCountry_policy asciiLower sampleCountries Hne Hun) as P.
  split.
  - destruct (P (VString (js " germany "))) as (_ & _ & H & _).
    destruct (H eq_refl ltac:(vm_compute; discriminate)
                (Hproto (js "germany") eq_refl)) as [H1 _].
    apply (H1 germany (js "Germany")).
    + split; [left | left].
    + reflexivity.
  - destruct (P VUndefined) as (_ & _ & _ & _ & _ & H & _).
    apply H; [exact (Hproto (js "Atlantis") eq_refl)|].
    apply sampleCountries_unregistered.
    vm_compute. repeat constructor; discriminate.
Defined.

(** C4, counterexample: the number 0 is a value whose text is not
    blank and is no registered key, yet it resolves to DEU without an
    unmapped original, the guard [!country] treating it as absent. *)
Lemma mapCountry_zero_counterexample :
  mapCountry asciiLower sampleCountries (VNumber 0)
  = {| code := VString (js "DEU"); unmappedOriginal := None |}
  /\ ~ unregistered_recorded_as_stated.
Proof.
  split; [reflexivity|]. intros H.
  specialize (H asciiLower sampleCountries (VNumber 0)).
  cbv zeta in H.
  assert (E : mapCountry asciiLower sampleCountries (VNumber 0)
              = {| code := VString (js "DEU");
                   unmappedOriginal := Some (trim (String_ (VNumber 0))) |}).
  { apply H; try discriminate.
    intros c key Hc Hk.
    apply (sampleCountries_unregistered (trim (String_ (VNumber 0)))
             ltac:(vm_compute; repeat constructor; discriminate) c key).
    split; assumption. }
  vm_compute in E. discriminate E.
Qed.

(** ** C5: column remapping *)

Lemma foldl_insertEntry_lastBound {V} (l : list (str * V)) (m : gmap str V) k :
  foldl insertEntry m l !! k
  = match lastBound l k with Some x => Some x | None => m !! k end.
Proof.
  revert m. induction l as [|[k' v] r IH]; intros m; simpl; [reflexivity|].
  rewrite IH. destruct (lastBound r k); [reflexivity|].
  unfold insertEntry. simpl. destruct (decide (k' = k)) as [->|Hne].
  - now rewrite lookup_insert_eq.
  - now rewrite lookup_insert_ne.
Qed.

Lemma lastBound_None {V} (l : list (str * V)) k :
  k ∉ l.*1 -> lastBound l k = None.
Proof.
  induction l as [|[k' v] r IH]; simpl; [reflexivity|].
  intros H. apply not_elem_of_cons in H as [Hne H].
  rewrite IH by exact H. destruct (decide (k' = k)); congruence.
Qed.

Lemma lastBound_NoDup {V} (l : list (str * V)) k v :
  NoDup l.*1 -> (k, v) ∈ l -> lastBound l k = Some v.
Proof.
  induction l as [|[k' v'] r IH]; simpl; intros Hnd Hin.
  - now apply elem_of_nil in Hin.
  - apply NoDup_cons in Hnd as [Hk' Hnd].
    apply elem_of_cons in Hin as [[= -> ->]|Hin].
    + rewrite lastBound_None by exact Hk'.
      destruct (decide (k' = k')); congruence.
    + now rewrite (IH Hnd Hin).
Qed.

Lemma lastBound_elem {V} (l : list (str * V)) k v :
  lastBound l k = Some v -> (k, v) ∈ l.
Proof.
  induction l as [|[k' v'] r IH]; simpl; [discriminate|].
  destruct (lastBound r k) as [x|].
  - intros [= ->]. right. now apply IH.
  - destruct (decide (k' = k)) as [->|]; [|discriminate].
    intros [= ->]. left.
Qed.

Lemma foldl_insert_map {A V} (g : A -> str) (h : A -> V) (l : list A) m :
  foldl (fun (m : gmap str V) e => <[g e := h e]> m) m l
  = foldl insertEntry m (map (fun e => (g e, h e)) l).
Proof.
  revert m. induction l as [|e l IH]; intros m; simpl; [reflexivity|].
  now rewrite IH.
Qed.

Lemma lastBound_ownEntries {V} (l : list (str * V)) k :
  k <> js "__proto__" -> lastBound (ownEntries l) k = lastBound l k.
Proof.
  intros Hk. induction l as [|[k' v] r IH]; [reflexivity|].
  unfold ownEntries in *. cbn [List.filter fst lastBound].
  destruct (bool_decide (k' = js "__proto__")) eqn:E; cbn [negb lastBound].
  - apply bool_decide_eq_true in E. rewrite IH.
    destruct (lastBound r k); [reflexivity|].
    destruct (decide (k' = k)); [congruence | reflexivity].
  - now rewrite IH.
Qed.

Lemma prototype_key_not_proto k :
  k ∉ OBJECT_PROTOTYPE_KEYS -> k <> js "__proto__".
Proof. intros H ->. apply H, prototype_key_proto. Qed.

Section ColumnRemapper.

Variable toLowerCase : str -> str.

Lemma normalizeMapping_entries table :
  normalizeMapping toLowerCase table
  = foldl insertEntry ∅ (ownEntries (loweredAliases toLowerCase table)).
Proof.
  rewrite <- foldl_writePlain. unfold normalizeMapping, loweredAliases.
  rewrite (foldl_ext_in _
             (fun (m : gmap str str) e => writePlain m (toLowerCase e.1) e.2))
    by (intros m [a b] _; reflexivity).
  generalize (∅ : gmap str str).
  induction table as [|e table IH]; intros m; [reflexivity|]. apply IH.
Qed.

Lemma normalizeMapping_lookup table k :
  k <> js "__proto__" ->
  normalizeMapping toLowerCase table !! k
  = lastBound (loweredAliases toLowerCase table) k.
Proof.
  intros Hk.
  rewrite normalizeMapping_entries, foldl_insertEntry_lastBound, lookup_empty.
  rewrite lastBound_ownEntries by exact Hk. now destruct (lastBound _ _).
Qed.

(** Away from the members of [Object.prototype], the loop stores each
    cell under its output key. *)
Lemma collectColumns_entries table row :
  (forall key, key ∈ row.*1 -> toLowerCase key ∉ OBJECT_PROTOTYPE_KEYS) ->
  js "__proto__" ∉ table.*2 ->
  collectColumns toLowerCase (normalizeMapping toLowerCase table) row
  = (foldl insertEntry ∅ (remappedEntries toLowerCase table row), false).
Proof.
  intros Hrow Htab. unfold collectColumns, remappedEntries.
  generalize (∅ : gmap str cell).
  induction row as [|[key v] row IH]; intros m; [reflexivity|].
  cbn [foldl map fst snd]. rewrite <- IH
    by (intros k Hk; apply Hrow; right; exact Hk).
  f_equal.
  assert (Hkey : toLowerCase key ∉ OBJECT_PROTOTYPE_KEYS) by (apply Hrow; left).
  assert (Hlow : toLowerCase key <> js "__proto__")
    by (apply prototype_key_not_proto, Hkey).
  unfold outputKey, insertEntry. cbn [fst snd].
  rewrite <- (normalizeMapping_lookup table _ Hlow).
  destruct (normalizeMapping toLowerCase table !! toLowerCase key)
    as [target|] eqn:E.
  - rewrite (readPlain_own _ _ _ E). cbn [truthy String_].
    destruct (nonEmpty target) eqn:En.
    + assert (Ht : target <> js "__proto__").
      { intros ->. apply Htab.
        rewrite (normalizeMapping_lookup table _ Hlow) in E.
        apply lastBound_elem in E. unfold loweredAliases in E.
        apply list_elem_of_fmap in E as ([a b] & Eab & E).
        cbn [fst snd] in Eab. injection Eab as _ Eb.
        apply list_elem_of_fmap. exists (a, b). auto. }
      unfold assignCell. rewrite bool_decide_eq_false_2 by exact Ht. reflexivity.
    + unfold assignCell. rewrite bool_decide_eq_false_2 by exact Hlow. reflexivity.
  - rewrite (readPlain_absent _ _ E Hkey). cbn [truthy].
    unfold assignCell. rewrite bool_decide_eq_false_2 by exact Hlow. reflexivity.
Qed.

Lemma mapColumns_entries row custom :
  (forall key, key ∈ row.*1 -> toLowerCase key ∉ OBJECT_PROTOTYPE_KEYS) ->
  js "__proto__" ∉ (default DEFAULT_COLUMN_MAPPING custom).*2 ->
  mapColumns toLowerCase row custom
  = foldl insertEntry ∅
      (remappedEntries toLowerCase (default DEFAULT_COLUMN_MAPPING custom) row).
Proof.
  intros Hrow Htab. unfold mapColumns.
  now rewrite collectColumns_entries.
Qed.

(** C5, as the code has it. Alias keys and row keys are compared
    lower-cased (the last alias wins, an alias with an empty target
    does not count). For a row none of whose keys lower-cases to the
    name of a member inherited from [Object.prototype], and a table
    without the target [__proto__]: each output key holds the value of
    the last row entry stored under it, so that when no two row keys
    share an output key every value of the row is kept under its output
    key. Without a caller-supplied table the default table is used,
    with one the default plays no part. *)
Theorem mapColumns_remap (row : RawRow) (custom : option (list (str * str))) :
  let table := default DEFAULT_COLUMN_MAPPING custom in
  let out := outputKey toLowerCase table in
  (forall k,
     k <> js "__proto__" ->
     normalizeMapping toLowerCase table !! k
     = lastBound (loweredAliases toLowerCase table) k)
  /\ ((forall key, key ∈ row.*1 -> toLowerCase key ∉ OBJECT_PROTOTYPE_KEYS) ->
      js "__proto__" ∉ table.*2 ->
      (forall o,
         mapColumns toLowerCase row custom !! o
         = lastBound (remappedEntries toLowerCase table row) o)
      /\ (forall o v,
            mapColumns toLowerCase row custom !! o = Some v ->
            exists key, (key, v) ∈ row /\ o = out key)
      /\ (NoDup (map out row.*1) ->
          forall key v,
            (key, v) ∈ row ->
            mapColumns toLowerCase row custom !! out key = Some v))
  /\ mapColumns toLowerCase row None
     = mapColumns toLowerCase row (Some DEFAULT_COLUMN_MAPPING)
  /\ (forall key v,
        toLowerCase key ∉ OBJECT_PROTOTYPE_KEYS ->
        mapColumns toLowerCase [(key, v)] (Some [])
        = {[ toLowerCase key := v ]}).
Proof.
  intros table out.
  split; [apply normalizeMapping_lookup|].
  split; [|split].
  - intros Hrow Htab.
    assert (Hlook : forall o,
      mapColumns toLowerCase row custom !! o
      = lastBound (remappedEntries toLowerCase table row) o).
    { intros o.
      rewrite mapColumns_entries, foldl_insertEntry_lastBound, lookup_empty
        by assumption.
      fold table. now destruct (lastBound _ _). }
    split; [exact Hlook|]. split.
    + intros o v H. rewrite Hlook in H. apply lastBound_elem in H.
      unfold remappedEntries in H.
      apply list_elem_of_fmap in H as ([key v'] & [= -> ->] & H).
      exists key. split; [exact H | reflexivity].
    + intros Hnd key v Hin. rewrite Hlook. apply lastBound_NoDup.
      * unfold remappedEntries. rewrite <- list_fmap_compose.
        rewrite <- list_fmap_compose in Hnd. exact Hnd.
      * unfold remappedEntries. apply list_elem_of_fmap.
        exists (key, v). split; [reflexivity | exact Hin].
  - reflexivity.
  - intros key v Hkey. rewrite mapColumns_entries.
    + reflexivity.
    + intros k Hk. apply list_elem_of_singleton in Hk. now subst k.
    + apply not_elem_of_nil.
Qed.

End ColumnRemapper.

(** A column whose lower-cased name is a member of [Object.prototype]
    meets that member instead of an alias, and its cell is stored under
    the text of the member. *)
Example mapColumns_inherited_key :
  mapColumns asciiLower
    [ (js "Constructor", CString (js "x")); (js "__proto__", CString (js "y")) ]
    None
  = {[ js "function Object() { [native code] }" := CString (js "x");
       js "[object Object]" := CString (js "y") ]}.
Proof. vm_compute. reflexivity. Qed.

(** Under the target [__proto__] a cell is dropped; after [null] has
    removed the prototype the next one becomes an own property. *)
Example mapColumns_proto_target :
  mapColumns asciiLower
    [ (js "a", CString (js "w")); (js "A", CString (js "z")) ]
    (Some [ (js "A", js "__proto__") ])
  = ∅
  /\ mapColumns asciiLower
       [ (js "a", CNull); (js "A", CString (js "z")) ]
       (Some [ (js "A", js "__proto__") ])
     = {[ js "__proto__" := CString (js "z") ]}.
Proof. split; vm_compute; reflexivity. Qed.

Lemma not_elem_of_dec (k : str) (l : list str) :
  forallb (fun p => negb (bool_decide (k = p))) l = true -> k ∉ l.
Proof.
  intros H Hin. rewrite forallb_forall in H.
  apply list_elem_of_In, H, negb_true_iff, bool_decide_eq_false in Hin.
  now apply Hin.
Qed.

Lemma Forall_keys_dec (P : str -> Prop) (p : str -> bool) (l : list str) :
  (forall k, p k = true -> P k) ->
  forallb p l = true -> forall k, k ∈ l -> P k.
Proof.
  intros Hp H k Hk. rewrite forallb_forall in H.
  apply Hp, H. now apply list_elem_of_In.
Qed.

Lemma mapColumns_remap_witness :
  mapColumns asciiLower exampleRow None !! js "postal_code"
  = Some (CString (js "10115")).
Proof.
  destruct (mapColumns_remap asciiLower exampleRow None) as (_ & H & _).
  destruct H as (_ & _ & H).
  - apply (Forall_keys_dec _
             (fun k => forallb (fun p => negb (bool_decide (asciiLower k = p)))
                         OBJECT_PROTOTYPE_KEYS)).
    + intros k. apply not_elem_of_dec.
    + vm_compute. reflexivity.
  - apply not_elem_of_dec. vm_compute. reflexivity.
  - apply (H ltac:(vm_compute; repeat constructor; intros E;
                   repeat (apply elem_of_cons in E as [E|E]; [discriminate E|]);
                   now apply elem_of_nil in E)
             (js "PLZ") (CString (js "10115"))).
    unfold exampleRow. do 3 right. left.
Defined.

(** C5, counterexample: a passthrough column named like a canonical
    field and an aliased column meet under one output key, and the
    value read first is lost. *)
Lemma mapColumns_collision_counterexample :
  mapColumns asciiLower
    [ (js "first_name", CString (js "Erika")); (js "Vorname", CString (js "Max")) ]
    None
  = {[ js "first_name" := CString (js "Max") ]}
  /\ ~ no_value_dropped_as_stated.
Proof.
  split; [vm_compute; reflexivity|].
  intros H.
  specialize (H asciiLower
    [ (js "first_name", CString (js "Erika")); (js "Vorname", CString (js "Max")) ]
    None).
  assert (Hnd : NoDup [js "first_name"; js "Vorname"]).
  { repeat constructor; intros E;
      repeat (apply elem_of_cons in E as [E|E]; [discriminate E|]);
      now apply elem_of_nil in E. }
  specialize (H Hnd (js "first_name") (CString (js "Erika")) ltac:(left)).
  vm_compute in H. discriminate H.
Qed.

(** ** The warnings map *)

Lemma indexed_snoc {A} (l : list A) (x : A) :
  indexed (l ++ [x]) = indexed l ++ [(length l, x)].
Proof.
  unfold indexed. rewrite imap_app. simpl. do 3 f_equal. lia.
Qed.

Lemma entryGet_elem {K V} `{EqDecision K} (entries : list (K * V)) k v :
  entryGet entries k = Some v -> (k, v) ∈ entries.
Proof.
  induction entries as [|[k' v'] rest IH]; simpl; [discriminate|].
  destruct (decide (k' = k)) as [->|].
  - intros [= ->]. left.
  - intros H. right. now apply IH.
Qed.

Lemma entrySet_elem {K V} `{EqDecision K} (entries : list (K * V)) k v e :
  e ∈ entrySet entries k v -> e = (k, v) \/ e ∈ entries.
Proof.
  induction entries as [|[k' v'] rest IH]; simpl.
  - intros H. apply list_elem_of_singleton in H. now left.
  - destruct (decide (k' = k)) as [->|].
    + intros H. apply elem_of_cons in H as [->|H]; [now left|].
      right. now right.
    + intros H. apply elem_of_cons in H as [->|H]; [right; left|].
      apply IH in H as [->|H]; [now left | right; now right].
Qed.

Lemma validateMaxLengths_not_unique row :
  UNIQUE_WARNING ∉ validateMaxLengths row.
Proof.
  rewrite validateMaxLengths_parts, !elem_of_app. intros [H|[H|H]].
  - unfold unmappedWarnings in H.
    destruct (LAND_UNMAPPED_ORIGINAL row) as [o|]; [destruct (nonEmpty o)|];
      try (now apply elem_of_nil in H).
    apply list_elem_of_singleton in H. tag_clash H.
  - apply list_elem_of_In, in_flat_map in H as (col & Hcol & H).
    apply list_elem_of_In, limits_key in Hcol as [maxLen Hcol].
    rewrite (fieldWarnings_limit _ _ _ Hcol) in H.
    destruct (maxLen <? _); [|destruct H].
    destruct H as [H|[]]. symmetry in H.
    limit_cases Hcol; tag_clash H.
  - unfold fullAddressWarnings in H.
    destruct (72 <? _); [|now apply elem_of_nil in H].
    apply list_elem_of_singleton in H. tag_clash H.
Qed.

Lemma rowEntry_nonempty row ws : rowEntry row = Some ws -> ws <> [].
Proof.
  unfold rowEntry. destruct (0 <? _) eqn:E; [|discriminate].
  intros [= <-] Hnil. rewrite Hnil in E. discriminate.
Qed.

(** After the first loop the map holds the non-empty per-row lists, and
    every group of the index lists the positions, each once, of rows
    carrying its REFERENZ. *)
Lemma collected_invariant (rows : list MappedAddress) :
  (forall i, (collected rows).1 !! i = rows !! i ≫= rowEntry)
  /\ (forall ref indices,
        (ref, indices) ∈ (collected rows).2 ->
        NoDup indices
        /\ forall idx, idx ∈ indices ->
             exists r, rows !! idx = Some r /\ REFERENZ r = ref).
Proof.
  unfold collected. induction rows as [|r rows IH] using rev_ind.
  - simpl. split.
    + intros i. now rewrite lookup_empty.
    + intros ref indices H. now apply elem_of_nil in H.
  - rewrite indexed_snoc, foldl_app. simpl.
    destruct (foldl collectRow (∅, []) (indexed rows)) as [wm rim] eqn:E.
    simpl in IH. destruct IH as [IHw IHr]. unfold collectRow. simpl. split.
    + intros i. destruct (decide (i = length rows)) as [->|Hne].
      * rewrite lookup_app_r by lia. rewrite Nat.sub_diag. simpl.
        unfold rowEntry. destruct (0 <? _).
        -- now rewrite lookup_insert_eq.
        -- rewrite IHw. rewrite lookup_ge_None_2 by lia. reflexivity.
      * assert (Hw : (if 0 <? length (validateMaxLengths r)
                      then <[length rows := validateMaxLengths r]> wm
                      else wm) !! i = wm !! i).
        { destruct (0 <? _); [|reflexivity].
          now rewrite lookup_insert_ne by congruence. }
        rewrite Hw, IHw.
        destruct (decide (i < length rows)).
        -- now rewrite lookup_app_l by lia.
        -- rewrite !lookup_ge_None_2; [reflexivity | | lia].
           rewrite length_app. simpl. lia.
    + intros ref indices H. apply entrySet_elem in H as [[= -> ->]|H].
      * assert (Hold : NoDup (default [] (entryGet rim (REFERENZ r)))
                 /\ forall idx, idx ∈ default [] (entryGet rim (REFERENZ r)) ->
                      exists r', rows !! idx = Some r' /\ REFERENZ r' = REFERENZ r).
        { destruct (entryGet rim (REFERENZ r)) as [old|] eqn:Eg; simpl.
          - apply entryGet_elem in Eg. now apply IHr.
          - split; [constructor|]. intros idx Hidx. now apply elem_of_nil in Hidx. }
        destruct Hold as [Hnd Hold]. split.
        -- apply NoDup_app. split; [exact Hnd|]. split; [|apply NoDup_singleton].
           intros idx Hidx Hlast. apply list_elem_of_singleton in Hlast. subst idx.
           apply Hold in Hidx as (r' & Hr' & _).
           apply lookup_lt_Some in Hr'. lia.
        -- intros idx Hidx. apply elem_of_app in Hidx as [Hidx|Hidx].
           ++ apply Hold in Hidx as (r' & Hr' & Href). exists r'. split; [|exact Href].
              rewrite lookup_app_l; [exact Hr'|]. now apply lookup_lt_Some in Hr'.
           ++ apply list_elem_of_singleton in Hidx. subst idx. exists r.
              split; [|reflexivity].
              rewrite lookup_app_r by lia. now rewrite Nat.sub_diag.
      * destruct (IHr _ _ H) as [Hnd Hall]. split; [exact Hnd|].
        intros idx Hidx. apply Hall in Hidx as (r' & Hr' & Href).
        exists r'. split; [|exact Href].
        rewrite lookup_app_l; [exact Hr'|]. now apply lookup_lt_Some in Hr'.
Qed.

Lemma foldl_flagIndex_other indices (wm : gmap nat (list str)) i :
  i ∉ indices -> foldl flagIndex wm indices !! i = wm !! i.
Proof.
  revert wm. induction indices as [|idx indices IH]; intros wm H; simpl;
    [reflexivity|].
  apply not_elem_of_cons in H as [Hne H]. rewrite IH by exact H.
  unfold flagIndex. now rewrite lookup_insert_ne by congruence.
Qed.

Lemma foldl_flagIndex_nonempty indices (wm : gmap nat (list str)) :
  allNonEmpty wm -> allNonEmpty (foldl flagIndex wm indices).
Proof.
  revert wm. induction indices as [|idx indices IH]; intros wm H; simpl;
    [exact H|].
  apply IH. intros k ws. unfold flagIndex.
  destruct (decide (idx = k)) as [->|Hne].
  - rewrite lookup_insert_eq. intros [= <-] Hnil.
    apply app_eq_nil in Hnil as [_ Hnil]. discriminate.
  - rewrite lookup_insert_ne by exact Hne. apply H.
Qed.

Lemma flagGroup_unfold wm group :
  flagGroup wm group
  = if 1 <? length group.2 then foldl flagIndex wm group.2 else wm.
Proof. reflexivity. Qed.

Lemma foldl_flagGroup_other groups (wm : gmap nat (list str)) i :
  (forall group, group ∈ groups -> 1 < length group.2 -> i ∉ group.2) ->
  foldl flagGroup wm groups !! i = wm !! i.
Proof.
  revert wm. induction groups as [|g groups IH]; intros wm H; simpl;
    [reflexivity|].
  rewrite IH by (intros g' Hg'; apply H; now right).
  rewrite flagGroup_unfold. destruct (1 <? length g.2) eqn:E; [|reflexivity].
  apply foldl_flagIndex_other. apply H; [left | now apply Nat.ltb_lt].
Qed.

Lemma foldl_flagGroup_nonempty groups (wm : gmap nat (list str)) :
  allNonEmpty wm -> allNonEmpty (foldl flagGroup wm groups).
Proof.
  revert wm. induction groups as [|g groups IH]; intros wm H; simpl; [exact H|].
  apply IH. rewrite flagGroup_unfold. destruct (1 <? _); [|exact H].
  now apply foldl_flagIndex_nonempty.
Qed.

Lemma buildWarnings_collected rows :
  buildWarnings rows = foldl flagGroup (collected rows).1 (collected rows).2.
Proof.
  unfold buildWarnings, collected.
  now destruct (foldl collectRow (∅, []) (indexed rows)).
Qed.

Lemma NoDup_other_element (l : list nat) i :
  NoDup l -> i ∈ l -> 1 < length l -> exists j, j ∈ l /\ j <> i.
Proof.
  intros Hnd Hi Hlen. destruct l as [|a [|b l]]; simpl in Hlen; try lia.
  apply NoDup_cons in Hnd as [Hab _].
  destruct (decide (a = i)) as [->|Hne].
  - exists b. split; [right; left|]. intros ->. apply Hab. left.
  - exists a. split; [left | exact Hne].
Qed.

(** A row whose REFERENZ no other row carries is left alone by the
    second loop. *)
Lemma buildWarnings_unique rows i :
  uniqueReference rows i -> buildWarnings rows !! i = rows !! i ≫= rowEntry.
Proof.
  intros Huniq. rewrite buildWarnings_collected.
  destruct (collected_invariant rows) as [Hw Hr].
  rewrite foldl_flagGroup_other; [apply Hw|].
  intros [ref indices] Hg Hlen Hi. simpl in *.
  destruct (Hr _ _ Hg) as [Hnd Hall].
  destruct (NoDup_other_element _ _ Hnd Hi Hlen) as (j & Hj & Hne).
  destruct (Hall _ Hi) as (r & Hri & Href).
  destruct (Hall _ Hj) as (r' & Hrj & Href').
  apply Hne. eapply Huniq; eauto. congruence.
Qed.

(** ** C10: only rows with warnings have an entry *)

(** C10. Every key of the warnings map is bound to a non-empty list,
    and a row that passes the length checks and shares its REFERENZ
    with no other row has no entry at all. *)
Theorem buildWarnings_entries (rows : list MappedAddress) :
  (forall i ws, buildWarnings rows !! i = Some ws -> ws <> [])
  /\ (forall i r,
        rows !! i = Some r ->
        validateMaxLengths r = [] ->
        uniqueReference rows i ->
        buildWarnings rows !! i = None).
Proof.
  split.
  - rewrite buildWarnings_collected. apply foldl_flagGroup_nonempty.
    intros k ws H. destruct (collected_invariant rows) as [Hw _].
    rewrite Hw in H. destruct (rows !! k) as [r|]; [|discriminate].
    simpl in H. now apply rowEntry_nonempty in H.
  - intros i r Hr Hv Hu. rewrite buildWarnings_unique by exact Hu.
    rewrite Hr. simpl. unfold rowEntry. now rewrite Hv.
Qed.

Lemma buildWarnings_entries_witness :
  buildWarnings [exampleRecord; setREFERENZ longLandRecord 2] !! 0 = None.
Proof.
  apply (proj2 (buildWarnings_entries
                  [exampleRecord; setREFERENZ longLandRecord 2])
           0 exampleRecord).
  - reflexivity.
  - vm_compute. reflexivity.
  - intros j r r' Hr Hr' E. destruct j as [|[|j]]; [reflexivity | | discriminate].
    exfalso. injection Hr as <-. injection Hr' as <-. simpl in E. discriminate E.
Defined.

(** ** C6: deleting a row *)

Lemma filter_index_all {A} (l : list A) k i :
  i < k ->
  (List.filter (fun '(idx, _) => negb (idx =? i))
     (imap (fun j x => (k + j, x)) l)).*2 = l.
Proof.
  revert k. induction l as [|x l IH]; intros k Hk; [reflexivity|].
  rewrite imap_cons. simpl. rewrite Nat.add_0_r.
  destruct (Nat.eqb_spec k i) as [->|_]; [lia|]. simpl. f_equal.
  rewrite <- (IH (S k)) at 2 by lia. do 2 f_equal.
  apply imap_ext. intros j y _. simpl. f_equal. lia.
Qed.

Lemma filter_index_delete {A} (l : list A) k i :
  (List.filter (fun '(idx, _) => negb (idx =? k + i))
     (imap (fun j x => (k + j, x)) l)).*2 = delete i l.
Proof.
  revert k i. induction l as [|x l IH]; intros k i; [reflexivity|].
  rewrite imap_cons. simpl. rewrite Nat.add_0_r. destruct i as [|i].
  - rewrite Nat.add_0_r, Nat.eqb_refl. simpl.
    rewrite <- (filter_index_all l (S k) k) at 2 by lia. do 2 f_equal.
    apply imap_ext. intros j y _. simpl. f_equal. lia.
  - destruct (Nat.eqb_spec k (k + S i)) as [E|_]; [lia|]. simpl. f_equal.
    rewrite <- (IH (S k) i). f_equal.
    replace (k + S i) with (S k + i) by lia. f_equal.
    apply imap_ext. intros j y _. simpl. f_equal. lia.
Qed.

Lemma filter_indexed_delete {A} (l : list A) i :
  (List.filter (fun '(idx, _) => negb (idx =? i)) (indexed l)).*2 = delete i l.
Proof. exact (filter_index_delete l 0 i). Qed.

Lemma handleDeleteRow_data st i :
  i < length (mappedData st) ->
  mappedData (handleDeleteRow i st)
  = imap (fun idx row => setREFERENZ row (Z.of_nat idx + 1))
      (delete i (mappedData st))
  /\ warnings (handleDeleteRow i st)
     = buildWarnings (mappedData (handleDeleteRow i st)).
Proof.
  intros Hi. unfold handleDeleteRow.
  destruct (mappedData st !! i) as [r|] eqn:E.
  - simpl. rewrite filter_indexed_delete. split; reflexivity.
  - apply lookup_ge_None in E. lia.
Qed.

Lemma setREFERENZ_same r : setREFERENZ r (REFERENZ r) = r.
Proof. now destruct r. Qed.

Lemma contiguous_unique rows i : contiguous rows -> uniqueReference rows i.
Proof.
  intros Hc j r r' Hr Hr' E. apply Hc in Hr, Hr'. lia.
Qed.

(** C6. Deleting the row at a valid index of a set numbered 1..N leaves
    N-1 rows in their former order, the rows before the index
    untouched and the later ones renumbered, so that the set is again
    numbered 1..N-1; the warnings are rebuilt from that set and hold no
    uniqueness warning. *)
Theorem handleDeleteRow_compacts (st : AppState) (i : nat) :
  let rows := mappedData st in
  let st' := handleDeleteRow i st in
  contiguous rows ->
  i < length rows ->
  length (mappedData st') = length rows - 1
  /\ (forall j, j < i -> mappedData st' !! j = rows !! j)
  /\ (forall j, i <= j ->
        mappedData st' !! j
        = (fun r => setREFERENZ r (Z.of_nat j + 1)) <$> rows !! S j)
  /\ contiguous (mappedData st')
  /\ warnings st' = buildWarnings (mappedData st')
  /\ (forall j ws, warnings st' !! j = Some ws -> UNIQUE_WARNING ∉ ws).
Proof.
  intros rows st' Hc Hi.
  destruct (handleDeleteRow_data st i Hi) as [Hd Hw]. fold st' rows in Hd, Hw.
  assert (Hc' : contiguous (mappedData st')).
  { intros j r. rewrite Hd, list_lookup_imap.
    destruct (delete i rows !! j); [|discriminate]. now intros [= <-]. }
  split; [|split; [|split; [|split; [|split]]]].
  - rewrite Hd, length_imap, length_delete; [reflexivity|].
    apply lookup_lt_is_Some_2. exact Hi.
  - intros j Hj. rewrite Hd, list_lookup_imap, list_lookup_delete_lt by exact Hj.
    destruct (rows !! j) as [r|] eqn:E; [|reflexivity]. simpl.
    rewrite <- (Hc _ _ E). now rewrite setREFERENZ_same.
  - intros j Hj. now rewrite Hd, list_lookup_imap, list_lookup_delete_ge.
  - exact Hc'.
  - exact Hw.
  - intros j ws. rewrite Hw.
    rewrite buildWarnings_unique by now apply contiguous_unique.
    destruct (mappedData st' !! j) as [r|]; [|discriminate]. simpl.
    unfold rowEntry. destruct (0 <? _); [|discriminate].
    intros [= <-]. apply validateMaxLengths_not_unique.
Qed.

Lemma handleDeleteRow_compacts_witness :
  mappedData
    (handleDeleteRow 0
       {| mappedData := [exampleRecord; setREFERENZ longLandRecord 2];
          warnings := ∅; error := [] |})
    !! 0
  = Some longLandRecord.
Proof.
  destruct (handleDeleteRow_compacts
              {| mappedData := [exampleRecord; setREFERENZ longLandRecord 2];
                 warnings := ∅; error := [] |} 0) as (_ & _ & H & _).
  - intros j r Hr. destruct j as [|[|j]]; [| |discriminate];
      injection Hr as <-; reflexivity.
  - simpl. lia.
  - rewrite (H 0) by lia. reflexivity.
Defined.

(** ** C7: a missing required mapping blocks the batch *)

Lemma elem_of_missingRequired selections f :
  f ∈ missingRequired selections
  <-> f ∈ TARGET_FIELDS /\ required f = true
      /\ selected selections (key f) = false.
Proof.
  unfold missingRequired.
  rewrite list_elem_of_In, filter_In, andb_true_iff, negb_true_iff.
  now rewrite list_elem_of_In.
Qed.

Section Remapping.

Variable toLowerCase : str -> str.
Variable countriesData : list Country.

(** C7. For a non-empty batch, when some required target field has no
    source column selected, re-mapping leaves no mapped record and no
    warning, and sets one error message that lists the labels of all
    the required fields that miss a column. *)
Theorem recalcMapping_missing_required
    (data : list RawRow) (selections : Selections) (st : AppState) :
  let st' := recalcMapping toLowerCase countriesData data selections st in
  data <> [] ->
  (exists f, f ∈ TARGET_FIELDS /\ required f = true
             /\ selected selections (key f) = false) ->
  mappedData st' = []
  /\ warnings st' = ∅
  /\ error st'
     = js "Please map required fields: "
       ++ join (js ", ") (map label (missingRequired selections))
  /\ (forall f,
        f ∈ missingRequired selections
        <-> f ∈ TARGET_FIELDS /\ required f = true
            /\ selected selections (key f) = false)
  /\ map key (List.filter required TARGET_FIELDS)
     = [ js "first_name"; js "last_name"; js "street"; js "postal_code";
         js "city"; js "country" ].
Proof.
  intros st' Hdata (f & Hf).
  assert (Hmiss : (0 <? length (missingRequired selections)) = true).
  { apply elem_of_missingRequired in Hf.
    destruct (missingRequired selections); [now apply elem_of_nil in Hf|].
    reflexivity. }
  unfold st', recalcMapping.
  destruct data as [|row data]; [congruence|].
  change (length (row :: data) =? 0) with false. cbv iota.
  fold (missingRequired selections). rewrite Hmiss.
  split; [reflexivity|]. split; [reflexivity|]. split; [reflexivity|].
  split; [apply elem_of_missingRequired | reflexivity].
Qed.

End Remapping.

Lemma recalcMapping_missing_required_witness :
  error
    (recalcMapping asciiLower sampleCountries [exampleRow]
       [ (js "first_name", Some (js "Vorname")); (js "last_name", Some (js "Name"));
         (js "street", Some (js "Adresse1")); (js "postal_code", None) ]
       {| mappedData := [exampleRecord]; warnings := ∅; error := [] |})
  = js "Please map required fields: PLZ, Ort, Land".
Proof.
  destruct (recalcMapping_missing_required asciiLower sampleCountries
              [exampleRow]
              [ (js "first_name", Some (js "Vorname"));
                (js "last_name", Some (js "Name"));
                (js "street", Some (js "Adresse1"));
                (js "postal_code", None) ]
              {| mappedData := [exampleRecord]; warnings := ∅; error := [] |})
    as (_ & _ & H & _).
  - discriminate.
  - exists {| key := js "city"; label := js "Ort"; required := true |}.
    split; [unfold TARGET_FIELDS; do 6 right; left|]. split; reflexivity.
  - rewrite H. vm_compute. reflexivity.
Defined.

(** ** C8: Windows-1252 round trip *)

Lemma elem_of_allBytes b : (b <= 0xFF)%N -> b ∈ allBytes.
Proof.
  intros H. unfold allBytes. apply list_elem_of_fmap.
  exists (N.to_nat b). split; [now rewrite N2Nat.id|].
  apply list_elem_of_In, in_seq. lia.
Qed.

Lemma decodeByte_range b c : decodeByte b = Some c -> (b <= 0xFF)%N.
Proof.
  unfold decodeByte.
  destruct (N.ltb_spec b 0x80); [lia|].
  destruct (N.ltb_spec b 0xA0); [lia|].
  destruct (N.leb_spec b 0xFF); [lia | discriminate].
Qed.

(** A check on every byte extends to every decodable byte. *)
Lemma decodeByte_forall (P : N -> N -> bool) :
  forallb (fun b => match decodeByte b with
                    | Some c => P b c
                    | None => true
                    end) allBytes = true ->
  forall b c, decodeByte b = Some c -> P b c = true.
Proof.
  intros H b c Hb. rewrite forallb_forall in H.
  specialize (H b). rewrite Hb in H. apply H.
  apply list_elem_of_In, elem_of_allBytes. eapply decodeByte_range, Hb.
Qed.

(** The encoder inverts the codepage. *)
Lemma encode_decodeByte b c : decodeByte b = Some c -> encodeCodePoint c = b.
Proof.
  intros H. apply N.eqb_eq.
  revert b c H. apply (decodeByte_forall (fun b c => encodeCodePoint c =? b)%N).
  vm_compute. reflexivity.
Qed.

Lemma representable_decode c :
  representable c -> decodeByte (encodeCodePoint c) = Some c.
Proof. intros [b Hb]. now rewrite (encode_decodeByte b c Hb). Qed.

Lemma representable_below_surrogates c : representable c -> (c < 0xD800)%N.
Proof.
  intros [b Hb]. apply N.ltb_lt.
  revert b c Hb. apply (decodeByte_forall (fun _ c => c <? 0xD800)%N).
  vm_compute. reflexivity.
Qed.

(** The characters of the codepage are those the encoder transmits:
    the two pass-through ranges and the keys of its table. *)
Lemma representable_iff c :
  representable c
  <-> (c <= 0x7F)%N \/ (0xA0 <= c <= 0xFF)%N
      \/ is_Some (entryGet CP1252_CODEPOINT_TO_BYTE c).
Proof.
  split.
  - intros [b Hb].
    assert (H : ((c <=? 0x7F) || ((0xA0 <=? c) && (c <=? 0xFF))
                 || bool_decide (is_Some (entryGet CP1252_CODEPOINT_TO_BYTE c)))%N
                = true).
    { revert b c Hb.
      apply (decodeByte_forall
               (fun _ c => (c <=? 0x7F) || ((0xA0 <=? c) && (c <=? 0xFF))
                  || bool_decide (is_Some (entryGet CP1252_CODEPOINT_TO_BYTE c)))%N).
      vm_compute. reflexivity. }
    apply orb_true_iff in H as [H|H]; [apply orb_true_iff in H as [H|H]|].
    + left. now apply N.leb_le.
    + right. left. apply andb_true_iff in H as [H1 H2].
      apply N.leb_le in H1, H2. lia.
    + right. right. now apply bool_decide_eq_true in H.
  - intros [H|[H|H]].
    + exists c. unfold decodeByte. destruct (N.ltb_spec c 0x80); [reflexivity | lia].
    + exists c. unfold decodeByte.
      destruct (N.ltb_spec c 0x80); [lia|].
      destruct (N.ltb_spec c 0xA0); [lia|].
      destruct (N.leb_spec c 0xFF); [reflexivity | lia].
    + destruct H as [b Hb]. exists b.
      apply entryGet_elem in Hb. unfold CP1252_CODEPOINT_TO_BYTE in Hb.
      repeat (apply elem_of_cons in Hb as [[= -> ->]|Hb]; [reflexivity|]).
      now apply elem_of_nil in Hb.
Qed.

Lemma codePoints_representable s :
  Forall representable (codePoints s) -> codePoints s = s.
Proof.
  induction s as [|c r IH]; [reflexivity|]. simpl.
  destruct (isHighSurrogate c) eqn:Eh.
  - intros H. exfalso.
    assert (Hc : (0xD800 <= c)%N).
    { unfold isHighSurrogate in Eh. apply andb_true_iff in Eh as [Eh _].
      now apply N.leb_le. }
    destruct r as [|d r'].
    + apply Forall_cons in H as [H _].
      apply representable_below_surrogates in H. lia.
    + destruct (isLowSurrogate d); apply Forall_cons in H as [H _];
        apply representable_below_surrogates in H; lia.
  - intros H. apply Forall_cons in H as [_ H]. now rewrite IH.
Qed.

Lemma decode_encode_codepoints (l : list N) :
  Forall representable l -> decodeCP1252 (map encodeCodePoint l) = Some l.
Proof.
  induction 1 as [|c l Hc _ IH]; simpl; [reflexivity|].
  now rewrite (representable_decode c Hc), IH.
Qed.

Lemma codePoints_units s :
  Forall (fun c => isHighSurrogate c = false) s -> codePoints s = s.
Proof.
  induction 1 as [|c r Hc _ IH]; simpl; [reflexivity|]. now rewrite Hc, IH.
Qed.

Lemma umlautChars_representable c :
  c ∈ umlautChars -> representable c /\ isHighSurrogate c = false.
Proof.
  intros H. vm_compute in H.
  repeat (apply elem_of_cons in H as [->|H]);
    try (now apply elem_of_nil in H);
    (split; [|reflexivity]); apply representable_iff;
    first [ left; vm_compute; discriminate
          | right; left; split; vm_compute; discriminate
          | right; right; vm_compute; eauto ].
Qed.

(** C8. A string whose characters all belong to the Windows-1252
    codepage is recovered exactly by decoding its encoding, in
    particular every string over the letters with umlaut, the sharp s,
    the euro sign and the double quote; the encoder passes 0x00-0x7F
    and 0xA0-0xFF through and takes the other characters of the
    codepage, which are the keys of its table, from that table. *)
Theorem cp1252_round_trip (s : str) :
  (Forall representable (codePoints s) ->
   decodeCP1252 (toCP1252Bytes s) = Some s)
  /\ (Forall (fun c => c ∈ umlautChars) s ->
      decodeCP1252 (toCP1252Bytes s) = Some s)
  /\ (forall c,
        ((c <= 0x7F)%N \/ (0xA0 <= c <= 0xFF)%N -> encodeCodePoint c = c)
        /\ (forall b, entryGet CP1252_CODEPOINT_TO_BYTE c = Some b ->
                      encodeCodePoint c = b)
        /\ (representable c
            <-> (c <= 0x7F)%N \/ (0xA0 <= c <= 0xFF)%N
                \/ is_Some (entryGet CP1252_CODEPOINT_TO_BYTE c))).
Proof.
  assert (Hround : Forall representable (codePoints s) ->
                   decodeCP1252 (toCP1252Bytes s) = Some s).
  { intros H. unfold toCP1252Bytes. rewrite decode_encode_codepoints by exact H.
    now rewrite codePoints_representable. }
  split; [exact Hround|]. split.
  - intros H. apply Hround. rewrite codePoints_units.
    + eapply Forall_impl; [exact H|]. intros c Hc.
      now apply umlautChars_representable.
    + eapply Forall_impl; [exact H|]. intros c Hc.
      now apply umlautChars_representable.
  - intros c. split; [|split; [|apply representable_iff]].
    + intros Hc. unfold encodeCodePoint.
      destruct (N.leb_spec c 0x7f); [reflexivity|].
      destruct (N.leb_spec 0xa0 c); [|lia].
      destruct (N.leb_spec c 0xff); [reflexivity | lia].
    + intros b Hb. apply encode_decodeByte.
      apply entryGet_elem in Hb. unfold CP1252_CODEPOINT_TO_BYTE in Hb.
      repeat (apply elem_of_cons in Hb as [[= -> ->]|Hb]; [reflexivity|]).
      now apply elem_of_nil in Hb.
Qed.

Lemma cp1252_round_trip_witness :
  toCP1252Bytes umlautSample = [0x80; 0xFC; 0x22; 0xDF; 0xE4; 0xF6; 0x22]%N
  /\ decodeCP1252 (toCP1252Bytes umlautSample) = Some umlautSample.
Proof.
  split; [vm_compute; reflexivity|].
  apply (proj1 (proj2 (cp1252_round_trip umlautSample))).
  vm_compute. repeat constructor.
Defined.

(** ** C9: whitespace normalization *)

Lemma trimStart_stops s : stopsAt isWhiteSpace (trimStart s).
Proof.
  induction s as [|c r IH]; simpl; [exact I|].
  destruct (isWhiteSpace c) eqn:E; [exact IH | exact E].
Qed.

Lemma trimStart_fix s : stopsAt isWhiteSpace s -> trimStart s = s.
Proof. destruct s as [|c r]; simpl; [reflexivity|]. now intros ->. Qed.

Lemma trimEnd_cons c s :
  trimEnd s = s -> s <> [] \/ isWhiteSpace c = false ->
  trimEnd (c :: s) = c :: s.
Proof.
  intros Hs H. simpl. rewrite Hs. destruct s as [|d s]; [|reflexivity].
  destruct H as [H|H]; [congruence | now rewrite H].
Qed.

Lemma trimEnd_idem s : trimEnd (trimEnd s) = trimEnd s.
Proof.
  induction s as [|c r IH]; simpl; [reflexivity|].
  destruct (trimEnd r) as [|d t] eqn:E.
  - destruct (isWhiteSpace c) eqn:Ec; simpl; [reflexivity | now rewrite Ec].
  - apply trimEnd_cons; [exact IH | left; discriminate].
Qed.

Lemma trimEnd_stops s : stopsAt isWhiteSpace s -> stopsAt isWhiteSpace (trimEnd s).
Proof.
  destruct s as [|c r]; simpl; [trivial|]. intros Hc.
  destruct (trimEnd r); [now rewrite Hc | exact Hc].
Qed.

Lemma trim_stops s : stopsAt isWhiteSpace (trim s).
Proof. apply trimEnd_stops, trimStart_stops. Qed.

Lemma trim_idem s : trim (trim s) = trim s.
Proof.
  unfold trim at 1. rewrite trimStart_fix by apply trim_stops.
  apply trimEnd_idem.
Qed.

Lemma trimEnd_trim s : trimEnd (trim s) = trim s.
Proof. apply trimEnd_idem. Qed.

Lemma collapseFrom_true_stops s : stopsAt isWhiteSpace (collapseFrom true s).
Proof.
  induction s as [|c r IH]; simpl; [exact I|].
  destruct (isWhiteSpace c) eqn:E; [exact IH | exact E].
Qed.

Lemma collapseFrom_singleSpaced b s : singleSpaced (collapseFrom b s) = true.
Proof.
  revert b. induction s as [|c r IH]; intros b; simpl; [reflexivity|].
  destruct (isWhiteSpace c) eqn:E.
  - destruct b; [apply IH|]. simpl. rewrite IH, andb_true_r.
    pose proof (collapseFrom_true_stops r) as H.
    destruct (collapseFrom true r); simpl in *; [reflexivity | now rewrite H].
  - simpl. now rewrite E, IH.
Qed.

Lemma collapseFrom_nil b s : collapseFrom b s = [] -> trimEnd s = [].
Proof.
  revert b. induction s as [|c r IH]; intros b; simpl; [reflexivity|].
  destruct (isWhiteSpace c); [|discriminate].
  destruct b; [|discriminate]. intros H. now rewrite (IH _ H).
Qed.

Lemma collapseFrom_trimEnd b s :
  trimEnd s = s -> trimEnd (collapseFrom b s) = collapseFrom b s.
Proof.
  revert b. induction s as [|c r IH]; intros b Hs; [reflexivity|].
  assert (Hr : trimEnd r = r /\ (r <> [] \/ isWhiteSpace c = false)).
  { simpl in Hs. destruct (trimEnd r) as [|d t] eqn:E.
    - destruct (isWhiteSpace c); [discriminate|].
      injection Hs as <-. split; [reflexivity | now right].
    - injection Hs as <-. split; [reflexivity | left; discriminate]. }
  destruct Hr as [Hr Hne]. simpl.
  destruct (isWhiteSpace c) eqn:Ec.
  - destruct Hne as [Hne|]; [|discriminate].
    destruct b; [now apply IH|].
    apply trimEnd_cons; [now apply IH|]. left. intros Hnil.
    apply collapseFrom_nil in Hnil. congruence.
  - apply trimEnd_cons; [now apply IH | now right].
Qed.

Lemma collapseFrom_false_stops s :
  stopsAt isWhiteSpace s -> stopsAt isWhiteSpace (collapseFrom false s).
Proof.
  destruct s as [|c r]; simpl; [trivial|]. intros H. rewrite H. exact H.
Qed.

Lemma collapseFrom_fix b s :
  singleSpaced s = true -> (b = true -> stopsAt isWhiteSpace s) ->
  collapseFrom b s = s.
Proof.
  revert b. induction s as [|c r IH]; intros b Hs Hb; [reflexivity|].
  simpl in Hs. apply andb_true_iff in Hs as [Hc Hs]. simpl.
  destruct (isWhiteSpace c) eqn:Ec.
  - destruct b; [specialize (Hb eq_refl); simpl in Hb; congruence|].
    apply andb_true_iff in Hc as [Hsp Hnext]. apply N.eqb_eq in Hsp. subst c.
    f_equal. apply IH; [exact Hs|]. intros _.
    destruct r; simpl; [exact I | now apply negb_true_iff].
  - f_equal. apply IH; [exact Hs | discriminate].
Qed.

(** The output of the normalizer is normalized. *)
Lemma cleanValue_Normalized v : Normalized (cleanValue v).
Proof.
  unfold cleanValue. destruct (truthy v); simpl; [|split; reflexivity].
  unfold replaceWhitespaceRuns. split.
  - unfold trim. rewrite trimStart_fix
      by (apply collapseFrom_false_stops, trim_stops).
    apply collapseFrom_trimEnd, trimEnd_trim.
  - apply collapseFrom_singleSpaced.
Qed.

(** The normalizer leaves a normalized string unchanged. *)
Lemma Normalized_cleanValue s : Normalized s -> cleanValue (VString s) = s.
Proof.
  intros [Ht Hs]. unfold cleanValue. simpl.
  destruct s as [|c r]; [reflexivity|].
  cbn [nonEmpty negb]. rewrite Ht. unfold replaceWhitespaceRuns.
  apply collapseFrom_fix; [exact Hs | discriminate].
Qed.

Lemma Normalized_iff s : Normalized s <-> cleanValue (VString s) = s.
Proof.
  split; [apply Normalized_cleanValue|].
  intros <-. apply cleanValue_Normalized.
Qed.

Section Normalization.

Variable toLowerCase : str -> str.
Variable countriesData : list Country.

(** C9, as the code has it. The fields NAME, ZUSATZ, STRASSE, NUMMER,
    PLZ, STADT and ADRESS_TYP set by [mapRow] are whitespace-normalized
    and the normalizer leaves each of them unchanged. Unless the
    trimmed country cell, lower-cased, names a member inherited from
    [Object.prototype], LAND is the string DEU or a code of the country
    table, normalized given that the codes of the table are. The
    unmapped original, when present, is the text of the country cell
    trimmed at both ends and nothing more (whitespace inside it is
    kept); it is not empty and comes with LAND DEU. *)
Theorem mapRow_fields_normalized
    (row : RawRow) (index : nat) (mapping : option (list (str * str))) :
  (forall c, c ∈ countriesData -> Normalized (alpha3Code c)) ->
  let r := mapRow toLowerCase countriesData row index mapping in
  let cell := getProp (mapColumns toLowerCase row mapping) (js "country") in
  let cleaned :=
    [ NAME r; ZUSATZ r; STRASSE r; NUMMER r; PLZ r; STADT r; ADRESS_TYP r ] in
  Forall Normalized cleaned
  /\ Forall (fun field => cleanValue (VString field) = field) cleaned
  /\ (toLowerCase (trim (String_ cell)) ∉ OBJECT_PROTOTYPE_KEYS ->
      exists land,
        LAND r = VString land
        /\ Normalized land /\ cleanValue (VString land) = land
        /\ (land = js "DEU" \/ exists c, c ∈ countriesData /\ land = alpha3Code c))
  /\ (forall original,
        LAND_UNMAPPED_ORIGINAL r = Some original ->
        original = trim (String_ cell)
        /\ trim original = original /\ original <> []
        /\ LAND r = VString (js "DEU")).
Proof.
  intros Hcodes r cell cleaned.
  assert (Hall : Forall Normalized cleaned).
  { unfold cleaned, r, mapRow.
    destruct (splitStreetNumber _) as [strasse nummer].
    cbn [NAME ZUSATZ STRASSE NUMMER PLZ STADT ADRESS_TYP].
    repeat (apply Forall_cons; split); try apply cleanValue_Normalized;
      [|constructor].
    destruct (mapAddressType _); split; reflexivity. }
  assert (Hland : LAND r = code (mapCountry toLowerCase countriesData cell)).
  { unfold r, mapRow. destruct (splitStreetNumber _) as [strasse nummer].
    reflexivity. }
  assert (Horig : LAND_UNMAPPED_ORIGINAL r
                  = match unmappedOriginal
                            (mapCountry toLowerCase countriesData cell) with
                    | Some original =>
                        if nonEmpty original then Some original else None
                    | None => None
                    end).
  { unfold r, mapRow. destruct (splitStreetNumber _) as [strasse nummer].
    reflexivity. }
  destruct (mapCountry_result toLowerCase countriesData cell) as [Hcode Hres].
  cbv zeta in Hcode, Hres.
  split; [exact Hall|]. split; [|split].
  - eapply Forall_impl; [exact Hall|]. intros s. apply Normalized_cleanValue.
  - intros Hp. rewrite Hland.
    destruct Hcode as [H|[(c & Hc & _ & H)|[H _]]].
    + exists (js "DEU"). rewrite H.
      split; [reflexivity|]. split; [split; reflexivity|].
      split; [reflexivity | now left].
    + exists (alpha3Code c). rewrite H. split; [reflexivity|].
      split; [now apply Hcodes|].
      split; [now apply Normalized_cleanValue, Hcodes | eauto].
    + contradiction.
  - intros original. rewrite Horig, Hland.
    destruct (unmappedOriginal _) as [o|]; [|discriminate].
    destruct (nonEmpty o); [|discriminate]. intros [= <-].
    destruct (Hres o eq_refl) as (-> & Hne & Hdeu).
    split; [reflexivity|]. split; [apply trim_idem|]. split; assumption.
Qed.

End Normalization.

Lemma mapRow_fields_normalized_witness :
  let r := mapRow asciiLower sampleCountries exampleRow 0 None in
  Forall Normalized
    [ NAME r; ZUSATZ r; STRASSE r; NUMMER r; PLZ r; STADT r; ADRESS_TYP r ].
Proof.
  apply (mapRow_fields_normalized asciiLower sampleCountries exampleRow 0 None).
  intros c Hc. unfold sampleCountries in Hc.
  repeat (apply elem_of_cons in Hc as [->|Hc]; [split; reflexivity|]).
  now apply elem_of_nil in Hc.
Defined.

(** C9, counterexample: an unknown country written with two spaces is
    recorded with both of them. *)
Lemma unmapped_original_counterexample :
  LAND_UNMAPPED_ORIGINAL
    (mapRow asciiLower [] [(js "Land", CString (js " New  Atlantis "))] 0 None)
  = Some (js "New  Atlantis")
  /\ cleanValue (VString (js "New  Atlantis")) = js "New Atlantis"
  /\ ~ all_fields_normalized_as_stated.
Proof.
  split; [vm_compute; reflexivity|]. split; [vm_compute; reflexivity|].
  intros H.
  destruct (H asciiLower [] [(js "Land", CString (js " New  Atlantis "))] 0 None)
    as [_ Hu].
  - intros c Hc. now apply elem_of_nil in Hc.
  - destruct (Hu (js "New  Atlantis")) as [_ Hs]; [vm_compute; reflexivity|].
    vm_compute in Hs. discriminate Hs.
Qed.

(** * Further properties *)

(** ** The warnings map, entry by entry *)

Lemma entryGet_None {K V} `{EqDecision K} (entries : list (K * V)) k :
  entryGet entries k = None <-> k ∉ entries.*1.
Proof.
  induction entries as [|[k' v'] rest IH]; simpl.
  - split; [intros _ H; now apply elem_of_nil in H | reflexivity].
  - rewrite not_elem_of_cons. destruct (decide (k' = k)) as [->|Hne].
    + split; [discriminate | intros [H _]; congruence].
    + rewrite IH. split; [intros H; split; [congruence | exact H] | now intros [_ H]].
Qed.

Lemma entryGet_NoDup {K V} `{EqDecision K} (entries : list (K * V)) k v :
  NoDup entries.*1 -> (k, v) ∈ entries -> entryGet entries k = Some v.
Proof.
  induction entries as [|[k' v'] rest IH]; simpl; intros Hnd Hin.
  - now apply elem_of_nil in Hin.
  - apply NoDup_cons in Hnd as [Hk' Hnd].
    apply elem_of_cons in Hin as [[= -> ->]|Hin].
    + now rewrite decide_True.
    + destruct (decide (k' = k)) as [->|Hne]; [|now apply IH].
      exfalso. apply Hk'. apply list_elem_of_fmap. now exists (k, v).
Qed.

Lemma entrySet_keys {K V} `{EqDecision K} (entries : list (K * V)) k v :
  (entrySet entries k v).*1
  = if decide (k ∈ entries.*1) then entries.*1 else entries.*1 ++ [k].
Proof.
  induction entries as [|[k' v'] rest IH].
  - destruct (decide (k ∈ ([] : list (K * V)).*1)) as [Hin|_]; [|reflexivity].
    now apply elem_of_nil in Hin.
  - cbn [entrySet]. destruct (decide (k' = k)) as [->|Hne].
    + destruct (decide (k ∈ ((k, v') :: rest).*1)) as [_|Hnin]; [reflexivity|].
      exfalso. apply Hnin. left.
    + rewrite fmap_cons, IH. cbn [fst].
      destruct (decide (k ∈ rest.*1)) as [Hin|Hnin];
        destruct (decide (k ∈ ((k', v') :: rest).*1)) as [Hin'|Hnin'];
        try reflexivity.
      * exfalso. apply Hnin'. now right.
      * exfalso. apply elem_of_cons in Hin' as [Hin'|Hin']; simpl in *;
          [congruence | contradiction].
Qed.

Lemma entrySet_NoDup {K V} `{EqDecision K} (entries : list (K * V)) k v :
  NoDup entries.*1 -> NoDup (entrySet entries k v).*1.
Proof.
  intros H. rewrite entrySet_keys. destruct (decide _) as [|Hnin]; [exact H|].
  apply NoDup_app. split; [exact H|]. split; [|apply NoDup_singleton].
  intros x Hx Hk. apply list_elem_of_singleton in Hk. now subst.
Qed.

Lemma entrySet_same {K V} `{EqDecision K} (entries : list (K * V)) k v :
  (k, v) ∈ entrySet entries k v.
Proof.
  induction entries as [|[k' v'] rest IH]; simpl; [left|].
  destruct (decide (k' = k)); [left | now right].
Qed.

Lemma entrySet_other {K V} `{EqDecision K} (entries : list (K * V)) k v k' v' :
  k' <> k -> (k', v') ∈ entries -> (k', v') ∈ entrySet entries k v.
Proof.
  intros Hne. induction entries as [|[k0 v0] rest IH]; simpl; intros Hin.
  - now apply elem_of_nil in Hin.
  - apply elem_of_cons in Hin as [[= <- <-]|Hin].
    + rewrite decide_False by exact Hne. left.
    + destruct (decide (k0 = k)); right; [exact Hin | now apply IH].
Qed.

(** The groups of the first loop have distinct keys, and every row is
    listed in the group of its REFERENZ. *)
Lemma collected_groups (rows : list MappedAddress) :
  NoDup (collected rows).2.*1
  /\ forall i r, rows !! i = Some r ->
       exists indices, (REFERENZ r, indices) ∈ (collected rows).2 /\ i ∈ indices.
Proof.
  unfold collected. induction rows as [|r rows IH] using rev_ind.
  - simpl. split; [constructor | intros i r H; discriminate].
  - rewrite indexed_snoc, foldl_app. simpl.
    destruct (foldl collectRow (∅, []) (indexed rows)) as [wm rim] eqn:E.
    simpl in IH. destruct IH as [IHk IHc]. unfold collectRow. simpl. split.
    + now apply entrySet_NoDup.
    + intros i r' Hi. destruct (decide (i = length rows)) as [->|Hne].
      * rewrite lookup_app_r in Hi by lia. rewrite Nat.sub_diag in Hi.
        injection Hi as <-. eexists. split; [apply entrySet_same|].
        apply elem_of_app. right. left.
      * assert (Hlt : i < length rows).
        { apply lookup_lt_Some in Hi. rewrite length_app in Hi. simpl in Hi. lia. }
        rewrite lookup_app_l in Hi by exact Hlt.
        destruct (IHc _ _ Hi) as (indices & Hg & Hin).
        destruct (decide (REFERENZ r' = REFERENZ r)) as [Heq|Hneq].
        -- rewrite Heq in *. rewrite (entryGet_NoDup _ _ _ IHk Hg). simpl.
           eexists. split; [apply entrySet_same|].
           apply elem_of_app. now left.
        -- exists indices. split; [|exact Hin]. now apply entrySet_other.
Qed.

Lemma foldl_flagIndex_in indices (wm : gmap nat (list str)) i :
  NoDup indices -> i ∈ indices ->
  foldl flagIndex wm indices !! i
  = Some (default [] (wm !! i) ++ [UNIQUE_WARNING]).
Proof.
  revert wm. induction indices as [|idx indices IH]; intros wm Hnd Hin.
  - now apply elem_of_nil in Hin.
  - apply NoDup_cons in Hnd as [Hidx Hnd]. simpl.
    destruct (decide (idx = i)) as [->|Hne].
    + rewrite foldl_flagIndex_other by exact Hidx.
      unfold flagIndex. now rewrite lookup_insert_eq.
    + apply elem_of_cons in Hin as [Hin|Hin]; [congruence|].
      rewrite IH by assumption. unfold flagIndex.
      now rewrite lookup_insert_ne by exact Hne.
Qed.

Lemma NoDup_keys_split {V} (l1 l2 : list (Z * V)) k v k' v' :
  NoDup (l1 ++ (k, v) :: l2).*1 -> (k', v') ∈ l1 ++ l2 -> k' <> k.
Proof.
  rewrite fmap_app, fmap_cons. simpl. intros Hnd Hin ->.
  apply NoDup_app in Hnd as (_ & Hd & Hnd2).
  apply NoDup_cons in Hnd2 as [Hk _].
  apply elem_of_app in Hin as [Hin|Hin].
  - apply (Hd k); [apply list_elem_of_fmap; now exists (k, v') | left].
  - apply Hk. apply list_elem_of_fmap. now exists (k, v').
Qed.

Lemma buildWarnings_at (rows : list MappedAddress) (i : nat) :
  (forall r, rows !! i = Some r -> uniqueReference rows i ->
             buildWarnings rows !! i = rowEntry r)
  /\ (forall r, rows !! i = Some r -> sharedReference rows i ->
                buildWarnings rows !! i
                = Some (validateMaxLengths r ++ [UNIQUE_WARNING]))
  /\ (length rows <= i -> buildWarnings rows !! i = None).
Proof.
  split; [|split].
  - intros r Hr Hu. rewrite buildWarnings_unique by exact Hu. now rewrite Hr.
  - intros r Hr (j & r0 & r' & Hne & Hr0 & Hr' & Href).
    rewrite Hr in Hr0. injection Hr0 as <-.
    rewrite buildWarnings_collected.
    destruct (collected_invariant rows) as [Hw Hi].
    destruct (collected_groups rows) as [Hk Hc].
    destruct (Hc _ _ Hr) as (indices & Hg & Hin).
    destruct (Hc _ _ Hr') as (indices' & Hg' & Hin'). rewrite Href in Hg'.
    assert (indices' = indices).
    { pose proof (entryGet_NoDup _ _ _ Hk Hg).
      pose proof (entryGet_NoDup _ _ _ Hk Hg'). congruence. }
    subst indices'.
    destruct (Hi _ _ Hg) as [Hnd _].
    assert (Hlen : 1 < length indices).
    { destruct indices as [|a [|b l]]; simpl; try lia.
      - now apply elem_of_nil in Hin.
      - apply list_elem_of_singleton in Hin, Hin'. congruence. }
    apply list_elem_of_split in Hg as (l1 & l2 & Hsplit).
    rewrite Hsplit in *. rewrite foldl_app. simpl.
    assert (Hother : forall group, group ∈ l1 ++ l2 -> i ∉ group.2).
    { intros [ref' idxs] Hg2 Hi2. simpl in Hi2.
      assert (Hin2 : (ref', idxs) ∈ l1 ++ (REFERENZ r, indices) :: l2).
      { apply elem_of_app in Hg2 as [H|H]; apply elem_of_app;
          [now left | right; now right]. }
      destruct (Hi _ _ Hin2) as [_ Hall].
      destruct (Hall _ Hi2) as (r2 & Hr2 & Href2).
      rewrite Hr in Hr2. injection Hr2 as <-.
      eapply NoDup_keys_split; eauto. }
    rewrite foldl_flagGroup_other
      by (intros g Hg2 _; apply Hother, elem_of_app; now right).
    rewrite flagGroup_unfold. simpl.
    apply Nat.ltb_lt in Hlen. rewrite Hlen.
    rewrite foldl_flagIndex_in by assumption.
    rewrite foldl_flagGroup_other
      by (intros g Hg2 _; apply Hother, elem_of_app; now left).
    rewrite Hw, Hr. simpl. unfold rowEntry.
    destruct (validateMaxLengths r); reflexivity.
  - intros Hlen. rewrite buildWarnings_unique.
    + now rewrite lookup_ge_None_2.
    + intros j r r' Hr. rewrite lookup_ge_None_2 in Hr by exact Hlen. discriminate.
Qed.

(** X1. The warnings map, row by row: a row whose REFERENZ no other row
    carries has its length warnings if there are any and no entry
    otherwise; a row that shares its REFERENZ has its length warnings
    followed by the uniqueness warning, once; positions past the end
    have no entry. *)
Theorem buildWarnings_lookup (rows : list MappedAddress) (i : nat) :
  (forall r, rows !! i = Some r -> uniqueReference rows i ->
             buildWarnings rows !! i = rowEntry r)
  /\ (forall r, rows !! i = Some r -> sharedReference rows i ->
                buildWarnings rows !! i
                = Some (validateMaxLengths r ++ [UNIQUE_WARNING]))
  /\ (length rows <= i -> buildWarnings rows !! i = None).
Proof. apply buildWarnings_at. Qed.

Lemma buildWarnings_lookup_witness :
  buildWarnings [exampleRecord; longLandRecord] !! 0 = Some [UNIQUE_WARNING].
Proof.
  apply (proj1 (proj2 (buildWarnings_lookup [exampleRecord; longLandRecord] 0))
           exampleRecord eq_refl).
  exists 1, exampleRecord, longLandRecord.
  split; [lia|]. repeat split; reflexivity.
Defined.

Lemma elem_of_indexed {A} (l : list A) j x :
  (j, x) ∈ indexed l <-> l !! j = Some x.
Proof.
  unfold indexed. rewrite elem_of_lookup_imap. split.
  - intros (i & y & [= -> ->] & H). exact H.
  - intros H. now exists j, x.
Qed.

Lemma unique_or_shared rows i r :
  rows !! i = Some r -> uniqueReference rows i \/ sharedReference rows i.
Proof.
  intros Hr.
  destruct (decide (Exists (fun e : nat * MappedAddress =>
                              e.1 <> i /\ REFERENZ e.2 = REFERENZ r)
                      (indexed rows))) as [H|H].
  - right. apply Exists_exists in H as ([j r'] & Hin & Hne & Href). simpl in *.
    apply elem_of_indexed in Hin. now exists j, r, r'.
  - left. intros j r0 r' Hr0 Hr' Href. rewrite Hr in Hr0. injection Hr0 as <-.
    destruct (decide (j = i)) as [|Hne]; [assumption|]. exfalso. apply H.
    apply Exists_exists. exists (j, r'). split; [now apply elem_of_indexed|].
    now split.
Qed.

Lemma flagged_iff_shared (rows : list MappedAddress) (i : nat) :
  flaggedDuplicate (buildWarnings rows) i <-> sharedReference rows i.
Proof.
  destruct (buildWarnings_at rows i) as (Hu & Hs & Hout). split.
  - intros (ws & Hws & Hin).
    destruct (rows !! i) as [r|] eqn:Hr.
    + destruct (unique_or_shared rows i r Hr) as [H|H]; [|exact H].
      exfalso. rewrite (Hu r eq_refl H) in Hws. unfold rowEntry in Hws.
      destruct (0 <? _); [|discriminate]. injection Hws as <-.
      now apply validateMaxLengths_not_unique in Hin.
    + apply lookup_ge_None in Hr. rewrite (Hout Hr) in Hws. discriminate.
  - intros H. pose proof H as (j & r & r' & _ & Hr & _).
    eexists. split; [apply (Hs r Hr H)|].
    apply elem_of_app. right. left.
Qed.

(** X2. A row carries the uniqueness warning in the warnings map
    exactly when another row has the same REFERENZ. *)
Theorem unique_warning_iff (rows : list MappedAddress) (i : nat) :
  flaggedDuplicate (buildWarnings rows) i <-> sharedReference rows i.
Proof. apply flagged_iff_shared. Qed.

(** ** Editing and deleting rows *)

(** X3. Editing a row in range replaces that row only and rebuilds the
    warnings from the new set, so that afterwards the uniqueness
    warning stands exactly on the rows that still share a REFERENZ;
    an index out of range leaves the state as it is. *)
Theorem handleEditRow_revalidates
    (st : AppState) (i : nat) (updatedRow : MappedAddress) :
  let st' := handleEditRow i updatedRow st in
  (i < length (mappedData st) ->
   mappedData st' = <[i := updatedRow]> (mappedData st)
   /\ mappedData st' !! i = Some updatedRow
   /\ (forall j, j <> i -> mappedData st' !! j = mappedData st !! j)
   /\ warnings st' = buildWarnings (mappedData st')
   /\ (forall k, flaggedDuplicate (warnings st') k
                 <-> sharedReference (mappedData st') k)
   /\ error st' = error st)
  /\ (length (mappedData st) <= i -> st' = st).
Proof.
  intros st'. unfold st', handleEditRow. split.
  - intros Hi. destruct (mappedData st !! i) eqn:E;
      [|apply lookup_ge_None in E; lia]. simpl.
    split; [reflexivity|]. split; [now apply list_lookup_insert_eq|].
    split; [intros j Hj; now apply list_lookup_insert_ne|].
    split; [reflexivity|]. split; [|reflexivity].
    intros k. apply flagged_iff_shared.
  - intros Hi. now rewrite lookup_ge_None_2.
Qed.

Lemma handleEditRow_revalidates_witness :
  warnings
    (handleEditRow 1 (setREFERENZ longLandRecord 2)
       {| mappedData := [exampleRecord; longLandRecord];
          warnings := buildWarnings [exampleRecord; longLandRecord];
          error := [] |})
    !! 0
  = None.
Proof.
  pose proof (proj1 (handleEditRow_revalidates
              {| mappedData := [exampleRecord; longLandRecord];
                 warnings := buildWarnings [exampleRecord; longLandRecord];
                 error := [] |} 1 (setREFERENZ longLandRecord 2))) as H.
  cbv zeta in H. destruct H as (_ & _ & _ & Hw & _); [simpl; lia|].
  rewrite Hw. vm_compute. reflexivity.
Defined.

(** X4. Deleting repairs any numbering: whatever the REFERENZ values
    were, after deleting at a valid index the rows are numbered 1, 2,
    ... in order, one row fewer, no row carries the uniqueness warning
    and the error message is kept; an index out of range leaves the
    state as it is. *)
Theorem handleDeleteRow_renumbers (st : AppState) (i : nat) :
  let st' := handleDeleteRow i st in
  (i < length (mappedData st) ->
   length (mappedData st') = length (mappedData st) - 1
   /\ contiguous (mappedData st')
   /\ (forall k, ~ flaggedDuplicate (warnings st') k)
   /\ error st' = error st)
  /\ (length (mappedData st) <= i -> st' = st).
Proof.
  intros st'. split.
  - intros Hi. destruct (handleDeleteRow_data st i Hi) as [Hd Hw].
    fold st' in Hd, Hw.
    assert (Hc : contiguous (mappedData st')).
    { intros j r. rewrite Hd, list_lookup_imap.
      destruct (delete i (mappedData st) !! j); [|discriminate].
      now intros [= <-]. }
    split; [|split; [exact Hc|split]].
    + rewrite Hd, length_imap, length_delete; [reflexivity|].
      now apply lookup_lt_is_Some_2.
    + intros k Hk. rewrite Hw in Hk. apply flagged_iff_shared in Hk.
      destruct Hk as (j & r & r' & Hne & Hr & Hr' & Href).
      apply Hc in Hr, Hr'. lia.
    + unfold st', handleDeleteRow.
      destruct (mappedData st !! i); reflexivity.
  - intros Hi. unfold st', handleDeleteRow. now rewrite lookup_ge_None_2.
Qed.

Lemma handleDeleteRow_renumbers_witness :
  contiguous
    (mappedData
       (handleDeleteRow 0
          {| mappedData := [exampleRecord; exampleRecord; longLandRecord];
             warnings := ∅; error := [] |})).
Proof.
  apply (proj1 (handleDeleteRow_renumbers
           {| mappedData := [exampleRecord; exampleRecord; longLandRecord];
              warnings := ∅; error := [] |} 0)).
  simpl. lia.
Defined.

(** ** Mapping a batch *)

Lemma mapData_lookup (toLowerCase : str -> str) (countriesData : list Country)
    (rows : list RawRow) mapping i :
  mapData toLowerCase countriesData rows mapping !! i
  = (fun row => mapRow toLowerCase countriesData row i mapping) <$> rows !! i.
Proof. unfold mapData. apply list_lookup_imap. Qed.

Lemma mapRow_REFERENZ (toLowerCase : str -> str) (countriesData : list Country)
    row i mapping :
  REFERENZ (mapRow toLowerCase countriesData row i mapping)
  = (Z.of_nat i + 1)%Z.
Proof. unfold mapRow. now destruct (splitStreetNumber _). Qed.

Lemma mapData_rows (toLowerCase : str -> str)
    (countriesData : list Country) (rows : list RawRow)
    (mapping : option (list (str * str))) :
  let mapped := mapData toLowerCase countriesData rows mapping in
  length mapped = length rows
  /\ (forall i,
        mapped !! i
        = (fun row => mapRow toLowerCase countriesData row i mapping)
            <$> rows !! i)
  /\ contiguous mapped
  /\ (forall k, ~ flaggedDuplicate (buildWarnings mapped) k).
Proof.
  intros mapped.
  assert (Hc : contiguous mapped).
  { intros j r. unfold mapped. rewrite mapData_lookup.
    destruct (rows !! j); [|discriminate]. intros [= <-].
    apply mapRow_REFERENZ. }
  split; [apply length_imap|]. split; [intros i; apply mapData_lookup|].
  split; [exact Hc|].
  intros k Hk. apply flagged_iff_shared in Hk.
  destruct Hk as (j & r & r' & Hne & Hr & Hr' & Href).
  apply Hc in Hr, Hr'. lia.
Qed.

(** X5. Mapping a batch gives one record per raw row, in order, the
    record at position [i] being the row mapped with index [i]; the
    records are numbered 1, 2, ..., so validating a freshly mapped
    batch never yields a uniqueness warning. *)
Theorem mapData_numbered (toLowerCase : str -> str)
    (countriesData : list Country) (rows : list RawRow)
    (mapping : option (list (str * str))) :
  let mapped := mapData toLowerCase countriesData rows mapping in
  length mapped = length rows
  /\ (forall i,
        mapped !! i
        = (fun row => mapRow toLowerCase countriesData row i mapping)
            <$> rows !! i)
  /\ contiguous mapped
  /\ (forall k, ~ flaggedDuplicate (buildWarnings mapped) k).
Proof. apply mapData_rows. Qed.

Section RemappingOutcome.

Variable toLowerCase : str -> str.
Variable countriesData : list Country.

(** X6. Re-mapping an empty batch clears the records and the warnings
    but keeps the error message; re-mapping a non-empty batch with all
    required fields selected clears the error, maps every row with the
    alias table built from the selections and validates the result. *)
Theorem recalcMapping_outcome
    (data : list RawRow) (selections : Selections) (st : AppState) :
  let st' := recalcMapping toLowerCase countriesData data selections st in
  (data = [] ->
   mappedData st' = [] /\ warnings st' = ∅ /\ error st' = error st)
  /\ (data <> [] -> missingRequired selections = [] ->
      error st' = []
      /\ mappedData st'
         = mapData toLowerCase countriesData data
             (Some (buildMapping selections))
      /\ length (mappedData st') = length data
      /\ warnings st' = buildWarnings (mappedData st')
      /\ (forall k, ~ flaggedDuplicate (warnings st') k)).
Proof.
  intros st'. unfold st', recalcMapping. split.
  - intros ->. simpl. auto.
  - intros Hdata Hmiss. destruct data as [|row data]; [congruence|].
    change (length (row :: data) =? 0) with false. cbv iota.
    fold (missingRequired selections). rewrite Hmiss.
    change (0 <? length (@nil TargetField)) with false. cbv iota.
    cbn [mappedData warnings error].
    destruct (mapData_rows toLowerCase countriesData (row :: data)
                (Some (buildMapping selections))) as (Hl & _ & _ & Hf).
    repeat split; try reflexivity; assumption.
Qed.

End RemappingOutcome.

Lemma recalcMapping_outcome_witness :
  mappedData
    (recalcMapping asciiLower sampleCountries [exampleRow]
       [ (js "first_name", Some (js "Vorname")); (js "last_name", Some (js "Name"));
         (js "street", Some (js "Adresse1")); (js "postal_code", Some (js "PLZ"));
         (js "city", Some (js "Ort")); (js "country", Some (js "Land")) ]
       {| mappedData := []; warnings := ∅; error := js "old" |})
  = [exampleRecord].
Proof.
  destruct (proj2 (recalcMapping_outcome asciiLower sampleCountries [exampleRow]
       [ (js "first_name", Some (js "Vorname")); (js "last_name", Some (js "Name"));
         (js "street", Some (js "Adresse1")); (js "postal_code", Some (js "PLZ"));
         (js "city", Some (js "Ort")); (js "country", Some (js "Land")) ]
       {| mappedData := []; warnings := ∅; error := js "old" |}))
    as (_ & H & _).
  - discriminate.
  - vm_compute. reflexivity.
  - rewrite H. vm_compute. reflexivity.
Defined.

(** ** Country codes of mapped records *)

Lemma memberText_nonempty name : memberText name <> [].
Proof.
  unfold memberText. destruct (bool_decide (name = js "__proto__")); discriminate.
Qed.

(** The lookup that misses the table but meets [Object.prototype]. *)
Example mapCountry_constructor :
  mapCountry asciiLower sampleCountries (VString (js "Constructor"))
  = {| code := VMember (js "constructor"); unmappedOriginal := None |}
  /\ String_ (VMember (js "constructor")) = js "function Object() { [native code] }".
Proof. split; vm_compute; reflexivity. Qed.

(** X7. The code returned by [mapCountry] is never empty: it is the
    string DEU, a non-empty code of the country table or, when the
    trimmed input lower-cased names a member inherited from
    [Object.prototype], that member instead of a string; when an
    unmapped original is recorded the code is DEU and the original is
    the non-blank trimmed input. Hence the LAND of a mapped record is
    never empty, nor is its text. *)
Theorem mapCountry_code_nonempty (toLowerCase : str -> str)
    (countriesData : list Country) (country : value) :
  let result := mapCountry toLowerCase countriesData country in
  let lowered := toLowerCase (trim (String_ country)) in
  truthy (code result) = true
  /\ (code result = VString (js "DEU")
      \/ (exists c, c ∈ countriesData /\ alpha3Code c <> []
                    /\ code result = VString (alpha3Code c))
      \/ (lowered ∈ OBJECT_PROTOTYPE_KEYS /\ code result = VMember lowered))
  /\ (lowered ∉ OBJECT_PROTOTYPE_KEYS ->
      exists s, code result = VString s /\ s <> [])
  /\ (forall original,
        unmappedOriginal result = Some original ->
        code result = VString (js "DEU") /\ original = trim (String_ country)
        /\ original <> [])
  /\ (forall (row : RawRow) index mapping,
        let r := mapRow toLowerCase countriesData row index mapping in
        truthy (LAND r) = true /\ String_ (LAND r) <> []).
Proof.
  assert (Hne : forall v,
    truthy (code (mapCountry toLowerCase countriesData v)) = true
    /\ String_ (code (mapCountry toLowerCase countriesData v)) <> []).
  { intros v.
    destruct (mapCountry_result toLowerCase countriesData v) as [Hc _].
    cbv zeta in Hc. destruct Hc as [H|[(c & _ & Hc & H)|[_ H]]]; rewrite H.
    - split; [reflexivity | discriminate].
    - cbn [truthy String_]. split; [now apply nonEmpty_true | exact Hc].
    - split; [reflexivity | apply memberText_nonempty]. }
  intros result lowered. split; [apply Hne|].
  destruct (mapCountry_result toLowerCase countriesData country) as [Hc Hu].
  cbv zeta in Hc, Hu. fold result lowered in Hc, Hu.
  split; [exact Hc|]. split; [|split].
  - intros Hp. destruct Hc as [H|[(c & _ & Hc & H)|[Hc _]]].
    + exists (js "DEU"). split; [exact H | discriminate].
    + eauto.
    + contradiction.
  - intros o Ho. destruct (Hu o Ho) as (? & ? & ?). auto.
  - intros row index mapping r. unfold r, mapRow.
    destruct (splitStreetNumber _). cbn [LAND]. apply Hne.
Qed.

Lemma mapCountry_code_nonempty_witness :
  code (mapCountry asciiLower sampleCountries (VString (js " Atlantis ")))
  = VString (js "DEU").
Proof.
  destruct (mapCountry_code_nonempty asciiLower sampleCountries
              (VString (js " Atlantis "))) as (_ & _ & _ & H & _).
  apply (H (js "Atlantis")). vm_compute. reflexivity.
Defined.

(** ** A record without warnings *)

Lemma flat_map_nil {A B} (f : A -> list B) (l : list A) :
  flat_map f l = [] <-> forall x, x ∈ l -> f x = [].
Proof.
  induction l as [|a l IH]; simpl.
  - split; [intros _ x H; now apply elem_of_nil in H | reflexivity].
  - split.
    + intros H. apply app_eq_nil in H as [Ha Hl]. intros x Hx.
      apply elem_of_cons in Hx as [->|Hx]; [exact Ha | now apply IH].
    + intros H. rewrite (H a) by left. apply IH. intros x Hx. apply H. now right.
Qed.

(** X8. The validator returns no warning exactly when the record has
    no unmapped-country mark, every field is within its limit and the
    full address is at most 72 long. *)
Theorem validateMaxLengths_clean (row : MappedAddress) :
  validateMaxLengths row = []
  <-> noUnmappedMark row
      /\ (forall col maxLen, (col, maxLen) ∈ limits ->
            length (String_ (getField row col)) <= maxLen)
      /\ length (fullAddress row) <= 72.
Proof.
  rewrite validateMaxLengths_parts. split.
  - intros H. apply app_eq_nil in H as [Hu H]. apply app_eq_nil in H as [Hf Ha].
    split; [|split].
    + unfold unmappedWarnings, noUnmappedMark in *.
      destruct (LAND_UNMAPPED_ORIGINAL row) as [[|c o]|]; simpl in Hu;
        [now right | discriminate | now left].
    + intros col maxLen Hcol. rewrite flat_map_nil in Hf.
      specialize (Hf col). rewrite (fieldWarnings_limit _ _ _ Hcol) in Hf.
      destruct (maxLen <? _) eqn:E.
      * discriminate Hf. apply list_elem_of_In, in_map_iff.
        exists (col, maxLen). split; [reflexivity | now apply list_elem_of_In].
      * now apply Nat.ltb_ge in E.
    + unfold fullAddressWarnings in Ha.
      destruct (72 <? _) eqn:E; [discriminate|]. now apply Nat.ltb_ge in E.
  - intros (Hu & Hf & Ha).
    replace (unmappedWarnings row) with (@nil str).
    2:{ unfold unmappedWarnings. destruct Hu as [->| ->]; reflexivity. }
    replace (fullAddressWarnings row) with (@nil str).
    2:{ unfold fullAddressWarnings. apply Nat.ltb_ge in Ha. now rewrite Ha. }
    rewrite app_nil_r, app_nil_l. apply flat_map_nil. intros col Hcol.
    apply limits_key in Hcol as [maxLen Hcol].
    rewrite (fieldWarnings_limit _ _ _ Hcol).
    specialize (Hf _ _ Hcol). apply Nat.ltb_ge in Hf. now rewrite Hf.
Qed.

(** ** The normalizer *)

Lemma collapseFrom_false_nil s :
  stopsAt isWhiteSpace s -> collapseFrom false s = [] -> s = [].
Proof.
  destruct s as [|c r]; simpl; [reflexivity|]. intros ->. discriminate.
Qed.

(** X9. Cleaning is idempotent and its result is normalized, for every
    cell; the result is empty exactly for a falsy or blank cell. *)
Theorem cleanValue_idempotent (v : value) :
  cleanValue (VString (cleanValue v)) = cleanValue v
  /\ Normalized (cleanValue v)
  /\ (cleanValue v = [] <-> blankCell v).
Proof.
  split; [apply Normalized_cleanValue, cleanValue_Normalized|].
  split; [apply cleanValue_Normalized|].
  unfold cleanValue, blankCell. destruct (truthy v); simpl.
  - split.
    + intros H. right. unfold replaceWhitespaceRuns in H.
      apply collapseFrom_false_nil in H; [exact H | apply trim_stops].
    + intros [H|H]; [discriminate | now rewrite H].
  - split; [now left | reflexivity].
Qed.

(** ** Address type *)

Lemma startsWith_spec s sub :
  startsWith s sub = true <-> exists b, s = sub ++ b.
Proof.
  revert s. induction sub as [|a sub IH]; intros s.
  - split; [intros _; now exists s | intros _; now destruct s].
  - destruct s as [|c s].
    + split; [discriminate | intros [b Hb]; discriminate].
    + cbn [startsWith]. rewrite andb_true_iff, N.eqb_eq, IH. split.
      * intros [-> [b ->]]. now exists b.
      * intros [b [= -> ->]]. split; [reflexivity | now exists b].
Qed.

Lemma includes_spec s sub : includes s sub = true <-> Contains s sub.
Proof.
  unfold Contains. induction s as [|c s IH]; cbn [includes].
  - rewrite orb_false_r, startsWith_spec. split.
    + intros [b Hb]. now exists [], b.
    + intros (a & b & H). symmetry in H.
      apply app_eq_nil in H as [-> H]. apply app_eq_nil in H as [-> ->].
      now exists [].
  - rewrite orb_true_iff, startsWith_spec, IH. split.
    + intros [[b Hb]|(a & b & ->)]; [now exists [], b | now exists (c :: a), b].
    + intros ([|x a] & b & H).
      * left. now exists b.
      * right. injection H as -> ->. now exists a, b.
Qed.

(** X10. The address type is POBOX exactly when the addition is truthy
    and contains "Postfach"; MAJORRECIPIENT exactly when it is truthy,
    does not contain "Postfach" and contains one of the two spellings
    of "Großempfänger"; HOUSE in every other case, in particular for
    an absent addition. *)
Theorem mapAddressType_cases (addressAddition : value) :
  let text := String_ addressAddition in
  let major := Contains text (js "Großempfänger")
               \/ Contains text (js "Grossempfänger") in
  (mapAddressType addressAddition = POBOX
   <-> truthy addressAddition = true /\ Contains text (js "Postfach"))
  /\ (mapAddressType addressAddition = MAJORRECIPIENT
      <-> truthy addressAddition = true
          /\ ~ Contains text (js "Postfach") /\ major)
  /\ (mapAddressType addressAddition = HOUSE
      <-> truthy addressAddition = false
          \/ (~ Contains text (js "Postfach") /\ ~ major)).
Proof.
  intros text major. unfold mapAddressType. fold text.
  assert (HP := includes_spec text (js "Postfach")).
  assert (HG := includes_spec text (js "Großempfänger")).
  assert (HS := includes_spec text (js "Grossempfänger")).
  destruct (truthy addressAddition).
  2:{ repeat split; try discriminate; auto; intros H; destruct H as [H _];
      discriminate. }
  destruct (includes text (js "Postfach")) eqn:EP.
  - assert (P : Contains text (js "Postfach")) by now apply HP.
    repeat split; try discriminate; auto.
    + intros (_ & H & _). contradiction.
    + intros [H|[H _]]; [discriminate | contradiction].
  - assert (P : ~ Contains text (js "Postfach")).
    { intros H. apply HP in H. discriminate. }
    destruct (includes text (js "Großempfänger")
              || includes text (js "Grossempfänger")) eqn:EM.
    + assert (M : major).
      { apply orb_true_iff in EM as [H|H]; [left; now apply HG | right; now apply HS]. }
      repeat split; try discriminate; auto.
      * intros [_ H]. contradiction.
      * intros [H|[_ H]]; [discriminate | contradiction].
    + assert (M : ~ major).
      { apply orb_false_iff in EM as [E1 E2]. intros [H|H].
        - apply HG in H. congruence.
        - apply HS in H. congruence. }
      repeat split; try discriminate; auto.
      * intros [_ H]. contradiction.
      * intros (_ & _ & H). contradiction.
Qed.

(** ** Street and number, part by part *)

Lemma trimEnd_cons_inv c r :
  trimEnd (c :: r) = c :: r ->
  trimEnd r = r /\ (r <> [] \/ isWhiteSpace c = false).
Proof.
  simpl. destruct (trimEnd r) as [|d t] eqn:E.
  - destruct (isWhiteSpace c); [discriminate|].
    intros [= <-]. split; [reflexivity | now right].
  - intros [= <-]. split; [reflexivity | left; discriminate].
Qed.

Lemma splitFrom_head_nonempty s :
  stopsAt isWhiteSpace s -> s <> [] -> hd [] (splitFrom false s) <> [].
Proof.
  destruct s as [|c r]; [congruence|]. simpl. intros -> _.
  destruct (splitFrom false r); discriminate.
Qed.

Lemma last_cons_cons {A} (a b : A) l d :
  List.last (a :: b :: l) d = List.last (b :: l) d.
Proof. reflexivity. Qed.

Lemma splitFrom_last_nonempty b s :
  trimEnd s = s -> s <> [] -> List.last (splitFrom b s) [] <> [].
Proof.
  revert b. induction s as [|c r IH]; intros b Hs Hne0; [congruence|].
  apply trimEnd_cons_inv in Hs as [Hr Hc]. cbn [splitFrom].
  destruct (isWhiteSpace c) eqn:Ec.
  - destruct Hc as [Hne|]; [|discriminate].
    specialize (IH true Hr Hne). destruct b; [exact IH|].
    pose proof (splitFrom_not_nil true r).
    destruct (splitFrom true r); [congruence | exact IH].
  - destruct r as [|d r'].
    + simpl. discriminate.
    + specialize (IH false Hr ltac:(discriminate)).
      pose proof (splitFrom_not_nil false (d :: r')) as Hnn.
      destruct (splitFrom false (d :: r')) as [|t [|t' ts]]; [congruence | |].
      * simpl in *. discriminate.
      * exact IH.
Qed.

Lemma join_head_nonempty sep (l : list str) :
  hd [] l <> [] -> join sep l <> [].
Proof.
  destruct l as [|p [|q l]]; simpl; [congruence | trivial|].
  intros Hp H. apply app_eq_nil in H as [H _]. congruence.
Qed.

Lemma join_last_nonempty sep (l : list str) :
  List.last l [] <> [] -> join sep l <> [].
Proof.
  induction l as [|p l IH]; [simpl; congruence|].
  destruct l as [|q l]; [simpl; trivial|].
  rewrite last_cons_cons. intros H. cbn [join]. intros E.
  apply app_eq_nil in E as [_ E]. apply app_eq_nil in E as [_ E].
  now apply IH in H.
Qed.

Lemma last_elem_of {A} (l : list A) d : l <> [] -> List.last l d ∈ l.
Proof.
  induction l as [|a l IH]; [congruence|]. intros _.
  destruct l as [|b l]; [left|]. rewrite last_cons_cons. right.
  apply IH. discriminate.
Qed.

Lemma NumberToken_hasDigit t : NumberToken t -> hasDigit t = true.
Proof.
  intros (ds & sf & -> & Hne & Hds & _). destruct ds as [|d ds]; [congruence|].
  apply Forall_cons in Hds as [Hd _]. unfold hasDigit. simpl. now rewrite Hd.
Qed.

Lemma splitStreetNumber_shape (street : value) :
  let strasse := (splitStreetNumber street).1 in
  let nummer := (splitStreetNumber street).2 in
  Forall (fun c => isWhiteSpace c = false) nummer
  /\ (nummer <> [] -> hasDigit nummer = true)
  /\ (strasse = [] <-> blankCell street)
  /\ (blankCell street -> nummer = []).
Proof.
  unfold blankCell, splitStreetNumber.
  destruct (truthy street); cbn [negb].
  2:{ simpl. repeat split; auto; congruence. }
  set (s := trim (String_ street)).
  assert (Hstop : stopsAt isWhiteSpace s) by apply trim_stops.
  assert (Hend : trimEnd s = s) by apply trimEnd_trim.
  destruct (nonEmpty s) eqn:Es; cbn [negb].
  2:{ destruct s; [|discriminate]. simpl. repeat split; auto; congruence. }
  apply nonEmpty_true in Es.
  assert (Hblank : forall x : str, x <> [] -> x = [] <-> (true = false \/ s = [])).
  { intros x Hx. split; [congruence | intros [H|H]; [discriminate | congruence]]. }
  assert (Hnot : (true = false \/ s = []) -> forall n : str, n = []).
  { intros [H|H]; [discriminate | congruence]. }
  destruct (trailingMatch s) as [[p t]|] eqn:Em.
  - apply trailingMatch_spec in Em.
    destruct Em as (w & _ & (p' & c & Hp & _) & _ & _ & _ & Htok). simpl.
    split; [|split; [|split]].
    + eapply Forall_impl; [apply (NumberToken_not_whitespace _ Htok)|].
      intros x Hx. unfold notWhiteSpace in Hx. now apply negb_true_iff.
    + intros _. now apply NumberToken_hasDigit.
    + apply Hblank. subst p. intros E. now apply app_eq_nil in E as [_ E].
    + intros H. exfalso. destruct H as [H|H]; [discriminate | congruence].
  - pose proof (splitFrom_pieces false s) as Hpieces.
    pose proof (splitFrom_not_nil false s) as Hnn.
    fold (splitWhitespace s) in Hpieces, Hnn.
    set (parts := splitWhitespace s) in *.
    assert (Hhd : hd [] parts <> []) by now apply splitFrom_head_nonempty.
    assert (Hlast : List.last parts [] <> [])
      by now apply splitFrom_last_nonempty.
    destruct ((2 <=? length parts) && hasDigit (List.last parts [])) eqn:Eb.
    + apply andb_true_iff in Eb as [Hlen Hd]. apply Nat.leb_le in Hlen. simpl.
      split; [|split; [|split]].
      * rewrite Forall_forall in Hpieces. apply Hpieces.
        now apply last_elem_of.
      * intros _. exact Hd.
      * apply Hblank. apply join_head_nonempty.
        destruct parts as [|a [|b l]]; simpl in *; try lia. exact Hhd.
      * intros H. exfalso. destruct H as [H|H]; [discriminate | congruence].
    + destruct ((2 <=? length parts) && hasDigit (hd [] parts)) eqn:Ec.
      * apply andb_true_iff in Ec as [Hlen Hd]. apply Nat.leb_le in Hlen. simpl.
        split; [|split; [|split]].
        -- rewrite Forall_forall in Hpieces. apply Hpieces.
           destruct parts; [congruence | left].
        -- intros _. exact Hd.
        -- apply Hblank. apply join_last_nonempty.
           destruct parts as [|a [|b l]]; simpl in Hlen; try lia.
           rewrite last_cons_cons in Hlast. exact Hlast.
        -- intros H. exfalso. destruct H as [H|H]; [discriminate | congruence].
      * simpl. split; [constructor|]. split; [congruence|].
        split; [now apply Hblank|]. reflexivity.
Qed.

(** X11. Whatever the street cell, the number returned holds no
    whitespace and, unless empty, contains a digit; the street part is
    empty exactly when the cell is falsy or blank, and then the number
    is empty too. *)
Theorem splitStreetNumber_parts (street : value) :
  let strasse := (splitStreetNumber street).1 in
  let nummer := (splitStreetNumber street).2 in
  Forall (fun c => isWhiteSpace c = false) nummer
  /\ (nummer <> [] -> hasDigit nummer = true)
  /\ (strasse = [] <-> blankCell street)
  /\ (blankCell street -> nummer = []).
Proof. apply splitStreetNumber_shape. Qed.

Lemma splitStreetNumber_parts_witness :
  hasDigit (splitStreetNumber (VString (js "Musterstraße 12a"))).2 = true.
Proof.
  destruct (splitStreetNumber_parts (VString (js "Musterstraße 12a")))
    as (_ & H & _).
  apply H. vm_compute. discriminate.
Defined.

(** ** Full name *)

Lemma trimEnd_snoc_whitespace s c :
  isWhiteSpace c = true -> trimEnd (s ++ [c]) = trimEnd s.
Proof.
  intros Hc. induction s as [|x s IH]; simpl; [now rewrite Hc|].
  now rewrite IH.
Qed.

Lemma trim_snoc_space s : trim s = s -> trim (s ++ [SPACE]) = s.
Proof.
  intros Hs.
  assert (Hstop : stopsAt isWhiteSpace s) by (rewrite <- Hs; apply trim_stops).
  assert (Hend : trimEnd s = s).
  { rewrite <- Hs at 2. unfold trim. now rewrite trimStart_fix. }
  destruct s as [|c r]; [reflexivity|].
  unfold trim. rewrite trimStart_fix by exact Hstop.
  rewrite trimEnd_snoc_whitespace by reflexivity. exact Hend.
Qed.

(** X12. The full name is trimmed at both ends; when the last name is
    falsy or blank it is the trimmed first name alone, and when the
    first name is falsy or blank it is the trimmed last name alone, so
    no stray space is left. *)
Theorem createFullName_parts (firstName lastName : value) :
  let first := if truthy firstName then trim (String_ firstName) else [] in
  let last := if truthy lastName then trim (String_ lastName) else [] in
  trim (createFullName firstName lastName) = createFullName firstName lastName
  /\ (blankCell lastName -> createFullName firstName lastName = first)
  /\ (blankCell firstName -> createFullName firstName lastName = last).
Proof.
  intros first last. unfold createFullName. fold first last.
  assert (Hf : trim first = first).
  { unfold first. destruct (truthy firstName); [apply trim_idem | reflexivity]. }
  assert (Hl : trim last = last).
  { unfold last. destruct (truthy lastName); [apply trim_idem | reflexivity]. }
  split; [apply trim_idem|]. split.
  - intros Hb. assert (last = []) as ->.
    { unfold last. destruct Hb as [-> | Hb]; [reflexivity|].
      destruct (truthy lastName); [exact Hb | reflexivity]. }
    rewrite app_nil_r. now apply trim_snoc_space.
  - intros Hb. assert (first = []) as ->.
    { unfold first. destruct Hb as [-> | Hb]; [reflexivity|].
      destruct (truthy firstName); [exact Hb | reflexivity]. }
    simpl. exact Hl.
Qed.

Lemma createFullName_parts_witness :
  createFullName (VString (js " Erika ")) VUndefined = js "Erika".
Proof.
  apply (proj1 (proj2 (createFullName_parts (VString (js " Erika ")) VUndefined))).
  left. reflexivity.
Defined.

(** ** CSV fields *)

Lemma includes_singleton s c : includes s [c] = true <-> c ∈ s.
Proof.
  rewrite includes_spec. unfold Contains. split.
  - intros (a & b & ->). apply elem_of_app. right. left.
  - intros H. apply list_elem_of_split in H as (a & b & ->). now exists a, b.
Qed.

Lemma elem_of_doubleQuotes c value : c ∈ doubleQuotes value <-> c ∈ value.
Proof.
  unfold doubleQuotes. rewrite list_elem_of_In, in_flat_map. split.
  - intros (x & Hx & Hc). apply list_elem_of_In in Hx.
    destruct (N.eqb_spec x QUOTE) as [->|_].
    + destruct Hc as [<-|[<-|[]]]; exact Hx.
    + destruct Hc as [<-|[]]. exact Hx.
  - intros H. exists c. split; [now apply list_elem_of_In|].
    destruct (N.eqb_spec c QUOTE) as [->|_]; now left.
Qed.

Lemma doubleQuotes_without value : without QUOTE value -> doubleQuotes value = value.
Proof.
  unfold without. induction value as [|c r IH]; [reflexivity|].
  intros H. apply not_elem_of_cons in H as [Hc Hr]. simpl.
  destruct (N.eqb_spec c QUOTE) as [->|_]; [congruence|].
  simpl. now rewrite IH.
Qed.

Lemma doubleQuotes_length value : length value <= length (doubleQuotes value).
Proof.
  induction value as [|c r IH]; simpl; [lia|].
  destruct (c =? QUOTE)%N; simpl; fold (doubleQuotes r); lia.
Qed.

Lemma doubleQuotes_inj a b : doubleQuotes a = doubleQuotes b -> a = b.
Proof.
  revert b. induction a as [|x a IH]; intros [|y b]; simpl.
  - reflexivity.
  - destruct (y =? QUOTE)%N; discriminate.
  - destruct (x =? QUOTE)%N; discriminate.
  - fold (doubleQuotes a) (doubleQuotes b).
    destruct (N.eqb_spec x QUOTE) as [->|Hx];
      destruct (N.eqb_spec y QUOTE) as [->|Hy]; simpl.
    + intros [= H]. f_equal. now apply IH.
    + intros [= <- _]. congruence.
    + intros [= -> _]. congruence.
    + intros [= -> H]. f_equal. now apply IH.
Qed.

Lemma escapeCSVValue_cases value :
  let special := SEMICOLON ∈ value \/ NEWLINE ∈ value \/ QUOTE ∈ value in
  (special -> escapeCSVValue value = [QUOTE] ++ doubleQuotes value ++ [QUOTE])
  /\ (~ special -> escapeCSVValue value = value).
Proof.
  intros special. unfold escapeCSVValue.
  destruct (includes (doubleQuotes value) [SEMICOLON]
            || includes (doubleQuotes value) [NEWLINE]
            || includes (doubleQuotes value) [QUOTE]) eqn:E.
  - split; [reflexivity|]. intros Hn. exfalso. apply Hn. unfold special.
    apply orb_true_iff in E as [E|E]; [apply orb_true_iff in E as [E|E]|];
      apply includes_singleton in E;
      apply (proj1 (elem_of_doubleQuotes _ _)) in E; tauto.
  - apply orb_false_iff in E as [E E3]. apply orb_false_iff in E as [E1 E2].
    assert (Hno : forall c, includes (doubleQuotes value) [c] = false -> c ∉ value).
    { intros c Hc Hin. apply (proj2 (elem_of_doubleQuotes _ _)) in Hin.
      apply (proj2 (includes_singleton _ _)) in Hin. congruence. }
    split.
    + intros [H|[H|H]]; exfalso;
        [exact (Hno _ E1 H) | exact (Hno _ E2 H) | exact (Hno _ E3 H)].
    + intros _. apply doubleQuotes_without. now apply Hno.
Qed.

(** X13. A field without semicolon, line feed and double quote is
    written as it is, and only such a field is; any other field is
    written between double quotes with its own quotes doubled. Two
    different fields are never written alike. *)
Theorem escapeCSVValue_faithful (value : str) :
  let special := SEMICOLON ∈ value \/ NEWLINE ∈ value \/ QUOTE ∈ value in
  (escapeCSVValue value = value <-> ~ special)
  /\ (special -> escapeCSVValue value = [QUOTE] ++ doubleQuotes value ++ [QUOTE])
  /\ (forall other, escapeCSVValue other = escapeCSVValue value -> other = value).
Proof.
  intros special. destruct (escapeCSVValue_cases value) as [Hq Hp]. fold special in Hq, Hp.
  split; [|split; [exact Hq|]].
  - split; [|exact Hp]. intros E Hs. rewrite (Hq Hs) in E.
    apply (f_equal (@length N)) in E. rewrite !length_app in E. simpl in E.
    pose proof (doubleQuotes_length value). lia.
  - intros other E.
    destruct (escapeCSVValue_cases other) as [Hq' Hp'].
    assert (Hdec : forall v : str,
      (SEMICOLON ∈ v \/ NEWLINE ∈ v \/ QUOTE ∈ v)
      \/ ~ (SEMICOLON ∈ v \/ NEWLINE ∈ v \/ QUOTE ∈ v)).
    { intros v. destruct (decide (SEMICOLON ∈ v)); [auto|].
      destruct (decide (NEWLINE ∈ v)); [auto|].
      destruct (decide (QUOTE ∈ v)); [auto|]. right. intros [?|[?|?]]; auto. }
    assert (Hquoted : forall u v : str,
      ~ (SEMICOLON ∈ v \/ NEWLINE ∈ v \/ QUOTE ∈ v) ->
      [QUOTE] ++ doubleQuotes u ++ [QUOTE] = v -> False).
    { intros u v Hn Huv. apply Hn. right. right. rewrite <- Huv. left. }
    destruct (Hdec value) as [Hs|Hs]; destruct (Hdec other) as [Hs'|Hs'].
    + rewrite (Hq Hs), (Hq' Hs') in E. simpl in E. injection E as E.
      apply app_inv_tail in E. now apply doubleQuotes_inj.
    + rewrite (Hq Hs), (Hp' Hs') in E. symmetry in E.
      exfalso. eapply Hquoted; eauto.
    + rewrite (Hp Hs), (Hq' Hs') in E. exfalso. eapply Hquoted; eauto.
    + rewrite (Hp Hs), (Hp' Hs') in E. exact E.
Qed.

Lemma escapeCSVValue_faithful_witness :
  escapeCSVValue (js "Musterweg 5; Hof") = [QUOTE] ++ js "Musterweg 5; Hof" ++ [QUOTE].
Proof.
  apply (proj1 (proj2 (escapeCSVValue_faithful (js "Musterweg 5; Hof")))).
  left. vm_compute. do 11 right. left.
Defined.

(** ** Export scopes *)

Lemma filter_partition {A} (f : A -> bool) (l : list A) :
  Permutation (List.filter f l ++ List.filter (fun x => negb (f x)) l) l.
Proof.
  induction l as [|x l IH]; simpl; [constructor|].
  destruct (f x); simpl.
  - now constructor.
  - rewrite <- Permutation_middle. now constructor.
Qed.

Lemma filter_sublist {A} (f : A -> bool) (l : list A) :
  sublist (List.filter f l) l.
Proof.
  induction l as [|x l IH]; simpl; [constructor|].
  destruct (f x); now constructor.
Qed.

(** X14. The German and the international export split the records:
    every record goes to exactly one of the two files, in its former
    order, and both together hold the records of the full export. A
    record whose LAND is DEU goes to the German file as soon as
    upper-casing leaves "DEU" as it is. *)
Theorem targetRows_partition (toUpperCase : str -> str)
    (data : list MappedAddress) :
  let local := targetRows toUpperCase ScopeLocal data in
  let international := targetRows toUpperCase ScopeInternational data in
  targetRows toUpperCase ScopeAll data = data
  /\ Permutation (local ++ international) data
  /\ length local + length international = length data
  /\ (forall r, r ∈ local <-> r ∈ data /\ isGermanLand toUpperCase (String_ (LAND r)) = true)
  /\ (forall r, r ∈ international
                <-> r ∈ data /\ isGermanLand toUpperCase (String_ (LAND r)) = false)
  /\ sublist local data /\ sublist international data
  /\ (toUpperCase (js "DEU") = js "DEU" ->
      forall r, r ∈ data -> LAND r = VString (js "DEU") -> r ∈ local).
Proof.
  intros local international.
  assert (Hl : forall r, r ∈ local
                 <-> r ∈ data /\ isGermanLand toUpperCase (String_ (LAND r)) = true).
  { intros r. unfold local, targetRows.
    rewrite list_elem_of_In, filter_In, <- list_elem_of_In. reflexivity. }
  pose proof (fun f => filter_sublist f data) as Hsub.
  split; [reflexivity|]. split; [apply filter_partition|]. split.
  - rewrite <- length_app. apply Permutation_length, filter_partition.
  - split; [exact Hl|]. split.
    + intros r. unfold international, targetRows.
      rewrite list_elem_of_In, filter_In, <- list_elem_of_In, negb_true_iff.
      reflexivity.
    + split; [apply Hsub|]. split; [apply Hsub|].
      intros Hup r Hr Hland. apply Hl. split; [exact Hr|].
      unfold isGermanLand. rewrite Hland.
      change (trim (String_ (VString (js "DEU")))) with (js "DEU").
      rewrite Hup. reflexivity.
Qed.

Lemma targetRows_partition_witness :
  exampleRecord ∈ targetRows asciiUpper ScopeLocal [longLandRecord; exampleRecord].
Proof.
  destruct (targetRows_partition asciiUpper [longLandRecord; exampleRecord])
    as (_ & _ & _ & _ & _ & _ & _ & H).
  apply H; [reflexivity | right; left | reflexivity].
Defined.

(** ** Exported bytes *)

Lemma encodeCodePoint_byte c : (encodeCodePoint c <= 0xFF)%N.
Proof.
  assert (Htable : forall b, entryGet CP1252_CODEPOINT_TO_BYTE c = Some b ->
                             (b <= 0xFF)%N).
  { intros b E. apply entryGet_elem in E. unfold CP1252_CODEPOINT_TO_BYTE in E.
    repeat (apply elem_of_cons in E as [[= -> ->]|E];
            [vm_compute; discriminate|]).
    now apply elem_of_nil in E. }
  unfold encodeCodePoint.
  destruct (N.leb_spec c 0x7f); [lia|].
  destruct ((0xa0 <=? c)%N && (c <=? 0xff)%N) eqn:Er.
  - apply andb_true_iff in Er as [_ Er]. now apply N.leb_le in Er.
  - destruct (entryGet CP1252_CODEPOINT_TO_BYTE c) as [b|];
      [now apply Htable | vm_compute; discriminate].
Qed.

Lemma codePoints_length_bound n s :
  length s <= n -> length (codePoints s) <= length s.
Proof.
  revert s. induction n as [|n IH]; intros s Hn.
  - destruct s; simpl in *; lia.
  - destruct s as [|c r]; [simpl; lia|]. simpl in Hn. cbn [codePoints].
    destruct (isHighSurrogate c).
    + destruct r as [|d r']; [simpl; lia|].
      destruct (isLowSurrogate d).
      * simpl in *. specialize (IH r' ltac:(lia)). lia.
      * specialize (IH (d :: r') ltac:(simpl in *; lia)). simpl in *. lia.
    + specialize (IH r ltac:(lia)). simpl. lia.
Qed.

Lemma isBasicLatin_units s : isBasicLatin s -> codePoints s = s.
Proof.
  intros H. apply codePoints_units. eapply Forall_impl; [exact H|].
  intros c Hc. unfold isHighSurrogate.
  apply andb_false_iff. left. apply N.leb_gt. simpl in Hc. lia.
Qed.

Lemma toCP1252Bytes_facts (input : str) :
  Forall (fun b => (b <= 0xFF)%N) (toCP1252Bytes input)
  /\ length (toCP1252Bytes input) = length (codePoints input)
  /\ length (toCP1252Bytes input) <= length input
  /\ (forall c, c ∈ codePoints input -> ~ representable c ->
                encodeCodePoint c = 0x3F%N)
  /\ (isBasicLatin input -> toCP1252Bytes input = input).
Proof.
  unfold toCP1252Bytes. split; [|split; [|split; [|split]]].
  - apply Forall_forall. intros b Hb.
    apply list_elem_of_fmap in Hb as (c & -> & _). apply encodeCodePoint_byte.
  - apply length_map.
  - rewrite length_map. now apply (codePoints_length_bound (length input)).
  - intros c _ Hc. unfold encodeCodePoint.
    destruct (N.leb_spec c 0x7f) as [H|H].
    { exfalso. apply Hc, representable_iff. now left. }
    destruct ((0xa0 <=? c)%N && (c <=? 0xff)%N) eqn:Er.
    { exfalso. apply Hc, representable_iff. right. left.
      apply andb_true_iff in Er as [E1 E2]. apply N.leb_le in E1, E2. lia. }
    destruct (entryGet CP1252_CODEPOINT_TO_BYTE c) eqn:E; [|reflexivity].
    exfalso. apply Hc, representable_iff. right. right. rewrite E. eauto.
  - intros H. rewrite isBasicLatin_units by exact H.
    induction H as [|c r Hc _ IH]; simpl; [reflexivity|]. rewrite IH. f_equal.
    unfold encodeCodePoint. destruct (N.leb_spec c 0x7f); [reflexivity | lia].
Qed.

(** X15. Every value produced by the encoder is a byte; there is one
    byte per character (a surrogate pair counts once), hence never more
    bytes than code units; a character outside the codepage becomes a
    question mark; a Basic Latin string is encoded as itself. *)
Theorem toCP1252Bytes_bytes (input : str) :
  Forall (fun b => (b <= 0xFF)%N) (toCP1252Bytes input)
  /\ length (toCP1252Bytes input) = length (codePoints input)
  /\ length (toCP1252Bytes input) <= length input
  /\ (forall c, c ∈ codePoints input -> ~ representable c ->
                encodeCodePoint c = 0x3F%N)
  /\ (isBasicLatin input -> toCP1252Bytes input = input).
Proof. apply toCP1252Bytes_facts. Qed.

Lemma toCP1252Bytes_bytes_witness :
  toCP1252Bytes (js "Max Mustermann") = js "Max Mustermann".
Proof.
  apply (proj2 (proj2 (proj2 (proj2 (toCP1252Bytes_bytes (js "Max Mustermann")))))).
  apply isBasicLatin_dec. reflexivity.
Defined.

(** ** The CSV text *)

Lemma join_cons_map {A} (sep h : str) (f : A -> str) (l : list A) :
  join sep (h :: map f l) = h ++ flat_map (fun x => sep ++ f x) l.
Proof.
  revert h. induction l as [|x l IH]; intros h; simpl.
  - now rewrite app_nil_r.
  - specialize (IH (f x)). simpl in IH. rewrite IH. now rewrite <- app_assoc.
Qed.

Lemma isBasicLatin_join sep (parts : list str) :
  isBasicLatin sep -> Forall isBasicLatin parts -> isBasicLatin (join sep parts).
Proof.
  intros Hs H. induction H as [|p ps Hp Hps IH]; [constructor|].
  destruct ps as [|q ps]; [exact Hp|].
  change (join sep (p :: q :: ps)) with (p ++ sep ++ join sep (q :: ps)).
  unfold isBasicLatin in *. rewrite !Forall_app. auto.
Qed.

Lemma isBasicLatin_digits d : isBasicLatin (digitsOfUint d).
Proof.
  unfold isBasicLatin.
  induction d; simpl; constructor; try assumption; reflexivity.
Qed.

Lemma isBasicLatin_stringOfZ z : isBasicLatin (stringOfZ z).
Proof.
  unfold stringOfZ. destruct (Z.to_int z).
  - apply isBasicLatin_digits.
  - constructor; [reflexivity | apply isBasicLatin_digits].
Qed.

Lemma isBasicLatin_escape value :
  isBasicLatin value -> isBasicLatin (escapeCSVValue value).
Proof.
  intros H.
  assert (Hd : isBasicLatin (doubleQuotes value)).
  { apply Forall_forall. intros c Hc.
    apply (proj1 (elem_of_doubleQuotes _ _)) in Hc.
    unfold isBasicLatin in H. rewrite Forall_forall in H. now apply H. }
  unfold escapeCSVValue. destruct (_ || _); [|exact Hd].
  unfold isBasicLatin in *. rewrite !Forall_app.
  split; [|split]; try assumption; repeat constructor.
Qed.

Lemma isBasicLatin_csvLine r : basicLatinRecord r -> isBasicLatin (csvLine r).
Proof.
  intros H. unfold basicLatinRecord, stringFields in H.
  repeat (apply Forall_cons in H as [? H]).
  unfold csvLine. apply isBasicLatin_join; [repeat constructor|].
  unfold HEADERS. simpl.
  repeat (apply Forall_cons; split); try constructor;
    apply isBasicLatin_escape; try assumption.
  apply isBasicLatin_stringOfZ.
Qed.

(** X16. The CSV text is the header line followed, for every record,
    by a line feed and the record's line; a sender row is simply the
    first record; without records the text is the header line alone.
    When all the strings of the records are Basic Latin the exported
    bytes are the code units of the text. *)
Theorem buildCSVContent_layout (rows : list MappedAddress)
    (senderRow : option MappedAddress) :
  let header := js "NAME;ZUSATZ;STRASSE;NUMMER;PLZ;STADT;LAND;ADRESS_TYP;REFERENZ" in
  (forall sender,
     buildCSVContent rows (Some sender) = buildCSVContent (sender :: rows) None)
  /\ buildCSVContent rows None
     = header ++ flat_map (fun r => [NEWLINE] ++ csvLine r) rows
  /\ buildCSVContent [] None = header
  /\ (Forall basicLatinRecord rows ->
      createCSVBlob (buildCSVContent rows None) = buildCSVContent rows None).
Proof.
  intros header.
  assert (Hlayout : buildCSVContent rows None
            = header ++ flat_map (fun r => [NEWLINE] ++ csvLine r) rows).
  { unfold buildCSVContent. apply join_cons_map. }
  split; [reflexivity|]. split; [exact Hlayout|]. split; [reflexivity|].
  intros H. unfold createCSVBlob.
  apply (proj2 (proj2 (proj2 (proj2 (toCP1252Bytes_facts _))))).
  rewrite Hlayout. unfold isBasicLatin. apply Forall_app. split.
  - apply isBasicLatin_dec. reflexivity.
  - apply Forall_forall. intros c Hc.
    apply list_elem_of_In, in_flat_map in Hc as (r & Hr & Hc).
    apply list_elem_of_In in Hr. rewrite Forall_forall in H.
    specialize (H r Hr). apply isBasicLatin_csvLine in H.
    destruct Hc as [<-|Hc]; [reflexivity|].
    unfold isBasicLatin in H. rewrite Forall_forall in H.
    apply H. now apply list_elem_of_In.
Qed.

Lemma buildCSVContent_layout_witness :
  createCSVBlob (buildCSVContent [plainRecord] None)
  = buildCSVContent [plainRecord] None.
Proof.
  apply (proj2 (proj2 (proj2 (buildCSVContent_layout [plainRecord] None)))).
  constructor; [|constructor]. unfold basicLatinRecord, stringFields.
  repeat (apply Forall_cons; split); try constructor;
    apply isBasicLatin_dec; reflexivity.
Defined.

(** ** Selections and the alias table built from them *)

Lemma entryGet_entrySet {K V} `{EqDecision K} (entries : list (K * V)) k v k' :
  entryGet (entrySet entries k v) k'
  = if decide (k = k') then Some v else entryGet entries k'.
Proof.
  induction entries as [|[k0 v0] rest IH]; simpl.
  - reflexivity.
  - destruct (decide (k0 = k)) as [->|Hne]; simpl.
    + destruct (decide (k = k')); reflexivity.
    + rewrite IH. destruct (decide (k0 = k')) as [->|]; [|reflexivity].
      now rewrite decide_False.
Qed.

Lemma assignSources_snoc selections e :
  assignSources (selections ++ [e])
  = match e.2 with
    | Some source =>
        if nonEmpty source
        then if bool_decide (source = js "__proto__")
             then assignSources selections
             else entrySet (assignSources selections) source e.1
        else assignSources selections
    | None => assignSources selections
    end.
Proof. unfold assignSources. rewrite foldl_app. now destruct e. Qed.

Lemma selectedSources_snoc selections e :
  selectedSources (selections ++ [e])
  = selectedSources selections
    ++ match e.2 with
       | Some source => if nonEmpty source then [source] else []
       | None => []
       end.
Proof.
  unfold selectedSources. rewrite flat_map_app. simpl. now rewrite app_nil_r.
Qed.

Lemma assignSources_sound selections source target :
  (source, target) ∈ assignSources selections ->
  (target, Some source) ∈ selections /\ source <> []
  /\ source <> js "__proto__".
Proof.
  induction selections as [|[t s] sel IH] using rev_ind.
  - intros H. now apply elem_of_nil in H.
  - rewrite assignSources_snoc. cbn [fst snd].
    assert (Hold : (source, target) ∈ assignSources sel ->
                   (target, Some source) ∈ sel ++ [(t, s)] /\ source <> []
                   /\ source <> js "__proto__").
    { intros H. apply IH in H as [H Hne]. split; [|exact Hne].
      apply elem_of_app. now left. }
    destruct s as [s|]; [|exact Hold].
    destruct (nonEmpty s) eqn:E; [|exact Hold].
    destruct (bool_decide (s = js "__proto__")) eqn:Ep; [exact Hold|].
    apply bool_decide_eq_false in Ep.
    intros H. apply entrySet_elem in H as [[= -> ->]|H]; [|now apply Hold].
    split; [|split; [now apply nonEmpty_true | exact Ep]].
    apply elem_of_app. right. left.
Qed.

Lemma assignSources_keys selections source :
  source ∈ (assignSources selections).*1 -> source ∈ selectedSources selections.
Proof.
  intros H. apply list_elem_of_fmap in H as ([s t] & -> & H). simpl.
  apply assignSources_sound in H as (H & Hne & _). unfold selectedSources.
  apply list_elem_of_In, in_flat_map. exists (t, Some s).
  split; [now apply list_elem_of_In|]. simpl.
  apply nonEmpty_true in Hne. rewrite Hne. now left.
Qed.

Lemma assignSources_NoDup selections : NoDup (assignSources selections).*1.
Proof.
  induction selections as [|[t s] sel IH] using rev_ind; [constructor|].
  rewrite assignSources_snoc. cbn [fst snd]. destruct s as [s|]; [|exact IH].
  destruct (nonEmpty s); [|exact IH].
  destruct (bool_decide _); [exact IH | now apply entrySet_NoDup].
Qed.

Lemma assignSources_get selections target source :
  NoDup (selectedSources selections) ->
  (target, Some source) ∈ selections -> source <> [] ->
  source <> js "__proto__" ->
  entryGet (assignSources selections) source = Some target.
Proof.
  induction selections as [|[t s] sel IH] using rev_ind.
  - intros _ H. now apply elem_of_nil in H.
  - rewrite selectedSources_snoc, assignSources_snoc. cbn [fst snd].
    intros Hnd Hin Hne Hp. apply elem_of_app in Hin as [Hin|Hin].
    + apply NoDup_app in Hnd as (Hnd1 & Hdisj & _).
      specialize (IH Hnd1 Hin Hne Hp).
      destruct s as [s|]; [|exact IH]. destruct (nonEmpty s); [|exact IH].
      destruct (bool_decide _); [exact IH|].
      rewrite entryGet_entrySet. destruct (decide (s = source)) as [->|]; [|exact IH].
      exfalso. apply (Hdisj source); [|left].
      apply assignSources_keys. apply entryGet_elem in IH.
      apply list_elem_of_fmap. now exists (source, target).
    + apply list_elem_of_singleton in Hin. injection Hin as <- <-.
      apply nonEmpty_true in Hne. rewrite Hne.
      rewrite bool_decide_eq_false_2 by exact Hp.
      rewrite entryGet_entrySet. now rewrite decide_True.
Qed.

Lemma insertByIndex_Permutation {A} n (a : A) l :
  Permutation (insertByIndex n a l) ((n, a) :: l).
Proof.
  induction l as [|[m b] r IH]; simpl; [reflexivity|].
  destruct (n <? m)%N; [reflexivity|]. rewrite IH. apply perm_swap.
Qed.

Lemma indexEntries_Permutation {V} (entries : list (str * V)) :
  Permutation (indexEntries entries).*2
    (List.filter (fun e => isArrayIndex e.1) entries).
Proof.
  induction entries as [|e r IH]; [reflexivity|].
  unfold indexEntries in *. cbn [foldr List.filter]. unfold isArrayIndex at 1.
  destruct (arrayIndex e.1) as [n|]; [|exact IH].
  rewrite insertByIndex_Permutation. rewrite fmap_cons. cbn [snd].
  now constructor.
Qed.

(** Enumeration reorders the properties and does nothing else. *)
Lemma objectEntries_Permutation {V} (entries : list (str * V)) :
  Permutation (objectEntries entries) entries.
Proof.
  unfold objectEntries, namedEntries. rewrite indexEntries_Permutation.
  apply (filter_partition (fun e : str * V => isArrayIndex e.1)).
Qed.

Example objectEntries_order :
  objectEntries [ (js "b", 1); (js "10", 2); (js "a", 3); (js "2", 4); (js "02", 5) ]
  = [ (js "2", 4); (js "10", 2); (js "b", 1); (js "a", 3); (js "02", 5) ].
Proof. vm_compute. reflexivity. Qed.

Lemma buildMapping_elem selections e :
  e ∈ buildMapping selections <-> e ∈ assignSources selections.
Proof. unfold buildMapping. now rewrite objectEntries_Permutation. Qed.

Lemma buildMapping_sound selections source target :
  (source, target) ∈ buildMapping selections ->
  (target, Some source) ∈ selections /\ source <> []
  /\ source <> js "__proto__".
Proof. rewrite buildMapping_elem. apply assignSources_sound. Qed.

Lemma buildMapping_keys selections source :
  source ∈ (buildMapping selections).*1 -> source ∈ selectedSources selections.
Proof.
  unfold buildMapping. rewrite objectEntries_Permutation.
  apply assignSources_keys.
Qed.

Lemma buildMapping_NoDup selections : NoDup (buildMapping selections).*1.
Proof.
  unfold buildMapping. rewrite objectEntries_Permutation.
  apply assignSources_NoDup.
Qed.

Lemma buildMapping_get selections target source :
  NoDup (selectedSources selections) ->
  (target, Some source) ∈ selections -> source <> [] ->
  source <> js "__proto__" ->
  entryGet (buildMapping selections) source = Some target.
Proof.
  intros Hnd Hin Hne Hp. apply entryGet_NoDup; [apply buildMapping_NoDup|].
  apply buildMapping_elem, entryGet_elem. now apply assignSources_get.
Qed.

Lemma NoDup_fmap_inj_on {A B} `{EqDecision A} (f : A -> B) (l : list A) x y :
  NoDup (f <$> l) -> x ∈ l -> y ∈ l -> f x = f y -> x = y.
Proof.
  induction l as [|a l IH]; intros Hnd Hx Hy E.
  - now apply elem_of_nil in Hx.
  - rewrite fmap_cons in Hnd. apply NoDup_cons in Hnd as [Ha Hnd].
    apply elem_of_cons in Hx as [->|Hx]; apply elem_of_cons in Hy as [->|Hy].
    + reflexivity.
    + exfalso. apply Ha. rewrite E. apply list_elem_of_fmap. now exists y.
    + exfalso. apply Ha. rewrite <- E. apply list_elem_of_fmap. now exists x.
    + now apply IH.
Qed.

(** The alias table of the selections sends a selected column to its
    field, once the selected columns differ after lower-casing. *)
Lemma buildMapping_outputKey (toLowerCase : str -> str)
    (selections : Selections) target source :
  NoDup (map toLowerCase (selectedSources selections)) ->
  (target, Some source) ∈ selections ->
  source <> [] -> source <> js "__proto__" -> target <> [] ->
  outputKey toLowerCase (buildMapping selections) source = target.
Proof.
  intros Hnd Hin Hne Hp Ht.
  assert (Hnd0 : NoDup (selectedSources selections)).
  { eapply NoDup_fmap_1. exact Hnd. }
  pose proof (buildMapping_get _ _ _ Hnd0 Hin Hne Hp) as Hget.
  apply entryGet_elem in Hget.
  unfold outputKey.
  rewrite (lastBound_NoDup _ (toLowerCase source) target).
  - apply nonEmpty_true in Ht. now rewrite Ht.
  - unfold loweredAliases. rewrite <- list_fmap_compose.
    apply NoDup_fmap_2_strong; [|apply NoDup_fmap_1 with (f := fst), buildMapping_NoDup].
    intros [s1 t1] [s2 t2] H1 H2 E. simpl in E.
    assert (s1 = s2).
    { eapply (NoDup_fmap_inj_on toLowerCase); [exact Hnd | | | exact E];
        apply buildMapping_keys, list_elem_of_fmap.
      - now exists (s1, t1).
      - now exists (s2, t2). }
    subst s2. f_equal.
    pose proof (entryGet_NoDup _ _ _ (buildMapping_NoDup selections) H1).
    pose proof (entryGet_NoDup _ _ _ (buildMapping_NoDup selections) H2).
    congruence.
  - unfold loweredAliases. apply list_elem_of_fmap.
    exists (source, target). split; [reflexivity | exact Hget].
Qed.

(** X17. The alias table built from the selections has one entry per
    selected source column, each taken from a selection, and none for
    an unselected or empty one nor for a column named [__proto__]. When
    the selected columns are pairwise different the table sends each
    column to the field it was selected for. When they stay different
    after lower-casing, [mapColumns], given this table and a row whose
    keys lower-cased name no member inherited from [Object.prototype]
    and share no output key, stores the cell of a selected column under
    the key of its field. *)
Theorem buildMapping_inverts (toLowerCase : str -> str)
    (selections : Selections) :
  NoDup (buildMapping selections).*1
  /\ (forall source target,
        (source, target) ∈ buildMapping selections ->
        (target, Some source) ∈ selections /\ source <> []
        /\ source <> js "__proto__")
  /\ (NoDup (selectedSources selections) ->
      forall target source,
        (target, Some source) ∈ selections ->
        source <> [] -> source <> js "__proto__" ->
        entryGet (buildMapping selections) source = Some target)
  /\ (NoDup (map toLowerCase (selectedSources selections)) ->
      js "__proto__" ∉ selections.*1 ->
      forall row : RawRow,
        (forall key, key ∈ row.*1 -> toLowerCase key ∉ OBJECT_PROTOTYPE_KEYS) ->
        NoDup (map (outputKey toLowerCase (buildMapping selections)) row.*1) ->
        forall target source v,
          (target, Some source) ∈ selections ->
          source <> [] -> source <> js "__proto__" -> target <> [] ->
          (source, v) ∈ row ->
          mapColumns toLowerCase row (Some (buildMapping selections)) !! target
          = Some v).
Proof.
  split; [apply buildMapping_NoDup|]. split; [apply buildMapping_sound|].
  split; [intros Hnd t s; now apply buildMapping_get|].
  intros Hnd Hsel row Hrow Hout target source v Hin Hne Hp Ht Hv.
  rewrite mapColumns_entries, foldl_insertEntry_lastBound, lookup_empty.
  - cbn [default].
    rewrite (lastBound_NoDup _ target v); [reflexivity| |].
    + unfold remappedEntries. rewrite <- list_fmap_compose.
      rewrite <- list_fmap_compose in Hout. exact Hout.
    + unfold remappedEntries. apply list_elem_of_fmap.
      exists (source, v). split; [|exact Hv]. cbn [fst snd]. f_equal.
      symmetry. now apply buildMapping_outputKey.
  - exact Hrow.
  - cbn [default]. intros H. apply Hsel.
    apply list_elem_of_fmap in H as ([s t] & E & H). cbn [snd] in E. subst t.
    apply buildMapping_sound in H as (H & _).
    apply list_elem_of_fmap. exists (js "__proto__", Some s). auto.
Qed.

Lemma buildMapping_inverts_witness :
  mapColumns asciiLower
    [ (js "Wohnort", CString (js "Bonn")); (js "Notiz", CString (js "eilig")) ]
    (Some (buildMapping [ (js "first_name", Some (js "Rufname"));
                          (js "salutation", None);
                          (js "city", Some (js "Wohnort")) ]))
  !! js "city"
  = Some (CString (js "Bonn")).
Proof.
  apply (proj2 (proj2 (proj2 (buildMapping_inverts asciiLower
           [ (js "first_name", Some (js "Rufname"));
             (js "salutation", None);
             (js "city", Some (js "Wohnort")) ])))
         ltac:(vm_compute; repeat constructor; intros E;
               repeat (apply elem_of_cons in E as [E|E]; [discriminate E|]);
               now apply elem_of_nil in E)
         ltac:(apply not_elem_of_dec; vm_compute; reflexivity)
         [ (js "Wohnort", CString (js "Bonn")); (js "Notiz", CString (js "eilig")) ]
         ltac:(apply (Forall_keys_dec _
                 (fun k => forallb (fun p => negb (bool_decide (asciiLower k = p)))
                             OBJECT_PROTOTYPE_KEYS));
               [intros k; apply not_elem_of_dec | vm_compute; reflexivity])
         ltac:(vm_compute; repeat constructor; intros E;
               repeat (apply elem_of_cons in E as [E|E]; [discriminate E|]);
               now apply elem_of_nil in E)
         (js "city") (js "Wohnort") (CString (js "Bonn"))).
  - do 2 right. left.
  - discriminate.
  - discriminate.
  - discriminate.
  - left.
Defined.

(** ** Initial selections *)

Lemma indexOf_Some (l : list str) x i : indexOf l x = Some i -> l !! i = Some x.
Proof.
  revert i. induction l as [|y r IH]; intros i; simpl; [discriminate|].
  destruct (decide (y = x)) as [->|_].
  - now intros [= <-].
  - destruct (indexOf r x) as [j|]; [|discriminate].
    intros [= <-]. now apply IH.
Qed.

Lemma indexOf_elem (l : list str) x : x ∈ l -> is_Some (indexOf l x).
Proof.
  induction l as [|y r IH]; intros H; [now apply elem_of_nil in H|]. simpl.
  destruct (decide (y = x)); [eauto|].
  apply elem_of_cons in H as [->|H]; [congruence|].
  destruct (IH H) as [j ->]. simpl. eauto.
Qed.

Lemma indexOf_header (toLowerCase : str -> str) (headers : list str) x i :
  indexOf (map toLowerCase headers) x = Some i ->
  exists h, headers !! i = Some h /\ h ∈ headers /\ toLowerCase h = x.
Proof.
  intros H. apply indexOf_Some in H. rewrite list_lookup_fmap in H.
  destruct (headers !! i) as [h|] eqn:E; [|discriminate].
  injection H as H. exists h. split; [reflexivity|]. split; [|exact H].
  now apply list_elem_of_lookup_2 in E.
Qed.

Lemma foldl_invariant_in {A B} (P : A -> Prop) (f : A -> B -> A) (l : list B) a :
  (forall a x, x ∈ l -> P a -> P (f a x)) -> P a -> P (foldl f a l).
Proof.
  revert a. induction l as [|x l IH]; intros a Hstep Ha; [exact Ha|]. simpl.
  apply IH.
  - intros a' y Hy. apply Hstep. now right.
  - apply Hstep; [left | exact Ha].
Qed.

Lemma recalcMapping_mapped (toLowerCase : str -> str)
    (countriesData : list Country) (data : list RawRow)
    (selections : Selections) (st : AppState) :
  data <> [] -> missingRequired selections = [] ->
  recalcMapping toLowerCase countriesData data selections st
  = {| mappedData :=
         mapData toLowerCase countriesData data (Some (buildMapping selections));
       warnings :=
         buildWarnings
           (mapData toLowerCase countriesData data
              (Some (buildMapping selections)));
       error := [] |}.
Proof.
  intros Hdata Hmiss. unfold recalcMapping.
  destruct data as [|row data]; [congruence|].
  change (length (row :: data) =? 0) with false. cbv iota.
  fold (missingRequired selections). rewrite Hmiss. reflexivity.
Qed.

Section InitialSelections.

Variable toLowerCase : str -> str.

Lemma selectField_choice headers selections field :
  selectField toLowerCase headers (map toLowerCase headers) selections field
  = match fieldChoice toLowerCase headers field with
    | Some v => entrySet selections (key field) v
    | None => selections
    end.
Proof.
  unfold selectField, fieldChoice.
  destruct (List.find _ DEFAULT_COLUMN_MAPPING) as [[src tgt]|].
  - destruct (indexOf (map toLowerCase headers) (toLowerCase src)); [reflexivity|].
    destruct (indexOf _ _); reflexivity.
  - destruct (indexOf _ _); reflexivity.
Qed.

Lemma fieldChoice_header headers field v :
  fieldChoice toLowerCase headers field = Some v ->
  exists h, v = Some h /\ h ∈ headers.
Proof.
  assert (Hidx : forall x i, indexOf (map toLowerCase headers) x = Some i ->
                             Some (headers !! i) = Some v ->
                             exists h, v = Some h /\ h ∈ headers).
  { intros x i Hi [= <-]. apply indexOf_header in Hi as (h & -> & Hin & _). eauto. }
  unfold fieldChoice. cbv zeta.
  destruct (List.find _ DEFAULT_COLUMN_MAPPING) as [[src tgt]|].
  - destruct (indexOf (map toLowerCase headers) (toLowerCase src)) eqn:E1;
      [eapply Hidx; eauto|].
    destruct (indexOf (map toLowerCase headers) (toLowerCase (key field))) eqn:E2;
      [eapply Hidx; eauto | discriminate].
  - destruct (indexOf (map toLowerCase headers) (toLowerCase (key field))) eqn:E2;
      [eapply Hidx; eauto | discriminate].
Qed.

Lemma foldl_selectField_other headers fields selections k :
  k ∉ map key fields ->
  entryGet (foldl (selectField toLowerCase headers (map toLowerCase headers))
              selections fields) k
  = entryGet selections k.
Proof.
  revert selections. induction fields as [|f fields IH]; intros selections Hk;
    [reflexivity|].
  simpl in Hk. apply not_elem_of_cons in Hk as [Hne Hk]. simpl.
  rewrite IH by exact Hk. rewrite selectField_choice.
  destruct (fieldChoice _ _ _); [|reflexivity].
  rewrite entryGet_entrySet. now rewrite decide_False by congruence.
Qed.

Lemma foldl_selectField_get headers fields selections field :
  NoDup (map key fields) -> field ∈ fields ->
  entryGet (foldl (selectField toLowerCase headers (map toLowerCase headers))
              selections fields) (key field)
  = match fieldChoice toLowerCase headers field with
    | Some v => Some v
    | None => entryGet selections (key field)
    end.
Proof.
  revert selections. induction fields as [|f fields IH];
    intros selections Hnd Hin; [now apply elem_of_nil in Hin|].
  simpl in Hnd. apply NoDup_cons in Hnd as [Hf Hnd]. simpl.
  apply elem_of_cons in Hin as [->|Hin].
  - rewrite foldl_selectField_other by exact Hf. rewrite selectField_choice.
    destruct (fieldChoice _ _ _); [|reflexivity].
    rewrite entryGet_entrySet. now rewrite decide_True.
  - rewrite IH by assumption.
    destruct (fieldChoice toLowerCase headers field); [reflexivity|].
    rewrite selectField_choice. destruct (fieldChoice _ _ f); [|reflexivity].
    rewrite entryGet_entrySet. rewrite decide_False; [reflexivity|].
    intros E. apply Hf. rewrite E. apply list_elem_of_fmap. now exists field.
Qed.

Lemma TARGET_FIELDS_keys_NoDup : NoDup (map key TARGET_FIELDS).
Proof.
  unfold TARGET_FIELDS. simpl.
  repeat (apply NoDup_cons; split;
          [intros E; repeat (apply elem_of_cons in E as [E|E]; [discriminate E|]);
           now apply elem_of_nil in E|]).
  constructor.
Qed.

Lemma default_column_selected headers field source :
  [] ∉ headers ->
  field ∈ TARGET_FIELDS ->
  List.find (fun '(_, targetKey) => bool_decide (targetKey = key field))
    DEFAULT_COLUMN_MAPPING = Some (source, key field) ->
  toLowerCase source ∈ map toLowerCase headers ->
  selected (initSelections toLowerCase headers) (key field) = true.
Proof.
  intros Hne Hf Hfind Hin. unfold selected, initSelections.
  rewrite foldl_selectField_get by (apply TARGET_FIELDS_keys_NoDup || exact Hf).
  unfold fieldChoice. rewrite Hfind.
  destruct (indexOf_elem _ _ Hin) as [idx Hidx]. rewrite Hidx.
  apply indexOf_header in Hidx as (h & -> & Hh & _).
  apply nonEmpty_true. intros ->. contradiction.
Qed.

(** X18. The initial selections bind target fields to columns of the
    file only, never to [undefined]. When no header is empty and the
    file has, up to case, the default columns of the six required
    fields, every required field is selected, so that re-mapping a
    non-empty batch with these selections raises no error and maps
    every row. *)
Theorem initSelections_defaults (countriesData : list Country)
    (headers : list str) :
  (forall k v,
     (k, v) ∈ initSelections toLowerCase headers ->
     (exists h, v = Some h /\ h ∈ headers) /\ k ∈ map key TARGET_FIELDS)
  /\ ([] ∉ headers ->
      (forall col, col ∈ requiredDefaultColumns ->
                   toLowerCase col ∈ map toLowerCase headers) ->
      missingRequired (initSelections toLowerCase headers) = []
      /\ forall (data : list RawRow) (st : AppState),
           data <> [] ->
           let st' := recalcMapping toLowerCase countriesData data
                        (initSelections toLowerCase headers) st in
           error st' = [] /\ length (mappedData st') = length data).
Proof.
  split.
  - unfold initSelections.
    apply (foldl_invariant_in
             (fun sel : Selections => forall k v, (k, v) ∈ sel ->
                (exists h, v = Some h /\ h ∈ headers) /\ k ∈ map key TARGET_FIELDS)).
    + intros sel f Hf IH k v. rewrite selectField_choice.
      destruct (fieldChoice toLowerCase headers f) as [c|] eqn:Ec; [|apply IH].
      intros H. apply entrySet_elem in H as [[= -> ->]|H]; [|now apply IH].
      split; [now apply fieldChoice_header in Ec|].
      apply list_elem_of_fmap. now exists f.
    + intros k v H. now apply elem_of_nil in H.
  - intros Hne Hcols.
    assert (Hsel : forall field source,
      field ∈ TARGET_FIELDS ->
      List.find (fun '(_, targetKey) => bool_decide (targetKey = key field))
        DEFAULT_COLUMN_MAPPING = Some (source, key field) ->
      source ∈ requiredDefaultColumns ->
      selected (initSelections toLowerCase headers) (key field) = true).
    { intros field source Hf Hfind Hs.
      eapply default_column_selected; eauto. }
    assert (Hmiss : missingRequired (initSelections toLowerCase headers) = []).
    { unfold missingRequired, TARGET_FIELDS. cbn [List.filter required key andb].
      pose proof (Hsel {| key := js "first_name"; label := js "Vorname";
                          required := true |} (js "Vorname")) as H1.
      pose proof (Hsel {| key := js "last_name"; label := js "Nachname";
                          required := true |} (js "Name")) as H2.
      pose proof (Hsel {| key := js "street"; label := js "Straße";
                          required := true |} (js "Adresse1")) as H3.
      pose proof (Hsel {| key := js "postal_code"; label := js "PLZ";
                          required := true |} (js "PLZ")) as H4.
      pose proof (Hsel {| key := js "city"; label := js "Ort";
                          required := true |} (js "Ort")) as H5.
      pose proof (Hsel {| key := js "country"; label := js "Land";
                          required := true |} (js "Land")) as H6.
      cbn [key] in H1, H2, H3, H4, H5, H6.
      rewrite H1, H2, H3, H4, H5, H6; try reflexivity.
      all: solve [ apply list_elem_of_In;
                   cbv [requiredDefaultColumns TARGET_FIELDS In]; auto 12 ]. }
    split; [exact Hmiss|]. intros data st Hdata st'.
    unfold st'. rewrite recalcMapping_mapped by assumption.
    cbn [mappedData error]. split; [reflexivity|]. apply length_imap.
Qed.

End InitialSelections.

Lemma initSelections_defaults_witness :
  missingRequired
    (initSelections asciiLower
       [ js "VORNAME"; js "name"; js "Adresse1"; js "Telefon"; js "plz";
         js "Ort"; js "LAND" ])
  = [].
Proof.
  refine (proj1 (proj2 (initSelections_defaults asciiLower sampleCountries
           [ js "VORNAME"; js "name"; js "Adresse1"; js "Telefon"; js "plz";
             js "Ort"; js "LAND" ]) _ _)).
  - intros E. repeat (apply elem_of_cons in E as [E|E]; [discriminate E|]).
    now apply elem_of_nil in E.
  - intros col Hcol. apply list_elem_of_In. apply list_elem_of_In in Hcol.
    cbv [requiredDefaultColumns In] in Hcol.
    repeat (destruct Hcol as [<-|Hcol]; [vm_compute; auto 12|]).
    destruct Hcol.
Defined.

(** ** Nothing of the street is lost *)

Lemma collapseFrom_no_whitespace b s :
  Forall (fun c => isWhiteSpace c = false) s -> collapseFrom b s = s.
Proof.
  intros H. revert b. induction H as [|c r Hc _ IH]; intros b; [reflexivity|].
  simpl. now rewrite Hc, IH.
Qed.

Lemma collapseFrom_true_run w t :
  Forall (fun c => isWhiteSpace c = true) w ->
  collapseFrom true (w ++ t) = collapseFrom true t.
Proof.
  induction 1 as [|c w Hc _ IH]; [reflexivity|]. simpl. now rewrite Hc.
Qed.

Lemma collapseFrom_split b p c w t :
  isWhiteSpace c = false ->
  w <> [] -> Forall (fun x => isWhiteSpace x = true) w ->
  Forall (fun x => isWhiteSpace x = false) t ->
  collapseFrom b ((p ++ [c]) ++ w ++ t)
  = collapseFrom b (p ++ [c]) ++ SPACE :: t.
Proof.
  intros Hc Hw Hws Ht. revert b. induction p as [|x p IH]; intros b.
  - simpl. rewrite Hc. f_equal.
    destruct w as [|y w]; [congruence|]. apply Forall_cons in Hws as [Hy Hws].
    simpl. rewrite Hy. f_equal. rewrite collapseFrom_true_run by exact Hws.
    now apply collapseFrom_no_whitespace.
  - simpl. destruct (isWhiteSpace x).
    + destruct b; [apply IH|]. simpl. f_equal. apply IH.
    + simpl. f_equal. apply IH.
Qed.

Lemma join_snoc sep (l : list str) :
  2 <= length l ->
  join sep l = join sep (removelast l) ++ sep ++ List.last l [].
Proof.
  induction l as [|p l IH]; [simpl; lia|].
  destruct l as [|q l]; [simpl; lia|]. intros _.
  destruct l as [|r l].
  - reflexivity.
  - change (join sep (p :: q :: r :: l))
      with (p ++ sep ++ join sep (q :: r :: l)).
    rewrite IH by (simpl; lia).
    change (removelast (p :: q :: r :: l)) with (p :: removelast (q :: r :: l)).
    rewrite last_cons_cons.
    change (removelast (q :: r :: l)) with (q :: removelast (r :: l)).
    change (join sep (p :: q :: removelast (r :: l)))
      with (p ++ sep ++ join sep (q :: removelast (r :: l))).
    now rewrite <- !app_assoc.
Qed.

Lemma join_tail sep (l : list str) :
  2 <= length l -> join sep l = hd [] l ++ sep ++ join sep (tl l).
Proof. destruct l as [|p [|q l]]; simpl; try lia. reflexivity. Qed.

Lemma trimEnd_app_inv a b : trimEnd (a ++ b) = a ++ b -> trimEnd b = b.
Proof.
  induction a as [|x a IH]; [trivial|]. intros H.
  change ((x :: a) ++ b) with (x :: (a ++ b)) in H.
  apply trimEnd_cons_inv in H as [H _]. now apply IH.
Qed.

Lemma singleSpaced_app_inv a b :
  singleSpaced (a ++ b) = true -> singleSpaced b = true.
Proof.
  induction a as [|x a IH]; [trivial|]. simpl. intros H.
  apply andb_true_iff in H as [_ H]. now apply IH.
Qed.

Lemma Normalized_suffix a b : Normalized (a ++ SPACE :: b) -> Normalized b.
Proof.
  intros [Ht Hs].
  assert (Hend : trimEnd (a ++ SPACE :: b) = a ++ SPACE :: b).
  { pose proof (trimEnd_trim (a ++ SPACE :: b)) as H. now rewrite Ht in H. }
  apply trimEnd_app_inv in Hend. apply trimEnd_cons_inv in Hend as [Hb _].
  apply singleSpaced_app_inv in Hs. simpl in Hs.
  apply andb_true_iff in Hs as [Hnext Hs]. split; [|exact Hs].
  unfold trim. rewrite trimStart_fix; [exact Hb|].
  destruct b as [|y b]; simpl; [exact I|]. simpl in Hnext.
  now apply negb_true_iff in Hnext.
Qed.

Lemma singleSpaced_prefix a b :
  singleSpaced (a ++ SPACE :: b) = true ->
  singleSpaced a = true /\ trimEnd a = a.
Proof.
  induction a as [|x a IH]; [split; reflexivity|].
  change ((x :: a) ++ SPACE :: b) with (x :: (a ++ SPACE :: b)).
  cbn [singleSpaced]. intros H. apply andb_true_iff in H as [Hx H].
  destruct (IH H) as [Hs He]. split.
  - cbn [singleSpaced]. rewrite Hs, andb_true_r.
    destruct (isWhiteSpace x); [|reflexivity].
    apply andb_true_iff in Hx as [Hsp Hnext]. rewrite Hsp. simpl.
    destruct a as [|y a]; [reflexivity|]. exact Hnext.
  - apply trimEnd_cons; [exact He|].
    destruct a as [|y a]; [|left; discriminate]. right.
    destruct (isWhiteSpace x); [|reflexivity].
    apply andb_true_iff in Hx as [_ Hnext]. simpl in Hnext. discriminate.
Qed.

Lemma Normalized_prefix a b : Normalized (a ++ SPACE :: b) -> Normalized a.
Proof.
  intros [Ht Hs]. destruct (singleSpaced_prefix _ _ Hs) as [Ha He].
  split; [|exact Ha]. unfold trim. rewrite trimStart_fix; [exact He|].
  pose proof (trim_stops (a ++ SPACE :: b)) as Hstop. rewrite Ht in Hstop.
  destruct a; [exact I | exact Hstop].
Qed.

(** X19. Splitting loses nothing of a street cell: with both parts
    cleaned as [mapRow] does, either the number is empty and the street
    is the cleaned cell, or street, one space and number make up the
    cleaned cell, or (number read in front) number, one space and
    street do. *)
Theorem splitStreetNumber_lossless (street : value) :
  truthy street = true ->
  let strasse := cleanValue (VString (splitStreetNumber street).1) in
  let nummer := cleanValue (VString (splitStreetNumber street).2) in
  (nummer = [] /\ strasse = cleanValue street)
  \/ strasse ++ [SPACE] ++ nummer = cleanValue street
  \/ nummer ++ [SPACE] ++ strasse = cleanValue street.
Proof.
  intros Ht.
  pose proof (splitStreetNumber_shape street) as (Hws & _ & _ & _).
  assert (Hnum : cleanValue (VString (splitStreetNumber street).2)
                 = (splitStreetNumber street).2).
  { apply Normalized_cleanValue. split.
    - unfold trim. rewrite trimStart_fix.
      + rewrite <- (collapseFrom_no_whitespace false _ Hws) at 2.
        rewrite <- (collapseFrom_no_whitespace false _ Hws) at 1.
        destruct (splitStreetNumber street).2 as [|c r] eqn:E; [reflexivity|].
        rewrite (collapseFrom_no_whitespace false _ Hws).
        clear E. revert Hws. generalize (c :: r). intros l Hl.
        induction Hl as [|x l Hx _ IH]; [reflexivity|].
        apply trimEnd_cons; [exact IH | now right].
      + destruct (splitStreetNumber street).2; [exact I|].
        now apply Forall_cons in Hws as [Hc _].
    - clear Ht. induction Hws as [|x l Hx _ IH]; [reflexivity|].
      simpl. now rewrite Hx, IH. }
  cbv zeta. rewrite Hnum. clear Hnum Hws.
  remember (trim (String_ street)) as s eqn:Hs0.
  assert (Hclean : cleanValue street = collapseFrom false s).
  { unfold cleanValue. rewrite Ht, Hs0. reflexivity. }
  assert (Hstop0 : stopsAt isWhiteSpace s) by (rewrite Hs0; apply trim_stops).
  assert (Htrim : trim s = s) by (rewrite Hs0; apply trim_idem).
  pose proof (cleanValue_Normalized street) as Hnorm.
  rewrite Hclean in *.
  unfold splitStreetNumber. rewrite Ht. cbn [negb]. rewrite <- Hs0.
  clear Hs0 Hclean Ht.
  destruct (nonEmpty s) eqn:Es; cbn [negb].
  2:{ left. destruct s; [|discriminate]. split; reflexivity. }
  destruct (trailingMatch s) as [[p t]|] eqn:Em.
  - right. left. cbn [fst snd].
    apply trailingMatch_spec in Em.
    destruct Em as (w & Hs & (p' & c & Hp & Hc) & _ & Hw & Hwws & Htok).
    assert (Htws : Forall (fun x => isWhiteSpace x = false) t).
    { eapply Forall_impl; [apply (NumberToken_not_whitespace _ Htok)|].
      intros x Hx. unfold notWhiteSpace in Hx. now apply negb_true_iff. }
    rewrite Hs, Hp. rewrite collapseFrom_split by assumption.
    f_equal. rewrite <- Hp. unfold cleanValue.
    assert (Hpne : nonEmpty p = true) by (subst p; now destruct p').
    cbn [truthy]. rewrite Hpne. cbn [negb String_].
    unfold replaceWhitespaceRuns. f_equal. unfold trim.
    assert (Hstop : stopsAt isWhiteSpace p).
    { rewrite Hs in Hstop0. destruct p; [discriminate | exact Hstop0]. }
    rewrite trimStart_fix by exact Hstop. subst p.
    clear -Hc. induction p' as [|x p' IH]; simpl; [now rewrite Hc|].
    rewrite IH. destruct (p' ++ [c]) eqn:E; [|reflexivity].
    now apply app_eq_nil in E as [_ E].
  - rewrite <- join_splitFrom in *. fold (splitWhitespace s) in *.
    set (parts := splitWhitespace s) in *.
    destruct ((2 <=? length parts) && hasDigit (List.last parts [])) eqn:Eb.
    + right. left. cbn [fst snd].
      apply andb_true_iff in Eb as [Hlen _]. apply Nat.leb_le in Hlen.
      rewrite (join_snoc [SPACE] parts Hlen) in *.
      rewrite Normalized_cleanValue; [reflexivity|].
      eapply Normalized_prefix. exact Hnorm.
    + destruct ((2 <=? length parts) && hasDigit (hd [] parts)) eqn:Ec.
      * right. right. cbn [fst snd].
        apply andb_true_iff in Ec as [Hlen _]. apply Nat.leb_le in Hlen.
        rewrite (join_tail [SPACE] parts Hlen) in *.
        rewrite Normalized_cleanValue; [reflexivity|].
        eapply Normalized_suffix. exact Hnorm.
      * left. cbn [fst snd]. split; [reflexivity|].
        unfold cleanValue. cbn [truthy]. rewrite Es. cbn [negb String_].
        unfold replaceWhitespaceRuns. rewrite Htrim. symmetry.
        apply join_splitFrom.
Qed.

Lemma splitStreetNumber_lossless_witness :
  cleanValue (VString (splitStreetNumber (VString (js "  Am   Ring  7b "))).1)
  ++ [SPACE]
  ++ cleanValue (VString (splitStreetNumber (VString (js "  Am   Ring  7b "))).2)
  = js "Am Ring 7b".
Proof.
  destruct (splitStreetNumber_lossless (VString (js "  Am   Ring  7b ")) eq_refl)
    as [[H _]|[H|H]].
  - vm_compute in H. discriminate H.
  - rewrite H. vm_compute. reflexivity.
  - vm_compute in H. discriminate H.
Defined.
